(** * c2md: content acquisition and normalisation pipeline

    A shallow embedding of the crawler ([c2md/crawl.py]), the browser
    session ([c2md/fetch.py]), the result sorter ([c2md/extract.py]), the
    heading repair pass ([c2md/_postprocess.py]) and the citation engine
    ([c2md/citations.py]), with the properties the specification states
    about them; and of the other cleaning passes, the converter
    ([c2md/convert.py]), the slugs ([c2md/utils.py]), the image finder
    ([c2md/media.py]), the link analysis and the dates of
    [c2md/extract.py], and the fetching and refining steps of the command
    line ([c2md/cli.py]), with properties read off the code.

    Python [str] values are modelled as lists of characters of the [ascii]
    type, read as the code points below 256; the character classes of
    [str.strip], [str.split] and the regular expression class [\s], and
    the order of strings, are the ones Python has on that range. *)

From Stdlib Require Import List Ascii String DecimalString Lia Arith.
From Stdlib Require Import Permutation Sorted.
From stdpp Require Import base list gmap strings.
From Equations Require Import Equations.
Import ListNotations.
Open Scope list_scope.

(** ** Python strings *)

Module PyStr.

Definition str := list ascii.

(** String literals. *)
Definition L (s : string) : str := list_ascii_of_string s.

Definition nl : ascii := "010"%char.

(** [str.isspace] for one character: TAB, LF, VT, FF, CR, the four
    separators 0x1c-0x1f, the space, NEL (0x85) and the no-break space
    (0xa0). [str.strip], [str.split] and the class [\s] of [re] all use
    this set. *)
Definition isspace (c : ascii) : bool :=
  let n := nat_of_ascii c in
  ((9 <=? n) && (n <=? 13)) || ((28 <=? n) && (n <=? 32))
  || (n =? 133) || (n =? 160).

Definition eqc (a b : ascii) : bool := Ascii.eqb a b.

(** [s.split("\n")]: never the empty list. *)
Fixpoint split_nl (s : str) : list str :=
  match s with
  | [] => [[]]
  | c :: r =>
      if eqc c nl then [] :: split_nl r
      else match split_nl r with
           | [] => [[c]]
           | l :: ls => (c :: l) :: ls
           end
  end.

(** [sep.join(parts)]. *)
Fixpoint join (sep : str) (parts : list str) : str :=
  match parts with
  | [] => []
  | [p] => p
  | p :: ps => p ++ sep ++ join sep ps
  end.

Fixpoint lstrip (s : str) : str :=
  match s with
  | [] => []
  | c :: r => if isspace c then lstrip r else s
  end.

Fixpoint rstrip (s : str) : str :=
  match s with
  | [] => []
  | c :: r =>
      match rstrip r with
      | [] => if isspace c then [] else [c]
      | r' => c :: r'
      end
  end.

(** [s.strip()] *)
Definition strip (s : str) : str := rstrip (lstrip s).

(** [s.startswith(p)] *)
Fixpoint startswith (s p : str) {struct p} : bool :=
  match p, s with
  | [], _ => true
  | _ :: _, [] => false
  | a :: p', b :: s' => eqc a b && startswith s' p'
  end.

(** [s.split()]: the maximal runs of non-whitespace characters. [cur] is
    the run being read, in reverse. *)
Fixpoint split_ws_aux (cur : str) (s : str) : list str :=
  match s with
  | [] => match cur with [] => [] | _ => [rev cur] end
  | c :: r =>
      if isspace c
      then match cur with
           | [] => split_ws_aux [] r
           | _ => rev cur :: split_ws_aux [] r
           end
      else split_ws_aux (c :: cur) r
  end.

Definition split_ws (s : str) : list str := split_ws_aux [] s.

(** The truth value of a string: [bool(s)]. *)
Definition truthy (s : str) : bool :=
  match s with [] => false | _ => true end.

Fixpoint take_while (p : ascii -> bool) (s : str) : str :=
  match s with
  | [] => []
  | c :: r => if p c then c :: take_while p r else []
  end.

Fixpoint drop_while (p : ascii -> bool) (s : str) : str :=
  match s with
  | [] => []
  | c :: r => if p c then drop_while p r else s
  end.

(** Decimal rendering of a number, as an f-string does. *)
Definition str_of_nat (n : nat) : str :=
  L (NilEmpty.string_of_uint (Nat.to_uint n)).

Definition no_nl (s : str) : Prop := Forall (fun c => c <> nl) s.

End PyStr.

Import PyStr.

(** ** Markdown post-processing: heading repair *)

Module Postprocess.

Definition is_hash (c : ascii) : bool := eqc c "#"%char.

(** [re.match(r"^(#{1,6})\s*$", line)]: the value of group 1 when the line
    matches. The greedy run of hashes must be the whole run of leading
    hashes (a shorter one leaves a hash, which [\s] refuses), of length 1
    to 6, and what follows is whitespace up to the end. *)
Definition heading_match (line : str) : option str :=
  let hashes := take_while is_hash line in
  let rest := drop_while is_hash line in
  if (1 <=? length hashes) && (length hashes <=? 6) && forallb isspace rest
  then Some hashes
  else None.

(** The condition under which the inner loop breaks, on the stripped
    line. *)
Definition stops (next_line : str) : bool :=
  negb (truthy next_line)
  || startswith next_line (L "#")
  || startswith next_line (L "-")
  || startswith next_line (L "*")
  || startswith next_line (L "[")
  || startswith next_line (L "|")
  || startswith next_line (L ">")
  || startswith next_line (L "```")
  || (3 <? length (split_ws next_line)).

(** The inner [while j < len(lines)] loop, from [lines[j:]]: the
    fragments it appends. It leaves [j] after the last of them. *)
Fixpoint fragments (lines : list str) : list str :=
  match lines with
  | [] => []
  | l :: r =>
      let next_line := strip l in
      if stops next_line then [] else next_line :: fragments r
  end.

(** The line written for an orphaned marker and its fragments:
    [f"{level} {' '.join(fragments)}"]. *)
Definition merged (level : str) (frags : list str) : str :=
  level ++ L " " ++ join (L " ") frags.

(** The outer [while i < len(lines)] loop, from [lines[i:]]: the lines it
    appends to [result]. *)
Equations? fix_lines (lines : list str) : list str by wf (length lines) lt :=
  fix_lines [] := [];
  fix_lines (line :: rest) with heading_match line := {
    | Some level with fragments rest := {
        | [] := line :: fix_lines rest
        | f :: fs := merged level (f :: fs)
                       :: fix_lines (skipn (length (f :: fs)) rest) };
    | None := line :: fix_lines rest }.
Proof.
  all: simpl; try lia.
  rewrite length_skipn. lia.
Qed.

Definition fix_heading_linebreaks (markdown : str) : str :=
  join [nl] (fix_lines (split_nl markdown)).

Example orphaned_heading :
  fix_heading_linebreaks (L "#
Complete
Guide
to

Body text.") = L "# Complete Guide to

Body text.".
Proof. reflexivity. Qed.

(** *** Lines and their joining *)

Lemma split_nl_not_nil (s : str) : split_nl s <> [].
Proof.
  induction s as [|c r IH]; simpl; [discriminate|].
  destruct (eqc c nl); [discriminate|].
  destruct (split_nl r); discriminate.
Qed.

Lemma split_nl_no_nl (s : str) : Forall no_nl (split_nl s).
Proof.
  induction s as [|c r IH]; simpl.
  - repeat constructor.
  - destruct (eqc c nl) eqn:E.
    + constructor; [constructor | exact IH].
    + destruct (split_nl r) as [|l ls]; [repeat constructor|].
      * intros ->. unfold eqc in E. rewrite Ascii.eqb_refl in E. discriminate.
      * inversion IH; subst. constructor; [|assumption].
        constructor; [|assumption].
        intros ->. unfold eqc in E. rewrite Ascii.eqb_refl in E. discriminate.
Qed.

Lemma split_nl_line (p : str) : no_nl p -> split_nl p = [p].
Proof.
  induction 1 as [|c r Hc Hr IH]; simpl; [reflexivity|].
  destruct (eqc c nl) eqn:E.
  - apply Ascii.eqb_eq in E. contradiction.
  - rewrite IH. reflexivity.
Qed.

Lemma split_nl_app (p s : str) :
  no_nl p -> split_nl (p ++ nl :: s) = p :: split_nl s.
Proof.
  induction 1 as [|c r Hc Hr IH]; simpl.
  - reflexivity.
  - destruct (eqc c nl) eqn:E.
    + apply Ascii.eqb_eq in E. contradiction.
    + rewrite IH. reflexivity.
Qed.

Lemma split_join (ls : list str) :
  ls <> [] -> Forall no_nl ls -> split_nl (join [nl] ls) = ls.
Proof.
  induction ls as [|p ps IH]; intros Hne Hall; [contradiction|].
  inversion Hall as [|? ? Hp Hps]; subst.
  destruct ps as [|q ps].
  - simpl. apply split_nl_line; assumption.
  - change (join [nl] (p :: q :: ps)) with (p ++ nl :: join [nl] (q :: ps)).
    rewrite split_nl_app by assumption.
    rewrite IH; [reflexivity | discriminate | assumption].
Qed.

Lemma no_nl_app (a b : str) : no_nl a -> no_nl b -> no_nl (a ++ b).
Proof. unfold no_nl. intros. apply Forall_app; split; assumption. Qed.

Lemma no_nl_lstrip (s : str) : no_nl s -> no_nl (lstrip s).
Proof.
  induction 1 as [|c r Hc Hr IH]; simpl; [constructor|].
  destruct (isspace c); [assumption | constructor; assumption].
Qed.

Lemma no_nl_rstrip (s : str) : no_nl s -> no_nl (rstrip s).
Proof.
  induction 1 as [|c r Hc Hr IH]; simpl; [constructor|].
  destruct (rstrip r) eqn:E.
  - destruct (isspace c); repeat constructor; assumption.
  - constructor; assumption.
Qed.

Lemma no_nl_strip (s : str) : no_nl s -> no_nl (strip s).
Proof. intros. apply no_nl_rstrip, no_nl_lstrip. assumption. Qed.

Lemma no_nl_join_space (ls : list str) :
  Forall no_nl ls -> no_nl (join (L " ") ls).
Proof.
  induction 1 as [|p ps Hp Hps IH]; [constructor|].
  destruct ps as [|q ps]; [exact Hp|].
  change (join (L " ") (p :: q :: ps)) with (p ++ L " " ++ join (L " ") (q :: ps)).
  apply no_nl_app; [assumption|].
  apply no_nl_app; [|assumption].
  repeat constructor. discriminate.
Qed.

(** *** The marker pattern and the fragment scan *)

Lemma take_while_all (p : ascii -> bool) (s : str) :
  Forall (fun c => p c = true) (take_while p s).
Proof.
  induction s as [|c r IH]; simpl; [constructor|].
  destruct (p c) eqn:E; constructor; assumption.
Qed.

Lemma heading_match_level (line level : str) :
  heading_match line = Some level ->
  exists rest, level = "#"%char :: rest /\ Forall (fun c => c = "#"%char) rest
               /\ line = level ++ drop_while is_hash line.
Proof.
  unfold heading_match. intros H.
  destruct (_ && _) eqn:E in H; [|discriminate].
  injection H as <-.
  pose proof (take_while_all is_hash line) as Hall.
  assert (Hline : line = take_while is_hash line ++ drop_while is_hash line).
  { clear. induction line as [|c r IH]; simpl; [reflexivity|].
    destruct (is_hash c); simpl; [f_equal; exact IH | reflexivity]. }
  destruct (take_while is_hash line) as [|c rest] eqn:Et.
  - simpl in E. discriminate.
  - inversion Hall as [|? ? Hc Hrest]; subst.
    apply Ascii.eqb_eq in Hc. subst c.
    exists rest. split; [reflexivity|]. split; [|exact Hline].
    eapply Forall_impl; [exact Hrest|].
    intros a Ha. apply Ascii.eqb_eq in Ha. congruence.
Qed.

Lemma no_nl_level (line level : str) :
  heading_match line = Some level -> no_nl level.
Proof.
  intros H. destruct (heading_match_level _ _ H) as (rest & -> & Hr & _).
  constructor; [discriminate|].
  eapply Forall_impl; [exact Hr|]. intros a ->. discriminate.
Qed.

Lemma rstrip_keeps_head (c : ascii) (s : str) :
  isspace c = false -> exists s', rstrip (c :: s) = c :: s'.
Proof.
  intros Hc. simpl. rewrite Hc.
  destruct (rstrip s); eexists; reflexivity.
Qed.

Lemma strip_keeps_head (c : ascii) (s : str) :
  isspace c = false -> exists s', strip (c :: s) = c :: s'.
Proof.
  intros Hc. unfold strip. simpl lstrip. rewrite Hc.
  apply rstrip_keeps_head. assumption.
Qed.

(** A non-empty stripped line starts with a character that is not
    whitespace. *)
Lemma strip_head_not_space (l : str) (c : ascii) (s : str) :
  strip l = c :: s -> isspace c = false.
Proof.
  unfold strip.
  assert (Hl : forall c s, lstrip l = c :: s -> isspace c = false).
  { induction l as [|a r IH]; simpl; [discriminate|].
    destruct (isspace a) eqn:Ea; [exact IH|].
    intros c' s' [= <- <-]. exact Ea. }
  destruct (lstrip l) as [|a r] eqn:El; simpl; [discriminate|].
  specialize (Hl a r eq_refl).
  rewrite Hl. destruct (rstrip r); intros [= <- <-]; exact Hl.
Qed.

(** A line that starts with a hash ends the fragment scan. *)
Lemma stops_hash (s : str) : stops ("#"%char :: s) = true.
Proof. unfold stops. cbn. reflexivity. Qed.

Lemma fragments_hash_head (s : str) (r : list str) :
  fragments (("#"%char :: s) :: r) = [].
Proof.
  simpl. destruct (strip_keeps_head "#"%char s eq_refl) as [s' ->].
  rewrite stops_hash. reflexivity.
Qed.

Lemma drop_hashes (rest tl : str) :
  Forall (fun c => c = "#"%char) rest ->
  drop_while is_hash (rest ++ " "%char :: tl) = " "%char :: tl.
Proof.
  induction 1 as [|a q -> Hq IH]; simpl; [reflexivity | exact IH].
Qed.

(** The line written for a marker and its fragments is no marker. *)
Lemma heading_match_merged (line level f : str) (fs r : list str) :
  heading_match line = Some level ->
  fragments r = f :: fs ->
  heading_match (merged level (f :: fs)) = None.
Proof.
  intros Hm Hf.
  destruct (heading_match_level _ _ Hm) as (rest & -> & Hr & _).
  assert (Hfc : exists c f', f = c :: f' /\ isspace c = false /\ is_hash c = false).
  { destruct r as [|l r']; simpl in Hf; [discriminate|].
    destruct (stops (strip l)) eqn:Es; [discriminate|].
    injection Hf as Hf _.
    destruct f as [|c f'].
    - rewrite Hf in Es. discriminate.
    - exists c, f'. split; [reflexivity|].
      split; [eapply strip_head_not_space; eassumption|].
      rewrite Hf in Es. unfold stops in Es.
      destruct (is_hash c) eqn:Eh; [|reflexivity].
      apply Ascii.eqb_eq in Eh. subst c. discriminate. }
  destruct Hfc as (c & f' & -> & Hsp & Hh).
  unfold heading_match, merged.
  change (("#"%char :: rest) ++ L " " ++ join (L " ") ((c :: f') :: fs))
    with ("#"%char :: (rest ++ " "%char :: join (L " ") ((c :: f') :: fs))).
  cbn [drop_while is_hash eqc Ascii.eqb]. simpl Bool.eqb.
  rewrite drop_hashes by assumption.
  assert (Hj : exists tl, join (L " ") ((c :: f') :: fs) = c :: tl).
  { destruct fs; simpl; eexists; reflexivity. }
  destruct Hj as [tl ->].
  cbn [forallb]. rewrite Hsp.
  cbn [andb]. rewrite !andb_false_r. reflexivity.
Qed.

(** *** The outer loop, unfolded once *)

Lemma fix_lines_cons (line : str) (rest : list str) :
  fix_lines (line :: rest) =
  match heading_match line with
  | Some level =>
      match fragments rest with
      | [] => line :: fix_lines rest
      | f :: fs => merged level (f :: fs)
                     :: fix_lines (skipn (length (f :: fs)) rest)
      end
  | None => line :: fix_lines rest
  end.
Proof.
  simp fix_lines.
  destruct (heading_match line); simpl; [|reflexivity].
  destruct (fragments rest); reflexivity.
Qed.

Lemma fix_lines_not_nil (lines : list str) : lines <> [] -> fix_lines lines <> [].
Proof.
  destruct lines as [|l r]; [contradiction|]. intros _.
  rewrite fix_lines_cons.
  destruct (heading_match l); [destruct (fragments r)|]; discriminate.
Qed.

Lemma fragments_no_nl (lines : list str) :
  Forall no_nl lines -> Forall no_nl (fragments lines).
Proof.
  induction 1 as [|l r Hl Hr IH]; simpl; [constructor|].
  destruct (stops (strip l)); [constructor|].
  constructor; [apply no_nl_strip; assumption | assumption].
Qed.

Lemma fix_lines_no_nl (lines : list str) :
  Forall no_nl lines -> Forall no_nl (fix_lines lines).
Proof.
  remember (length lines) as n eqn:Hn.
  revert lines Hn. induction n as [n IH] using lt_wf_ind. intros lines Hn Hall.
  destruct lines as [|l r]; [simp fix_lines; constructor|].
  inversion Hall as [|? ? Hl Hr]; subst.
  rewrite fix_lines_cons.
  destruct (heading_match l) as [level|] eqn:Hm.
  - destruct (fragments r) as [|f fs] eqn:Hf.
    + constructor; [assumption|].
      eapply IH; [|reflexivity|assumption]. simpl. lia.
    + constructor.
      * apply no_nl_app; [eapply no_nl_level; eassumption|].
        apply no_nl_app; [repeat constructor; discriminate|].
        apply no_nl_join_space. rewrite <- Hf.
        apply fragments_no_nl. assumption.
      * eapply IH; [|reflexivity|].
        -- rewrite length_skipn. simpl. lia.
        -- apply Forall_drop. assumption.
  - constructor; [assumption|].
    eapply IH; [|reflexivity|assumption]. simpl. lia.
Qed.

(** If the scan finds no fragment in [rest], it finds none in the
    repaired [rest] either: its first line is the same one, or a repaired
    heading. *)
Lemma fragments_fix_lines (rest : list str) :
  fragments rest = [] -> fragments (fix_lines rest) = [].
Proof.
  destruct rest as [|l r]; [simp fix_lines; reflexivity|].
  intros Hf. rewrite fix_lines_cons.
  destruct (heading_match l) as [level|] eqn:Hm.
  - destruct (fragments r) as [|f fs].
    + simpl in Hf |- *. destruct (stops (strip l)); [reflexivity|discriminate].
    + destruct (heading_match_level _ _ Hm) as (h & -> & _ & _).
      apply fragments_hash_head.
  - simpl in Hf |- *. destruct (stops (strip l)); [reflexivity|discriminate].
Qed.

Lemma fix_lines_idem (lines : list str) :
  fix_lines (fix_lines lines) = fix_lines lines.
Proof.
  remember (length lines) as n eqn:Hn.
  revert lines Hn. induction n as [n IH] using lt_wf_ind. intros lines Hn.
  destruct lines as [|l r]; [simp fix_lines; reflexivity|].
  subst n. rewrite (fix_lines_cons l r).
  destruct (heading_match l) as [level|] eqn:Hm.
  - destruct (fragments r) as [|f fs] eqn:Hf.
    + rewrite fix_lines_cons, Hm, (fragments_fix_lines r Hf).
      f_equal. eapply IH; [|reflexivity]. simpl. lia.
    + rewrite fix_lines_cons, (heading_match_merged l level f fs r Hm Hf).
      f_equal. eapply IH; [|reflexivity].
      rewrite length_skipn. simpl. lia.
  - rewrite fix_lines_cons, Hm.
    f_equal. eapply IH; [|reflexivity]. simpl. lia.
Qed.

(** C8. The heading repair pass is idempotent: running
    [fix_heading_linebreaks] on its own output changes nothing, for every
    markdown text. *)
Theorem fix_heading_linebreaks_idempotent (x : str) :
  fix_heading_linebreaks (fix_heading_linebreaks x) = fix_heading_linebreaks x.
Proof.
  unfold fix_heading_linebreaks.
  rewrite split_join.
  - rewrite fix_lines_idem. reflexivity.
  - apply fix_lines_not_nil, split_nl_not_nil.
  - apply fix_lines_no_nl, split_nl_no_nl.
Qed.

End Postprocess.

(** ** Python's [sorted] *)

Module PySort.

(** [sorted] is stable. [before y x] tells that [y] has to come strictly
    before [x]: for [sorted(l, key=k)] it is [k y < k x], and for
    [sorted(l, key=k, reverse=True)] it is [k x < k y]; elements that
    neither precedes keep the order of the input, in both directions. *)
Fixpoint insert {A : Type} (before : A -> A -> bool) (x : A) (l : list A) : list A :=
  match l with
  | [] => [x]
  | y :: l' => if before y x then y :: insert before x l' else x :: l
  end.

Definition sorted {A : Type} (before : A -> A -> bool) (l : list A) : list A :=
  fold_right (insert before) [] l.

Section SortFacts.

Context {A : Type} (before : A -> A -> bool).

Lemma insert_perm (x : A) (l : list A) : Permutation (insert before x l) (x :: l).
Proof.
  induction l as [|y l IH]; simpl; [reflexivity|].
  destruct (before y x); [|reflexivity].
  rewrite IH. apply perm_swap.
Qed.

Lemma sorted_perm (l : list A) : Permutation (sorted before l) l.
Proof.
  induction l as [|x l IH]; simpl; [reflexivity|].
  rewrite insert_perm, IH. reflexivity.
Qed.

(** Stability: elements none of which has to precede another one come
    out in the order they came in. *)
Lemma filter_insert (P : A -> Prop) `{!forall a, Decision (P a)} (x : A) (l : list A) :
  (forall a b, P a -> P b -> before a b = false) ->
  filter P (insert before x l) = filter P (x :: l).
Proof.
  intros HP. induction l as [|y l IH]; simpl; [reflexivity|].
  destruct (before y x) eqn:E; [|reflexivity].
  rewrite (filter_cons P y), IH, !(filter_cons P x), (filter_cons P y).
  destruct (decide (P y)) as [Hy|Hy]; [|reflexivity].
  destruct (decide (P x)) as [Hx|Hx]; [|reflexivity].
  rewrite (HP y x Hy Hx) in E. discriminate.
Qed.

Lemma sorted_stable (P : A -> Prop) `{!forall a, Decision (P a)} (l : list A) :
  (forall a b, P a -> P b -> before a b = false) ->
  filter P (sorted before l) = filter P l.
Proof.
  intros HP. induction l as [|x l IH]; simpl; [reflexivity|].
  rewrite filter_insert by exact HP.
  rewrite !(filter_cons P x), IH. reflexivity.
Qed.

(** Order: no element of the output has to precede an earlier one, when
    [before] is asymmetric and its complement transitive. *)
Definition in_order (a b : A) : Prop := before b a = false.

Hypothesis before_asym : forall a b, before a b = true -> before b a = false.
Hypothesis not_before_trans :
  forall a b c, before a b = false -> before b c = false -> before a c = false.

Lemma insert_in_order (x : A) (l : list A) :
  StronglySorted in_order l -> StronglySorted in_order (insert before x l).
Proof.
  induction 1 as [|y l Hl IH Hy]; simpl; [repeat constructor|].
  destruct (before y x) eqn:E.
  - constructor; [exact IH|].
    apply Forall_forall. intros z Hz.
    rewrite insert_perm in Hz. apply elem_of_cons in Hz.
    destruct Hz as [->|Hz].
    + apply before_asym. exact E.
    + rewrite Forall_forall in Hy. apply Hy. exact Hz.
  - constructor; [constructor; assumption|].
    constructor; [exact E|].
    eapply Forall_impl; [exact Hy|].
    intros z Hz. unfold in_order in *.
    apply (not_before_trans z y x); assumption.
Qed.

Lemma sorted_in_order (l : list A) : StronglySorted in_order (sorted before l).
Proof.
  induction l as [|x l IH]; simpl; [constructor|].
  apply insert_in_order. exact IH.
Qed.

End SortFacts.

End PySort.

(** ** Python's order on strings and tuples *)

Module PyOrder.

(** What a three-way comparison has to satisfy to be a total order. *)
Class CompareLaws {A : Type} (cmp : A -> A -> comparison) : Prop := {
  cmp_eq : forall a b, cmp a b = Eq <-> a = b;
  cmp_antisym : forall a b, cmp b a = CompOpp (cmp a b);
  cmp_trans : forall a b c, cmp a b = Lt -> cmp b c = Lt -> cmp a c = Lt
}.

(** The order of two characters is the one of their codes. *)
Definition char_compare (a b : ascii) : comparison :=
  Nat.compare (nat_of_ascii a) (nat_of_ascii b).

(** The order of sequences: by the first position that differs, a proper
    prefix coming first. *)
Fixpoint lex_list {A : Type} (cmp : A -> A -> comparison) (a b : list A) : comparison :=
  match a, b with
  | [], [] => Eq
  | [], _ :: _ => Lt
  | _ :: _, [] => Gt
  | x :: a', y :: b' =>
      match cmp x y with
      | Eq => lex_list cmp a' b'
      | c => c
      end
  end.

(** The order of pairs. *)
Definition lex_pair {A B : Type} (cmpA : A -> A -> comparison)
    (cmpB : B -> B -> comparison) (p q : A * B) : comparison :=
  match cmpA (fst p) (fst q) with
  | Eq => cmpB (snd p) (snd q)
  | c => c
  end.

Definition str_compare : str -> str -> comparison := lex_list char_compare.

(** [a < b] *)
Definition lt {A : Type} (cmp : A -> A -> comparison) (a b : A) : bool :=
  match cmp a b with Lt => true | _ => false end.

#[export] Instance char_compare_laws : CompareLaws char_compare.
Proof.
  unfold char_compare. split.
  - intros a b. rewrite Nat.compare_eq_iff. split; [|congruence].
    intros H. rewrite <- (ascii_nat_embedding a), <- (ascii_nat_embedding b), H.
    reflexivity.
  - intros a b. apply Nat.compare_antisym.
  - intros a b c. rewrite !Nat.compare_lt_iff. lia.
Qed.

#[export] Instance lex_list_laws {A : Type} (cmp : A -> A -> comparison)
  `{!CompareLaws cmp} : CompareLaws (lex_list cmp).
Proof.
  split.
  - induction a as [|x a IH]; destruct b as [|y b]; simpl;
      try (split; [discriminate|discriminate]); [split; reflexivity|].
    destruct (cmp x y) eqn:E.
    + apply cmp_eq in E. subst y. rewrite IH. split; congruence.
    + split; [discriminate|]. intros [= -> _].
      assert (cmp y y = Eq) by (apply cmp_eq; reflexivity). congruence.
    + split; [discriminate|]. intros [= -> _].
      assert (cmp y y = Eq) by (apply cmp_eq; reflexivity). congruence.
  - induction a as [|x a IH]; destruct b as [|y b]; simpl; try reflexivity.
    rewrite (cmp_antisym x y). destruct (cmp x y); simpl; [apply IH| |]; reflexivity.
  - induction a as [|x a IH]; destruct b as [|y b]; destruct c as [|z c]; simpl;
      try discriminate; try reflexivity.
    destruct (cmp x y) eqn:Exy; try discriminate.
    + apply cmp_eq in Exy. subst y.
      destruct (cmp x z); [apply IH | reflexivity | discriminate].
    + intros _. destruct (cmp y z) eqn:Eyz; try discriminate.
      * apply cmp_eq in Eyz. subst z. rewrite Exy. reflexivity.
      * rewrite (cmp_trans x y z Exy Eyz). reflexivity.
Qed.

#[export] Instance lex_pair_laws {A B : Type} (cmpA : A -> A -> comparison)
  (cmpB : B -> B -> comparison) `{!CompareLaws cmpA} `{!CompareLaws cmpB} :
  CompareLaws (lex_pair cmpA cmpB).
Proof.
  unfold lex_pair. split.
  - intros [a1 a2] [b1 b2]. simpl. destruct (cmpA a1 b1) eqn:E.
    + apply cmp_eq in E. subst b1. rewrite cmp_eq. split; congruence.
    + split; [discriminate|]. intros [= -> _].
      assert (cmpA b1 b1 = Eq) by (apply cmp_eq; reflexivity). congruence.
    + split; [discriminate|]. intros [= -> _].
      assert (cmpA b1 b1 = Eq) by (apply cmp_eq; reflexivity). congruence.
  - intros [a1 a2] [b1 b2]. simpl. rewrite (cmp_antisym a1 b1).
    destruct (cmpA a1 b1); simpl; [apply cmp_antisym| |]; reflexivity.
  - intros [a1 a2] [b1 b2] [c1 c2]. simpl.
    destruct (cmpA a1 b1) eqn:Eab; try discriminate.
    + apply cmp_eq in Eab. subst b1.
      destruct (cmpA a1 c1); [apply cmp_trans | reflexivity | discriminate].
    + intros _. destruct (cmpA b1 c1) eqn:Ebc; try discriminate.
      * apply cmp_eq in Ebc. subst c1. rewrite Eab. reflexivity.
      * rewrite (cmp_trans a1 b1 c1 Eab Ebc). reflexivity.
Qed.

Section Laws.

Context {A : Type} (cmp : A -> A -> comparison) `{!CompareLaws cmp}.

Lemma cmp_refl (a : A) : cmp a a = Eq.
Proof. apply cmp_eq. reflexivity. Qed.

Lemma lt_asym (a b : A) : lt cmp a b = true -> lt cmp b a = false.
Proof.
  unfold lt. rewrite (cmp_antisym a b). destruct (cmp a b); simpl; congruence.
Qed.

Lemma not_lt_trans (a b c : A) :
  lt cmp a b = false -> lt cmp b c = false -> lt cmp a c = false.
Proof.
  unfold lt. intros Hab Hbc.
  destruct (cmp a c) eqn:Eac; try reflexivity. exfalso.
  destruct (cmp a b) eqn:Eab; try discriminate.
  - apply cmp_eq in Eab. subst b. rewrite Eac in Hbc. discriminate.
  - destruct (cmp b c) eqn:Ebc; try discriminate.
    + apply cmp_eq in Ebc. subst c. congruence.
    + assert (Hca : cmp c a = Gt) by (rewrite (cmp_antisym a c), Eac; reflexivity).
      assert (Hcb : cmp c b = Lt) by (rewrite (cmp_antisym b c), Ebc; reflexivity).
      assert (Hba : cmp b a = Lt) by (rewrite (cmp_antisym a b), Eab; reflexivity).
      rewrite (cmp_trans c b a Hcb Hba) in Hca. discriminate.
Qed.

End Laws.

End PyOrder.

(** ** The citation engine *)

Module Citations.

(** What [re.sub] sees, from left to right: a character outside every
    match, or a match of the link pattern with its groups 1 and 2. *)
Inductive piece : Type :=
| Lit (c : ascii)
| Link (text url : str).

Definition not_char (x : ascii) (c : ascii) : bool := negb (eqc c x).

(** The link pattern of [add_citations] tried at the start of [s]: not
    after an exclamation mark, an opening bracket, group 1 (any characters
    but the closing bracket, possibly none), a closing bracket, an opening
    parenthesis, group 2 (one or more characters but the closing
    parenthesis), a closing parenthesis. [prev] is the character just
    before [s]. Group 1 can only end at the
    first closing bracket and group 2 at the first closing parenthesis,
    the classes exclude both characters, so the match is unique when
    there is one. *)
Definition match_link (prev : option ascii) (s : str) : option (str * str) :=
  if match prev with Some c => eqc c "!"%char | None => false end then None
  else
    match s with
    | c :: s1 =>
        if eqc c "["%char then
          let text := take_while (not_char "]"%char) s1 in
          match drop_while (not_char "]"%char) s1 with
          | c1 :: c2 :: s2 =>
              if eqc c1 "]"%char && eqc c2 "("%char then
                let url := take_while (not_char ")"%char) s2 in
                match url, drop_while (not_char ")"%char) s2 with
                | _ :: _, _ :: _ => Some (text, url)
                | _, _ => None
                end
              else None
          | _ => None
          end
        else None
    | [] => None
    end.

(** [match.group(0)] *)
Definition group0 (text url : str) : str :=
  L "[" ++ text ++ L "](" ++ url ++ L ")".

(** The scan of [re.sub]: at a match, go on after its end; otherwise keep
    the character and go on one further. *)
Equations? scan (prev : option ascii) (s : str) : list piece by wf (length s) lt :=
  scan prev [] := [];
  scan prev (c :: r) with match_link prev (c :: r) := {
    | Some (text, url) :=
        Link text url
          :: scan (Some ")"%char) (skipn (length text + length url + 3) r)
    | None := Lit c :: scan (Some c) r }.
Proof.
  all: simpl; try lia.
  rewrite length_skipn. lia.
Qed.

(** The variables [urls] (a dict, in insertion order) and [counter] that
    the callback shares with [add_citations]. *)
Record cite_state : Type := CiteState {
  urls : list (str * nat);
  counter : nat
}.

Definition init : cite_state := CiteState [] 0.

Fixpoint lookup (url : str) (d : list (str * nat)) : option nat :=
  match d with
  | [] => None
  | (k, v) :: d' => if decide (k = url) then Some v else lookup url d'
  end.

(** [replace_link], for the matches of the pattern. *)
Definition replace_link (text url : str) (st : cite_state) : str * cite_state :=
  if startswith url (L "#") then (group0 text url, st)
  else
    let st' :=
      match lookup url (urls st) with
      | None => CiteState (urls st ++ [(url, counter st + 1)]) (counter st + 1)
      | Some _ => st
      end in
    let ref_num := default 0 (lookup url (urls st')) in
    if truthy (strip text)
    then (text ++ L " [" ++ str_of_nat ref_num ++ L "]", st')
    else (L "[" ++ str_of_nat ref_num ++ L "]", st').

(** [re.sub(pattern, replace_link, markdown)], the callback called on the
    matches from left to right. *)
Fixpoint sub_pieces (ps : list piece) (st : cite_state) : str * cite_state :=
  match ps with
  | [] => ([], st)
  | Lit c :: ps' =>
      let '(out, st') := sub_pieces ps' st in (c :: out, st')
  | Link text url :: ps' =>
      let '(rep, st1) := replace_link text url st in
      let '(out, st2) := sub_pieces ps' st1 in
      (rep ++ out, st2)
  end.

Definition ref_line (entry : str * nat) : str :=
  L "[" ++ str_of_nat (snd entry) ++ L "] " ++ fst entry.

Definition by_number (a b : str * nat) : bool := snd a <? snd b.

Definition add_citations (markdown : str) : str * str :=
  if negb (truthy markdown) then ([], [])
  else
    let '(cited, st) := sub_pieces (scan None markdown) init in
    match urls st with
    | [] => (markdown, [])
    | _ =>
        let lines :=
          [L ""; L "## References"; L ""]
            ++ map ref_line (PySort.sorted by_number (urls st)) in
        (cited, join [nl] lines)
    end.

Example citation_scenario :
  add_citations (L "[x](https://a.com) then [y](https://b.com) then [z](https://a.com)")
  = (L "x [1] then y [2] then z [1]",
     L "
## References

[1] https://a.com
[2] https://b.com").
Proof. reflexivity. Qed.

Example image_links_not_cited :
  fst (add_citations (L "![Alt text](https://img.com/photo.jpg)
[Link](https://example.com)"))
  = L "![Alt text](https://img.com/photo.jpg)
Link [1]".
Proof. reflexivity. Qed.

Example anchor_links_preserved :
  add_citations (L "Jump to [section](#heading) for details.")
  = (L "Jump to [section](#heading) for details.", []).
Proof. reflexivity. Qed.

(** The pattern reads the start of a linked image as a link to the image. *)
Example linked_image :
  add_citations (L "[![alt](https://x/i.png)](https://x/page)")
  = (L "![alt [1]](https://x/page)",
     L "
## References

[1] https://x/i.png").
Proof. reflexivity. Qed.

Example empty_link_text :
  fst (add_citations (L "Click [](https://example.com) here."))
  = L "Click [1] here.".
Proof. reflexivity. Qed.

(** *** The numbering, stated without the callback's state *)

(** The targets that get a number, in the order of the text: those of the
    matches whose target is no fragment of the same document. *)
Fixpoint targets (ps : list piece) : list str :=
  match ps with
  | [] => []
  | Lit _ :: ps' => targets ps'
  | Link _ url :: ps' =>
      if startswith url (L "#") then targets ps' else url :: targets ps'
  end.

(** The distinct elements of a list, each at its first occurrence. *)
Fixpoint first_seen (l : list str) : list str :=
  match l with
  | [] => []
  | u :: r => u :: filter (fun v => v <> u) (first_seen r)
  end.

(** [keys] numbered [n], [n+1], ... *)
Fixpoint number_from (n : nat) (keys : list str) : list (str * nat) :=
  match keys with
  | [] => []
  | k :: r => (k, n) :: number_from (S n) r
  end.

(** The text a piece is replaced with, when the targets [keys] have the
    numbers 1, 2, ... in this order. *)
Definition render (keys : list str) (p : piece) : str :=
  match p with
  | Lit c => [c]
  | Link text url =>
      if startswith url (L "#") then group0 text url
      else
        let ref_num := default 0 (lookup url (number_from 1 keys)) in
        if truthy (strip text)
        then text ++ L " [" ++ str_of_nat ref_num ++ L "]"
        else L "[" ++ str_of_nat ref_num ++ L "]"
  end.

(** The text a piece was read from. *)
Definition raw (p : piece) : str :=
  match p with
  | Lit c => [c]
  | Link text url => group0 text url
  end.

Definition references_block (keys : list str) : str :=
  join [nl] ([L ""; L "## References"; L ""] ++ map ref_line (number_from 1 keys)).

(** *** The scan *)

Lemma scan_cons (prev : option ascii) (c : ascii) (r : str) :
  scan prev (c :: r) =
  match match_link prev (c :: r) with
  | Some (text, url) =>
      Link text url
        :: scan (Some ")"%char) (skipn (length text + length url + 3) r)
  | None => Lit c :: scan (Some c) r
  end.
Proof.
  simp scan. destruct (match_link prev (c :: r)) as [[t u]|]; reflexivity.
Qed.

Lemma take_drop_while (p : ascii -> bool) (s : str) :
  s = take_while p s ++ drop_while p s.
Proof.
  induction s as [|c r IH]; simpl; [reflexivity|].
  destruct (p c); simpl; [f_equal; exact IH | reflexivity].
Qed.

Lemma drop_while_head (p : ascii -> bool) (s : str) (c : ascii) (r : str) :
  drop_while p s = c :: r -> p c = false.
Proof.
  induction s as [|a q IH]; simpl; [discriminate|].
  destruct (p a) eqn:E; [exact IH|]. intros [= <- <-]. exact E.
Qed.

(** A match is a prefix of the text it was found in, and the scan goes on
    right after it. *)
Lemma match_link_sound (prev : option ascii) (c : ascii) (r : str) (text url : str) :
  match_link prev (c :: r) = Some (text, url) ->
  c :: r = group0 text url ++ skipn (length text + length url + 3) r.
Proof.
  unfold match_link.
  destruct (match prev with Some _ => _ | None => _ end); [discriminate|].
  destruct (eqc c "["%char) eqn:Ec; [|discriminate].
  apply Ascii.eqb_eq in Ec. subst c.
  pose proof (take_drop_while (not_char "]"%char) r) as Hr.
  remember (take_while (not_char "]"%char) r) as t eqn:Et.
  destruct (drop_while (not_char "]"%char) r) as [|c1 [|c2 s2]] eqn:Ed;
    [discriminate | discriminate |].
  destruct (eqc c1 "]"%char && eqc c2 "("%char) eqn:E12; [|discriminate].
  apply andb_prop in E12. destruct E12 as [E1 E2].
  apply Ascii.eqb_eq in E1, E2. subst c1 c2.
  pose proof (take_drop_while (not_char ")"%char) s2) as Hs.
  destruct (take_while (not_char ")"%char) s2) as [|u0 u] eqn:Eu; [discriminate|].
  destruct (drop_while (not_char ")"%char) s2) as [|c3 s3] eqn:Ed2; [discriminate|].
  intros [= <- <-].
  pose proof (drop_while_head _ _ _ _ Ed2) as Hc3.
  unfold not_char in Hc3. apply negb_false_iff, Ascii.eqb_eq in Hc3. subst c3.
  clear Et Ed Ed2 Eu. subst s2. subst r.
  assert (Hsplit : t ++ "]"%char :: "("%char :: (u0 :: u) ++ ")"%char :: s3
                   = (t ++ L "](" ++ (u0 :: u) ++ L ")") ++ s3).
  { rewrite <- !app_assoc. reflexivity. }
  rewrite Hsplit.
  replace (length t + length (u0 :: u) + 3)
    with (length (t ++ L "](" ++ (u0 :: u) ++ L ")")).
  2:{ rewrite !length_app. cbn [L list_ascii_of_string length]. lia. }
  rewrite drop_app_length.
  unfold group0. rewrite <- !app_assoc. reflexivity.
Qed.

Lemma scan_raw (s : str) (prev : option ascii) :
  concat (map raw (scan prev s)) = s.
Proof.
  remember (length s) as n eqn:Hn.
  revert s prev Hn. induction n as [n IH] using lt_wf_ind. intros s prev ->.
  destruct s as [|c r]; [simp scan; reflexivity|].
  rewrite scan_cons.
  destruct (match_link prev (c :: r)) as [[t u]|] eqn:Hm.
  - cbn [map concat raw].
    rewrite (IH (length (skipn (length t + length u + 3) r))); [| |reflexivity].
    + symmetry. apply match_link_sound with (prev := prev). exact Hm.
    + rewrite length_skipn. simpl. lia.
  - cbn [map concat raw]. simpl. f_equal.
    apply (IH (length r)); [simpl; lia | reflexivity].
Qed.

(** *** The dict and the numbering *)

Lemma lookup_app_l (u : str) (d d' : list (str * nat)) (v : nat) :
  lookup u d = Some v -> lookup u (d ++ d') = Some v.
Proof.
  induction d as [|[k w] d IH]; simpl; [discriminate|].
  destruct (decide (k = u)); [trivial | exact IH].
Qed.

Lemma lookup_app_r (u : str) (d d' : list (str * nat)) :
  lookup u d = None -> lookup u (d ++ d') = lookup u d'.
Proof.
  induction d as [|[k w] d IH]; simpl; [trivial|].
  destruct (decide (k = u)); [discriminate | exact IH].
Qed.

Lemma lookup_number_from_None (u : str) (keys : list str) (n : nat) :
  lookup u (number_from n keys) = None <-> u ∉ keys.
Proof.
  revert n. induction keys as [|k r IH]; intros n; simpl.
  - split; [intros _; apply not_elem_of_nil | trivial].
  - rewrite not_elem_of_cons. destruct (decide (k = u)) as [->|Hne].
    + split; [discriminate | intros [Hu _]; contradiction].
    + rewrite IH. split; [intros H; split; [congruence | exact H] | intros [_ H]; exact H].
Qed.

Lemma number_from_app (n : nat) (a b : list str) :
  number_from n (a ++ b) = number_from n a ++ number_from (n + length a) b.
Proof.
  revert n. induction a as [|k r IH]; intros n; simpl.
  - rewrite Nat.add_0_r. reflexivity.
  - rewrite IH. do 3 f_equal. lia.
Qed.

Lemma number_from_fst (n : nat) (keys : list str) :
  map fst (number_from n keys) = keys.
Proof.
  revert n. induction keys as [|k r IH]; intros n; simpl; [reflexivity|].
  rewrite IH. reflexivity.
Qed.

Lemma number_from_snd (n : nat) (keys : list str) :
  map snd (number_from n keys) = seq n (length keys).
Proof.
  revert n. induction keys as [|k r IH]; intros n; simpl; [reflexivity|].
  rewrite IH. reflexivity.
Qed.

(** The entries are already in the order of their numbers. *)
Lemma sorted_number_from (n : nat) (keys : list str) :
  PySort.sorted by_number (number_from n keys) = number_from n keys.
Proof.
  revert n. induction keys as [|k r IH]; intros n; [reflexivity|].
  change (PySort.sorted by_number (number_from n (k :: r)))
    with (PySort.insert by_number (k, n) (PySort.sorted by_number (number_from (S n) r))).
  rewrite IH. destruct r as [|k' r']; [reflexivity|].
  simpl. unfold by_number. simpl.
  destruct (Nat.ltb_spec (S n) n); [lia | reflexivity].
Qed.

Lemma first_seen_elem (u : str) (l : list str) : u ∈ first_seen l <-> u ∈ l.
Proof.
  induction l as [|a r IH]; simpl; [reflexivity|].
  rewrite !elem_of_cons, list_elem_of_filter, IH.
  destruct (decide (u = a)); intuition congruence.
Qed.

Lemma first_seen_NoDup (l : list str) : NoDup (first_seen l).
Proof.
  induction l as [|a r IH]; simpl; [constructor|].
  constructor.
  - rewrite list_elem_of_filter. intros [H _]. apply H. reflexivity.
  - apply NoDup_filter. exact IH.
Qed.

(** The new keys that [l] adds to the keys [K]. *)
Definition fresh_keys (K l : list str) : list str :=
  filter (fun v => v ∉ K) (first_seen l).

Lemma fresh_keys_nil (l : list str) : fresh_keys [] l = first_seen l.
Proof.
  unfold fresh_keys. induction (first_seen l) as [|a r IH]; [reflexivity|].
  rewrite filter_cons_True by apply not_elem_of_nil. rewrite IH. reflexivity.
Qed.

Lemma fresh_keys_known (K l : list str) (u : str) :
  u ∈ K -> fresh_keys K (u :: l) = fresh_keys K l.
Proof.
  intros Hu. unfold fresh_keys. simpl.
  rewrite filter_cons_False by (intros H; apply H; exact Hu).
  rewrite list_filter_filter. apply list_filter_iff.
  intros x. split; [intros [H _]; exact H|].
  intros H. split; [exact H|]. intros ->. contradiction.
Qed.

Lemma fresh_keys_new (K l : list str) (u : str) :
  u ∉ K -> fresh_keys K (u :: l) = u :: fresh_keys (K ++ [u]) l.
Proof.
  intros Hu. unfold fresh_keys. simpl.
  rewrite filter_cons_True by exact Hu. f_equal.
  rewrite list_filter_filter. apply list_filter_iff.
  intros x. rewrite not_elem_of_app, not_elem_of_cons.
  pose proof (not_elem_of_nil x). tauto.
Qed.

(** The pass over the pieces, started with the keys [K] numbered from 1,
    ends with the keys [K] followed by the new ones, numbered from 1, and
    writes every piece with its final number. *)
Lemma sub_pieces_spec (ps : list piece) (K : list str) :
  let K' := K ++ fresh_keys K (targets ps) in
  sub_pieces ps (CiteState (number_from 1 K) (length K))
  = (concat (map (render K') ps), CiteState (number_from 1 K') (length K')).
Proof.
  revert K. induction ps as [|[c|text url] ps IH]; intros K; cbn zeta.
  - simpl. unfold fresh_keys. simpl. rewrite app_nil_r. reflexivity.
  - cbn [sub_pieces targets map concat render]. rewrite IH. reflexivity.
  - cbn [sub_pieces targets map concat render]. unfold replace_link.
    destruct (startswith url (L "#")) eqn:Ef.
    + rewrite IH. reflexivity.
    + cbn [urls counter].
      destruct (lookup url (number_from 1 K)) as [v|] eqn:Hl.
      * assert (Hin : url ∈ K).
        { destruct (decide (url ∈ K)) as [|Hn]; [assumption|].
          apply lookup_number_from_None with (n := 1) in Hn. congruence. }
        rewrite (fresh_keys_known K _ url Hin).
        cbn [urls]. rewrite Hl.
        rewrite number_from_app, (lookup_app_l _ _ _ _ Hl).
        rewrite <- number_from_app.
        destruct (truthy (strip text)); cbn beta iota; rewrite IH; reflexivity.
      * assert (Hn : url ∉ K) by (eapply lookup_number_from_None; exact Hl).
        rewrite (fresh_keys_new K _ url Hn).
        set (F := fresh_keys (K ++ [url]) (targets ps)).
        assert (Hc : length K + 1 = length (K ++ [url])).
        { rewrite length_app. reflexivity. }
        assert (Hu : number_from 1 K ++ [(url, length K + 1)]
                     = number_from 1 (K ++ [url])).
        { rewrite number_from_app. simpl.
          replace (length K + 1) with (1 + length K) by lia. reflexivity. }
        assert (Hk : K ++ url :: F = (K ++ [url]) ++ F).
        { rewrite <- app_assoc. reflexivity. }
        assert (Hnum : forall tl, lookup url (number_from 1 (K ++ [url]) ++ tl)
                                  = Some (length (K ++ [url]))).
        { intros tl. apply lookup_app_l. rewrite <- Hu, <- Hc.
          rewrite lookup_app_r by exact Hl. simpl.
          destruct (decide (url = url)); [reflexivity | contradiction]. }
        assert (Hnum1 : lookup url (number_from 1 (K ++ [url]))
                        = Some (length (K ++ [url]))).
        { rewrite <- (app_nil_r (number_from 1 (K ++ [url]))). apply Hnum. }
        assert (Hnum2 : lookup url (number_from 1 ((K ++ [url]) ++ F))
                        = Some (length (K ++ [url]))).
        { rewrite number_from_app. apply Hnum. }
        cbn [urls]. rewrite Hk, !Hu, !Hc, Hnum1, Hnum2.
        destruct (truthy (strip text)); cbn beta iota; rewrite IH; reflexivity.
Qed.

(** [add_citations], with the numbering of the first occurrences. *)
Lemma add_citations_eq (markdown : str) :
  add_citations markdown =
  match first_seen (targets (scan None markdown)) with
  | [] => (markdown, [])
  | keys => (concat (map (render keys) (scan None markdown)), references_block keys)
  end.
Proof.
  unfold add_citations.
  destruct markdown as [|c r]; [simp scan; reflexivity|].
  cbn [truthy negb].
  pose proof (sub_pieces_spec (scan None (c :: r)) []) as H.
  cbn zeta in H. rewrite fresh_keys_nil in H. cbn [app length number_from] in H.
  unfold init. rewrite H. cbn beta iota. cbn [urls].
  destruct (first_seen (targets (scan None (c :: r)))) as [|k ks] eqn:Ek;
    [reflexivity|].
  rewrite sorted_number_from. reflexivity.
Qed.

(** The numbering. For every markdown text, [add_citations] numbers the
    targets of the matches of its pattern that do not start with '#'
    1, 2, 3, ... in the order of their first occurrence, writes every
    occurrence of a target with that one number, and lists each distinct
    target once in the references, in the order of the numbers. Links to
    https://a.com, https://b.com and https://a.com again are marked 1, 2
    and 1, with exactly the two entries in the references. Whether the
    matches of the pattern are the links that are no images is another
    matter: see the image that is a link, below. *)
Theorem add_citations_numbering (markdown : str) :
  let pieces := scan None markdown in
  let keys := first_seen (targets pieces) in
  concat (map raw pieces) = markdown
  /\ NoDup keys
  /\ (forall u, u ∈ keys <-> u ∈ targets pieces)
  /\ snd (sub_pieces pieces init) = CiteState (number_from 1 keys) (length keys)
  /\ map fst (number_from 1 keys) = keys
  /\ map snd (number_from 1 keys) = seq 1 (length keys)
  /\ add_citations markdown =
     match keys with
     | [] => (markdown, [])
     | _ => (concat (map (render keys) pieces),
             join [nl] ([L ""; L "## References"; L ""]
                          ++ map ref_line (number_from 1 keys)))
     end
  /\ add_citations
       (L "[x](https://a.com) then [y](https://b.com) then [z](https://a.com)")
     = (L "x [1] then y [2] then z [1]",
        join [nl] [L ""; L "## References"; L "";
                   L "[1] https://a.com"; L "[2] https://b.com"]).
Proof.
  cbn zeta. repeat split.
  - apply scan_raw.
  - apply first_seen_NoDup.
  - apply first_seen_elem.
  - apply first_seen_elem.
  - pose proof (sub_pieces_spec (scan None markdown) []) as H.
    cbn zeta in H. rewrite fresh_keys_nil in H. cbn [app length number_from] in H.
    unfold init. rewrite H. reflexivity.
  - apply number_from_fst.
  - apply number_from_snd.
  - rewrite add_citations_eq.
    destruct (first_seen (targets (scan None markdown))); reflexivity.
Qed.

(** C3, where the code departs from it. The pattern is meant to match
    links and not images (the code says so where it builds the pattern),
    and it looks for the '!' only before the opening bracket. In an image
    that is itself a link the outer bracket has none before it, so the
    match starts there and runs to the end of the image: its text is the
    start of the image, '!' and '[' and the alternative text, and its
    target is the address of the image. The address of the image is
    numbered and listed in the references, the target of the link is not,
    and the text that is left is an image with the address of the
    link. *)
Theorem add_citations_linked_image :
  scan None (L "[![alt](https://x/i.png)](https://x/page)")
  = Link (L "![alt") (L "https://x/i.png") :: map Lit (L "](https://x/page)")
  /\ targets (scan None (L "[![alt](https://x/i.png)](https://x/page)"))
     = [L "https://x/i.png"]
  /\ add_citations (L "[![alt](https://x/i.png)](https://x/page)")
     = (L "![alt [1]](https://x/page)",
        join [nl] [L ""; L "## References"; L ""; L "[1] https://x/i.png"])
  /\ add_citations (L "[see](https://x/page)")
     = (L "see [1]",
        join [nl] [L ""; L "## References"; L ""; L "[1] https://x/page"])
  /\ add_citations (L "![alt](https://x/i.png)")
     = (L "![alt](https://x/i.png)", []).
Proof. repeat split; vm_compute; reflexivity. Qed.

(** *** Running the engine on its own output *)

(** A link that the run rewrites: its target is no fragment of the same
    document. *)
Definition rewritten (p : piece) : bool :=
  match p with
  | Lit _ => false
  | Link _ url => negb (startswith url (L "#"))
  end.

(** What the run writes for the piece ends with a closing bracket: the
    character itself, or the marker of a rewritten link. *)
Definition ends_bracket (p : piece) : bool :=
  match p with
  | Lit c => eqc c "]"%char
  | Link _ _ => rewritten p
  end.

(** What the run writes for the piece starts with an opening
    parenthesis: the character itself, or the text of a rewritten
    link. *)
Definition starts_paren (p : piece) : bool :=
  match p with
  | Lit c => eqc c "("%char
  | Link text _ => rewritten p && startswith text (L "(")
  end.

(** No rewritten link leaves a closing bracket directly before an opening
    parenthesis: none is directly followed by an opening parenthesis, or
    by a rewritten link whose text starts with one, and none whose text
    starts with one directly follows a closing bracket. *)
Fixpoint quiet (ps : list piece) : bool :=
  match ps with
  | p :: rest =>
      match rest with
      | q :: _ =>
          negb ((rewritten p || rewritten q) && ends_bracket p && starts_paren q)
      | [] => true
      end && quiet rest
  | [] => true
  end.

Definition bang (prev : option ascii) : bool :=
  match prev with Some c => eqc c "!"%char | None => false end.

(** What follows the closing bracket of a link: the target, when there
    is an opening parenthesis, a target that is not empty and a closing
    parenthesis. *)
Definition target (s : str) : option str :=
  match s with
  | c :: s2 =>
      if eqc c "("%char then
        match take_while (not_char ")"%char) s2, drop_while (not_char ")"%char) s2 with
        | _ :: _, _ :: _ => Some (take_while (not_char ")"%char) s2)
        | _, _ => None
        end
      else None
  | [] => None
  end.

Definition no_char (x : ascii) (s : str) : Prop := Forall (fun c => not_char x c = true) s.

Lemma take_while_upto (x : ascii) (t rest : str) :
  no_char x t ->
  take_while (not_char x) (t ++ x :: rest) = t
  /\ drop_while (not_char x) (t ++ x :: rest) = x :: rest.
Proof.
  assert (Hx : not_char x x = false).
  { unfold not_char. apply negb_false_iff. apply Ascii.eqb_refl. }
  induction 1 as [|c t Hc Ht IH]; cbn [app take_while drop_while].
  - rewrite Hx. split; reflexivity.
  - rewrite Hc. destruct IH as [-> ->]. split; reflexivity.
Qed.

Lemma take_while_whole (x : ascii) (t : str) :
  no_char x t ->
  take_while (not_char x) t = t /\ drop_while (not_char x) t = [].
Proof.
  induction 1 as [|c t Hc Ht IH]; cbn [take_while drop_while]; [split; reflexivity|].
  rewrite Hc. destruct IH as [-> ->]. split; reflexivity.
Qed.

(** The pattern at an opening bracket, the text in brackets known. *)
Lemma match_link_text (prev : option ascii) (t rest : str) :
  no_char "]"%char t ->
  match_link prev ("["%char :: t ++ "]"%char :: rest)
  = if bang prev then None
    else match target rest with Some url => Some (t, url) | None => None end.
Proof.
  intros Ht. unfold match_link, bang.
  destruct (match prev with Some c => eqc c "!"%char | None => false end);
    [reflexivity|].
  change (eqc "["%char "["%char) with true. cbn iota.
  destruct (take_while_upto "]"%char t rest Ht) as [-> ->].
  unfold target. destruct rest as [|c2 s2]; [reflexivity|].
  change (eqc "]"%char "]"%char) with true. cbn [andb].
  destruct (eqc c2 "("%char); [|reflexivity].
  destruct (take_while (not_char ")"%char) s2); [reflexivity|].
  destruct (drop_while (not_char ")"%char) s2); reflexivity.
Qed.

(** The pattern needs a closing bracket. *)
Lemma match_link_open (prev : option ascii) (c : ascii) (t : str) :
  no_char "]"%char t -> match_link prev (c :: t) = None.
Proof.
  intros Ht. unfold match_link.
  destruct (match prev with Some _ => _ | None => _ end); [reflexivity|].
  destruct (eqc c "["%char); [|reflexivity].
  destruct (take_while_whole "]"%char t Ht) as [_ ->]. reflexivity.
Qed.

Lemma match_link_other (prev : option ascii) (c : ascii) (s : str) :
  eqc c "["%char = false -> match_link prev (c :: s) = None.
Proof.
  intros Hc. unfold match_link.
  destruct (match prev with Some _ => _ | None => _ end); [reflexivity|].
  rewrite Hc. reflexivity.
Qed.

(** A text starts with its characters up to the first closing bracket. *)
Lemma split_at_bracket (r : str) :
  no_char "]"%char r
  \/ exists t rest, r = t ++ "]"%char :: rest /\ no_char "]"%char t.
Proof.
  induction r as [|c r IH]; [left; constructor|].
  destruct (not_char "]"%char c) eqn:Ec.
  - destruct IH as [IH|(t & rest & -> & Ht)].
    + left. constructor; assumption.
    + right. exists (c :: t), rest. split; [reflexivity | constructor; assumption].
  - right. exists [], r. split; [|constructor].
    unfold not_char in Ec. apply negb_false_iff, Ascii.eqb_eq in Ec. subst c.
    reflexivity.
Qed.

(** Where the pattern matches at none of the places of [t], the scan
    keeps the characters of [t]. *)
Lemma scan_lits (t rest : str) (prev : option ascii) :
  (forall t1 c t2 p, t = t1 ++ c :: t2 -> match_link p (c :: t2 ++ rest) = None) ->
  scan prev (t ++ rest)
  = map Lit t ++ scan (match last t with Some c => Some c | None => prev end) rest.
Proof.
  revert prev. induction t as [|c t IH]; intros prev Hno; [reflexivity|].
  cbn [app map]. rewrite scan_cons, (Hno [] c t prev eq_refl). f_equal.
  rewrite IH.
  - f_equal. f_equal. destruct t as [|d t']; [reflexivity|].
    rewrite last_cons_cons. destruct (last (d :: t')) eqn:El; [reflexivity|].
    apply last_None in El. discriminate.
  - intros t1 d t2 p ->. apply (Hno (c :: t1) d t2 p). reflexivity.
Qed.

Lemma no_char_suffix (x : ascii) (t1 t2 : str) :
  no_char x (t1 ++ t2) -> no_char x t2.
Proof. unfold no_char. rewrite Forall_app. intros [_ H]. exact H. Qed.

(** A text without a closing bracket, or without a closing parenthesis,
    has no link. *)
Lemma scan_no_bracket (s : str) (prev : option ascii) :
  no_char "]"%char s -> scan prev s = map Lit s.
Proof.
  intros Hs. rewrite <- (app_nil_r s) at 1. rewrite scan_lits.
  - simp scan. rewrite app_nil_r. reflexivity.
  - intros t1 c t2 p ->. rewrite app_nil_r. apply match_link_open.
    apply no_char_suffix in Hs. inversion Hs; assumption.
Qed.

Lemma match_link_closed (prev : option ascii) (s : str) :
  no_char ")"%char s -> match_link prev s = None.
Proof.
  intros Hs. destruct (match_link prev s) as [[t u]|] eqn:Hm; [|reflexivity].
  exfalso. destruct s as [|c r].
  - unfold match_link in Hm.
    destruct (match prev with Some _ => _ | None => _ end); discriminate.
  - apply match_link_sound in Hm. rewrite Hm in Hs.
    unfold group0, no_char in Hs. rewrite !Forall_app in Hs.
    destruct Hs as [[_ [_ [_ [_ Hp]]]] _].
    inversion Hp as [|? ? Hx _]. discriminate.
Qed.

Lemma scan_no_close (s : str) (prev : option ascii) :
  no_char ")"%char s -> scan prev s = map Lit s.
Proof.
  revert prev. induction s as [|c r IH]; intros prev Hs; [simp scan; reflexivity|].
  rewrite scan_cons, (match_link_closed prev (c :: r) Hs).
  inversion Hs; subst. cbn [map]. f_equal. apply IH. assumption.
Qed.


(** What the first run writes, the targets [keys] numbered from 1. *)
Definition out (keys : list str) (ps : list piece) : str :=
  concat (map (render keys) ps).

Lemma out_lits (keys : list str) (s : str) : out keys (map Lit s) = s.
Proof.
  unfold out. induction s as [|c s IH]; [reflexivity|].
  cbn [map concat render app]. rewrite IH. reflexivity.
Qed.

Lemma out_app (keys : list str) (a b : list piece) :
  out keys (a ++ b) = out keys a ++ out keys b.
Proof. unfold out. rewrite map_app, concat_app. reflexivity. Qed.

Lemma targets_after_lits (s : str) (ps : list piece) :
  targets (map Lit s ++ ps) = targets ps.
Proof. induction s as [|c s IH]; [reflexivity | exact IH]. Qed.

Lemma no_bracket_uint (d : Decimal.uint) :
  no_char "]"%char (L (NilEmpty.string_of_uint d)).
Proof.
  induction d; simpl; constructor; (reflexivity || assumption).
Qed.

(** What is written for a rewritten link: text without a closing
    bracket, and a closing bracket. *)
Lemma render_rewritten (keys : list str) (text url : str) :
  no_char "]"%char text ->
  rewritten (Link text url) = true ->
  exists w, render keys (Link text url) = w ++ ["]"%char] /\ no_char "]"%char w.
Proof.
  intros Ht Hr. cbn [rewritten] in Hr. apply negb_true_iff in Hr.
  cbn [render]. rewrite Hr.
  set (n := default 0 (lookup url (number_from 1 keys))).
  assert (Hn : no_char "]"%char (str_of_nat n)) by apply no_bracket_uint.
  destruct (truthy (strip text)).
  - exists (text ++ L " [" ++ str_of_nat n). split.
    + rewrite <- !app_assoc. reflexivity.
    + unfold no_char. rewrite !Forall_app. repeat split; try assumption.
      repeat constructor.
  - exists (L "[" ++ str_of_nat n). split.
    + rewrite <- !app_assoc. reflexivity.
    + unfold no_char. rewrite !Forall_app. split; [repeat constructor | exact Hn].
Qed.

Lemma target_head (c : ascii) (s : str) :
  eqc c "("%char = false -> target (c :: s) = None.
Proof. intros H. unfold target. rewrite H. reflexivity. Qed.

(** What is written for a piece that does not start with an opening
    parenthesis opens no target. *)
Lemma target_out (keys : list str) (ps : list piece) :
  match ps with q :: _ => starts_paren q = false | [] => True end ->
  target (out keys ps) = None.
Proof.
  destruct ps as [|[c|text url] ps]; [reflexivity| |]; unfold out;
    cbn [map concat render starts_paren rewritten].
  - intros H. apply target_head. exact H.
  - destruct (startswith url (L "#")); cbn [negb andb]; [reflexivity|].
    intros H. destruct text as [|c text]; [reflexivity|].
    assert (Hc : eqc c "("%char = false).
    { cbn [startswith L list_ascii_of_string] in H. rewrite andb_true_r in H.
      unfold eqc in *. rewrite Ascii.eqb_sym. exact H. }
    destruct (truthy (strip (c :: text))); [|reflexivity].
    cbn [app]. apply target_head. exact Hc.
Qed.

Lemma quiet_app_r (a b : list piece) : quiet (a ++ b) = true -> quiet b = true.
Proof.
  induction a as [|p a IH]; [trivial|].
  cbn [app quiet]. intros H. apply andb_prop in H. apply IH, H.
Qed.

Lemma quiet_tail (p : piece) (ps : list piece) :
  quiet (p :: ps) = true -> quiet ps = true.
Proof. cbn [quiet]. intros H. apply andb_prop in H. apply H. Qed.

Lemma take_while_holds (p : ascii -> bool) (s : str) :
  Forall (fun c => p c = true) (take_while p s).
Proof.
  induction s as [|c r IH]; simpl; [constructor|].
  destruct (p c) eqn:E; constructor; assumption.
Qed.

Lemma match_link_bang (prev : option ascii) (s : str) :
  bang prev = true -> match_link prev s = None.
Proof. unfold match_link, bang. intros ->. reflexivity. Qed.

(** What a match is. *)
Lemma match_link_shape (prev : option ascii) (c : ascii) (r : str) (text url : str) :
  match_link prev (c :: r) = Some (text, url) ->
  bang prev = false /\ no_char "]"%char text /\ no_char ")"%char url /\ url <> [].
Proof.
  unfold match_link, bang.
  destruct (match prev with Some _ => _ | None => _ end); [discriminate|].
  destruct (eqc c "["%char); [|discriminate].
  pose proof (take_while_holds (not_char "]"%char) r) as Ht.
  destruct (drop_while (not_char "]"%char) r) as [|c1 [|c2 s2]];
    [discriminate | discriminate |].
  destruct (eqc c1 "]"%char && eqc c2 "("%char); [|discriminate].
  pose proof (take_while_holds (not_char ")"%char) s2) as Hu.
  destruct (take_while (not_char ")"%char) s2) as [|u0 u]; [discriminate|].
  destruct (drop_while (not_char ")"%char) s2); [discriminate|].
  intros [= <- <-]. repeat split; try assumption. discriminate.
Qed.

Lemma drop_while_nil (p : ascii -> bool) (s : str) :
  drop_while p s = [] -> Forall (fun c => p c = true) s.
Proof.
  induction s as [|c s IH]; [constructor|]. cbn [drop_while].
  destruct (p c) eqn:E; [|discriminate]. intros H. constructor; [exact E | apply IH, H].
Qed.

(** A place of the text where the pattern does not match is one in the
    output. *)
Lemma unmatched_stays (keys : list str) (prev prev' : option ascii) (c : ascii)
    (r : str) :
  bang prev = bang prev' ->
  match_link prev (c :: r) = None ->
  quiet (scan (Some c) r) = true ->
  match_link prev' (c :: out keys (scan (Some c) r)) = None.
Proof.
  intros Hb Hm Hq.
  destruct (eqc c "["%char) eqn:Ec; [|apply match_link_other; exact Ec].
  apply Ascii.eqb_eq in Ec. subst c.
  destruct (bang prev') eqn:Hb'; [apply match_link_bang; exact Hb'|].
  destruct (split_at_bracket r) as [Hr|(t & r2 & -> & Ht)].
  { rewrite (scan_no_bracket r _ Hr), out_lits. apply match_link_open. exact Hr. }
  rewrite (match_link_text prev t r2 Ht), Hb in Hm.
  assert (Ht2 : target r2 = None) by (destruct (target r2); [discriminate | reflexivity]).
  clear Hm.
  assert (Hscan : scan (Some "["%char) (t ++ "]"%char :: r2)
                  = map Lit t ++ Lit "]"%char :: scan (Some "]"%char) r2).
  { rewrite scan_lits.
    - f_equal. rewrite scan_cons, match_link_other by reflexivity. reflexivity.
    - intros t1 c t2 p ->. destruct (eqc c "["%char) eqn:Ec;
        [|apply match_link_other; exact Ec].
      apply Ascii.eqb_eq in Ec. subst c.
      rewrite match_link_text, Ht2;
        [destruct (bang p); reflexivity|].
      apply no_char_suffix in Ht. inversion Ht; assumption. }
  rewrite Hscan in Hq |- *. apply quiet_app_r in Hq.
  rewrite out_app, out_lits.
  change (out keys (Lit "]"%char :: scan (Some "]"%char) r2))
    with ("]"%char :: out keys (scan (Some "]"%char) r2)).
  rewrite (match_link_text prev' t _ Ht), Hb'.
  assert (Hgoal : target (out keys (scan (Some "]"%char) r2)) = None);
    [|rewrite Hgoal; reflexivity].
  destruct r2 as [|c2 s2]; [simp scan; reflexivity|].
  destruct (eqc c2 "("%char) eqn:Ec2.
  - apply Ascii.eqb_eq in Ec2. subst c2.
    rewrite scan_cons, match_link_other by reflexivity.
    change (out keys (Lit "("%char :: scan (Some "("%char) s2))
      with ("("%char :: out keys (scan (Some "("%char) s2)).
    unfold target in Ht2 |- *. change (eqc "("%char "("%char) with true in *.
    cbn iota in *.
    destruct (take_while (not_char ")"%char) s2) as [|u0 u] eqn:Eu.
    + destruct s2 as [|c3 s3]; [simp scan; reflexivity|].
      cbn [take_while] in Eu. destruct (not_char ")"%char c3) eqn:Ec3; [discriminate|].
      assert (Hc3 : eqc c3 "["%char = false).
      { unfold not_char in Ec3. apply negb_false_iff, Ascii.eqb_eq in Ec3. subst c3.
        reflexivity. }
      rewrite scan_cons, (match_link_other _ _ _ Hc3).
      change (out keys (Lit c3 :: scan (Some c3) s3))
        with (c3 :: out keys (scan (Some c3) s3)).
      cbn [take_while]. rewrite Ec3. reflexivity.
    + destruct (drop_while (not_char ")"%char) s2) eqn:Ed; [|discriminate].
      apply drop_while_nil in Ed.
      rewrite (scan_no_close s2 _ Ed), out_lits, Eu.
      destruct (take_while_whole ")"%char s2 Ed) as [_ ->]. reflexivity.
  - apply target_out.
    rewrite scan_cons in Hq |- *.
    destruct (match_link (Some "]"%char) (c2 :: s2)) as [[t' u']|]; [|exact Ec2].
    cbn [quiet] in Hq. apply andb_prop in Hq. destruct Hq as [Hq _].
    cbn [rewritten ends_bracket starts_paren orb] in Hq |- *.
    change (eqc "]"%char "]"%char) with true in Hq.
    destruct (negb (startswith u' (L "#"))); [|reflexivity].
    cbn [andb] in Hq |- *. apply negb_true_iff in Hq. exact Hq.
Qed.

(** A second scan reads the output of the first run piece by piece: it
    finds the links that were kept, and nothing in what was written for a
    rewritten link. *)
Lemma rescan (keys : list str) (x : str) (prev prev' : option ascii) :
  bang prev = bang prev' ->
  quiet (scan prev x) = true ->
  targets (scan prev' (out keys (scan prev x))) = [].
Proof.
  remember (length x) as n eqn:Hn.
  revert x prev prev' Hn. induction n as [n IH] using lt_wf_ind.
  intros x prev prev' -> Hb Hq.
  destruct x as [|c r]; [simp scan; reflexivity|].
  rewrite scan_cons in Hq |- *.
  destruct (match_link prev (c :: r)) as [[t u]|] eqn:Hm.
  - pose proof (match_link_sound _ _ _ _ _ Hm) as Hx.
    destruct (match_link_shape _ _ _ _ _ Hm) as (Hbp & Ht & Hu & Hne).
    set (rest := skipn (length t + length u + 3) r) in *.
    assert (Hlen : length rest < length (c :: r)).
    { rewrite Hx, length_app. unfold group0. rewrite !length_app. simpl. lia. }
    assert (IHrest : forall p', bang p' = false ->
               targets (scan p' (out keys (scan (Some ")"%char) rest))) = []).
    { intros p' Hp'. apply (IH (length rest) Hlen rest _ _ eq_refl).
      - rewrite Hp'. reflexivity.
      - apply quiet_tail in Hq. exact Hq. }
    change (out keys (Link t u :: scan (Some ")"%char) rest))
      with (render keys (Link t u) ++ out keys (scan (Some ")"%char) rest)).
    set (Y := out keys (scan (Some ")"%char) rest)) in *.
    destruct (startswith u (L "#")) eqn:Ef.
    + (* a link that was kept *)
      cbn [render]. rewrite Ef.
      assert (Hy : match_link prev' (group0 t u ++ Y) = Some (t, u)).
      { unfold group0. rewrite <- !app_assoc. cbn [L list_ascii_of_string app].
        rewrite (match_link_text prev' t _ Ht), <- Hb, Hbp.
        unfold target. change (eqc "("%char "("%char) with true. cbn iota.
        destruct (take_while_upto ")"%char u Y Hu) as [-> ->].
        destruct u; [congruence | reflexivity]. }
      assert (Hshape : group0 t u ++ Y = "["%char :: (t ++ L "](" ++ u ++ L ")") ++ Y).
      { unfold group0. rewrite <- !app_assoc. reflexivity. }
      rewrite Hshape in Hy |- *. rewrite scan_cons, Hy.
      pose proof (match_link_sound _ _ _ _ _ Hy) as Hy'.
      rewrite <- Hshape in Hy'. apply app_inv_head in Hy'. rewrite <- Hy'.
      cbn [targets]. rewrite Ef. apply IHrest. reflexivity.
    + (* a link that was rewritten *)
      destruct (render_rewritten keys t u Ht) as (w & -> & Hw);
        [cbn [rewritten]; rewrite Ef; reflexivity|].
      assert (HY : target Y = None).
      { apply target_out. destruct (scan (Some ")"%char) rest) as [|q ps]; [exact I|].
        cbn [quiet] in Hq. apply andb_prop in Hq. destruct Hq as [Hq _].
        cbn [rewritten ends_bracket orb] in Hq. rewrite Ef in Hq.
        cbn [negb orb andb] in Hq. apply negb_true_iff in Hq. exact Hq. }
      rewrite scan_lits.
      * rewrite targets_after_lits, last_snoc. apply IHrest. reflexivity.
      * intros t1 d t2 p Heq.
        destruct (eqc d "["%char) eqn:Ed; [|apply match_link_other; exact Ed].
        apply Ascii.eqb_eq in Ed. subst d.
        destruct t2 as [|e t2] using rev_ind.
        { apply app_inj_tail in Heq. destruct Heq as [_ Heq]. discriminate. }
        clear IHt2.
        assert (Heq' : w ++ ["]"%char] = (t1 ++ "["%char :: t2) ++ [e])
          by (rewrite Heq, <- app_assoc; reflexivity).
        apply app_inj_tail in Heq'. destruct Heq' as [Hw' <-].
        rewrite <- app_assoc. cbn [app].
        rewrite match_link_text, HY; [destruct (bang p); reflexivity|].
        rewrite Hw' in Hw. apply no_char_suffix in Hw. inversion Hw; assumption.
  - change (out keys (Lit c :: scan (Some c) r))
      with (c :: out keys (scan (Some c) r)).
    pose proof (quiet_tail _ _ Hq) as Hq'.
    rewrite scan_cons, (unmatched_stays keys prev prev' c r Hb Hm Hq').
    cbn [targets]. apply (IH (length r)); [simpl; lia | reflexivity | reflexivity | exact Hq'].
Qed.

(** C7, as the code has it. A second run changes nothing when the first
    run leaves no closing bracket directly before an opening parenthesis
    at a link it rewrites: no rewritten link is directly followed by an
    opening parenthesis, or by a rewritten link whose text starts with
    one, and none whose text starts with one directly follows a closing
    bracket. Parentheses elsewhere in the text, images and links to a
    fragment of the same document do no harm: the second run finds the
    links to fragments again and keeps them, and its references are
    empty. *)
Theorem add_citations_twice (x : str) :
  quiet (scan None x) = true ->
  add_citations (fst (add_citations x)) = (fst (add_citations x), []).
Proof.
  intros Hx. rewrite (add_citations_eq x).
  destruct (first_seen (targets (scan None x))) as [|k ks] eqn:Ek.
  - cbn [fst]. rewrite add_citations_eq, Ek. reflexivity.
  - cbn [fst]. rewrite add_citations_eq.
    change (concat (map (render (k :: ks)) (scan None x)))
      with (out (k :: ks) (scan None x)).
    rewrite (rescan (k :: ks) x None None eq_refl Hx). reflexivity.
Qed.

Lemma add_citations_twice_witness :
  quiet (scan None (L "See [A](https://a.com) (the first), ![logo](https://a.com/l.png), [top](#top) and [B](https://b.com)."))
  = true
  /\ add_citations (fst (add_citations (L "See [A](https://a.com) (the first), ![logo](https://a.com/l.png), [top](#top) and [B](https://b.com).")))
     = (L "See A [1] (the first), ![logo](https://a.com/l.png), [top](#top) and B [2].", []).
Proof.
  split; [vm_compute; reflexivity|].
  exact (add_citations_twice (L "See [A](https://a.com) (the first), ![logo](https://a.com/l.png), [top](#top) and [B](https://b.com).") eq_refl).
Defined.

(** Two more ways in which the first run leaves a closing bracket
    directly before an opening parenthesis: the text of a rewritten link
    starts with one, after another rewritten link or after a closing
    bracket of the text. The second run rewrites both. *)
Example second_run_link_after_link :
  quiet (scan None (L "[a](u)[(b](v))")) = false
  /\ fst (add_citations (L "[a](u)[(b](v))")) = L "a [1](b [2])"
  /\ fst (add_citations (L "a [1](b [2])")) = L "a 1 [1]".
Proof. repeat split; vm_compute; reflexivity. Qed.

Example second_run_link_after_bracket :
  quiet (scan None (L "[T][(b](v))")) = false
  /\ fst (add_citations (L "[T][(b](v))")) = L "[T](b [1])"
  /\ fst (add_citations (L "[T](b [1])")) = L "T [1]".
Proof. repeat split; vm_compute; reflexivity. Qed.

(** C7, as the specification has it, fails: after the first run on
    "[a](u)(v)" the marker of the link and the parenthesised text that
    follows it read as a link, which the second run rewrites. The same
    happens when the parenthesis comes from the text of a rewritten link
    that follows a rewritten link or a closing bracket. *)
Lemma add_citations_not_idempotent :
  fst (add_citations (L "[a](u)(v)")) = L "a [1](v)"
  /\ add_citations (L "a [1](v)")
     = (L "a 1 [1]", join [nl] [L ""; L "## References"; L ""; L "[1] v"])
  /\ ~ (forall x : str,
          add_citations (fst (add_citations x)) = (fst (add_citations x), []))
  /\ add_citations (fst (add_citations (L "[a](u)[(b](v))")))
     <> (fst (add_citations (L "[a](u)[(b](v))")), [])
  /\ add_citations (fst (add_citations (L "[T][(b](v))")))
     <> (fst (add_citations (L "[T][(b](v))")), []).
Proof.
  split; [reflexivity|]. split; [reflexivity|]. split; [|split].
  - intros H. specialize (H (L "[a](u)(v)")). vm_compute in H. discriminate.
  - vm_compute. discriminate.
  - vm_compute. discriminate.
Qed.

End Citations.

(** ** Sorting the results by date *)

Module Extract.

Import PyOrder.

Section SortByDate.

(** What the dict carries under the key "result". *)
Context {R : Type}.

(** The dicts that [sort_results_by_date] reads: [published_date] is
    [None] when the key is absent or holds [None], [url] when the key is
    absent. *)
Record item : Type := Item {
  result : R;
  published_date : option str;
  url : option str
}.

(** [item.get("url", "")] *)
Definition url_of (it : item) : str := default [] (url it).

Definition get_sort_key (descending : bool) (it : item) : str * str :=
  match published_date it with
  | None => (if descending then L "9999-99-99" else L "0000-00-00", url_of it)
  | Some date => (date, url_of it)
  end.

(** The order of the keys, pairs of strings. *)
Definition key_compare : str * str -> str * str -> comparison :=
  lex_pair str_compare str_compare.

(** [sorted(results, key=get_sort_key, reverse=descending)] *)
Definition sort_results_by_date (results : list item) (descending : bool) : list item :=
  let key := get_sort_key descending in
  PySort.sorted
    (fun y x => if descending
                then lt key_compare (key x) (key y)
                else lt key_compare (key y) (key x))
    results.

Definition dated (it : item) : Prop := published_date it <> None.

Definition undated (it : item) : Prop := published_date it = None.

(** The date and the URL of a dated result. *)
Definition date_url (it : item) : str * str :=
  (default [] (published_date it), url_of it).

(** The order the specification words: the dated results by date, latest
    first, those of one date in the order of the input; then the undated
    ones in the order of the input. *)
Definition sorted_by_date_spec (results : list item) : list item :=
  PySort.sorted
    (fun y x => lt str_compare (default [] (published_date x))
                               (default [] (published_date y)))
    (filter dated results)
  ++ filter undated results.

End SortByDate.

Arguments item : clear implicits.

Example dated_by_date_descending :
  map result
    (sort_results_by_date
       [Item 0 (Some (L "2023-05-01")) (Some (L "https://e.com/a"));
        Item 1 (Some (L "2024-02-11")) (Some (L "https://e.com/b"));
        Item 2 (Some (L "2023-12-31")) (Some (L "https://e.com/c"))] true)
  = [1; 2; 0].
Proof. reflexivity. Qed.

(** With [descending] the placeholder date of an undated result is the
    greatest key, and the reversed sort puts it first, where the
    docstring of [sort_results_by_date] sends it to the end. *)
Example undated_first :
  map result
    (sort_results_by_date
       [Item 0 (Some (L "2024-02-11")) (Some (L "https://e.com/a"));
        Item 1 None (Some (L "https://e.com/b"))] true)
  = [1; 0].
Proof. reflexivity. Qed.

Section SortByDateFacts.

Context {R : Type}.

Lemma StronglySorted_filter_weaken (Q Q' : item R -> item R -> Prop)
    (P : item R -> Prop) `{!forall a, Decision (P a)} (l : list (item R)) :
  (forall a b, P a -> P b -> Q a b -> Q' a b) ->
  StronglySorted Q l -> StronglySorted Q' (filter P l).
Proof.
  intros HQ. induction 1 as [|x l Hl IH Hx]; [constructor|].
  rewrite filter_cons. destruct (decide (P x)) as [Px|Px]; [|exact IH].
  constructor; [exact IH|].
  apply Forall_forall. intros y Hy. apply list_elem_of_filter in Hy.
  destruct Hy as [Py Hy]. rewrite Forall_forall in Hx.
  apply HQ; [assumption | assumption | apply Hx; exact Hy].
Qed.

Definition before_desc (y x : item R) : bool :=
  lt key_compare (get_sort_key true x) (get_sort_key true y).

Lemma sort_results_by_date_desc (results : list (item R)) :
  sort_results_by_date results true = PySort.sorted before_desc results.
Proof. reflexivity. Qed.

Lemma before_desc_asym (a b : item R) :
  before_desc a b = true -> before_desc b a = false.
Proof. unfold before_desc. apply (lt_asym key_compare). Qed.

Lemma before_desc_not_trans (a b c : item R) :
  before_desc a b = false -> before_desc b c = false -> before_desc a c = false.
Proof.
  unfold before_desc. intros Hab Hbc.
  apply (not_lt_trans key_compare _ _ _ Hbc Hab).
Qed.

Lemma same_key_not_before (a b : item R) :
  get_sort_key true a = get_sort_key true b -> before_desc a b = false.
Proof.
  unfold before_desc, lt. intros ->. rewrite (cmp_refl key_compare). reflexivity.
Qed.

Lemma dated_key (it : item R) : dated it -> get_sort_key true it = date_url it.
Proof.
  unfold dated, get_sort_key, date_url. destruct (published_date it); [reflexivity|].
  intros H. contradiction.
Qed.

Lemma undated_key (it : item R) :
  undated it -> get_sort_key true it = (L "9999-99-99", url_of it).
Proof. unfold undated, get_sort_key. intros ->. reflexivity. Qed.

(** C2, as the code has it. Sorting by date, latest first, permutes the
    results; the dated results come out by date, latest first, those of
    one date by URL, greatest first, and those of one date and one URL in
    the order of the input; the undated results come out by URL, greatest
    first, and those of one URL in the order of the input. *)
Theorem sort_results_by_date_order (results : list (item R)) :
  let out := sort_results_by_date results true in
  Permutation out results
  /\ StronglySorted
       (fun a b => lt key_compare (date_url a) (date_url b) = false)
       (filter dated out)
  /\ (forall d u,
        filter (fun it => published_date it = Some d /\ url_of it = u) out
        = filter (fun it => published_date it = Some d /\ url_of it = u) results)
  /\ StronglySorted
       (fun a b => lt str_compare (url_of a) (url_of b) = false)
       (filter undated out)
  /\ (forall u,
        filter (fun it => undated it /\ url_of it = u) out
        = filter (fun it => undated it /\ url_of it = u) results).
Proof.
  cbn zeta. rewrite sort_results_by_date_desc.
  pose proof (PySort.sorted_in_order before_desc before_desc_asym
                before_desc_not_trans results) as Hs.
  split; [apply PySort.sorted_perm|].
  split.
  { eapply StronglySorted_filter_weaken; [|exact Hs].
    intros a b Ha Hb. unfold PySort.in_order, before_desc.
    rewrite (dated_key a Ha), (dated_key b Hb). trivial. }
  split.
  { intros d u. apply PySort.sorted_stable.
    intros a b [Ha1 Ha2] [Hb1 Hb2]. apply same_key_not_before.
    unfold get_sort_key. rewrite Ha1, Hb1, Ha2, Hb2. reflexivity. }
  split.
  { eapply StronglySorted_filter_weaken; [|exact Hs].
    intros a b Ha Hb. unfold PySort.in_order, before_desc.
    rewrite (undated_key a Ha), (undated_key b Hb).
    unfold lt, key_compare, lex_pair. cbn [fst snd].
    rewrite (cmp_refl str_compare). trivial. }
  { intros u. apply PySort.sorted_stable.
    intros a b [Ha1 Ha2] [Hb1 Hb2]. apply same_key_not_before.
    rewrite (undated_key a Ha1), (undated_key b Hb1), Ha2, Hb2. reflexivity. }
Qed.

End SortByDateFacts.

(** C2, as the specification has it, fails: two results of one date come
    out by URL, greatest first, not in the order of the input, and so do
    two undated results. *)
Lemma sort_results_by_date_not_input_order :
  let a := Item 0 (Some (L "2024-02-11")) (Some (L "https://e.com/a")) in
  let b := Item 1 (Some (L "2024-02-11")) (Some (L "https://e.com/b")) in
  let c := Item 2 None (Some (L "https://e.com/c")) in
  let d := Item 3 None (Some (L "https://e.com/d")) in
  sort_results_by_date [a; b] true = [b; a]
  /\ sorted_by_date_spec [a; b] = [a; b]
  /\ sort_results_by_date [c; d] true = [d; c]
  /\ sorted_by_date_spec [c; d] = [c; d]
  /\ ~ (forall results : list (item nat),
          sort_results_by_date results true = sorted_by_date_spec results).
Proof.
  cbn zeta. repeat split; try reflexivity.
  intros H.
  specialize (H [Item 0 (Some (L "2024-02-11")) (Some (L "https://e.com/a"));
                 Item 1 (Some (L "2024-02-11")) (Some (L "https://e.com/b"))]).
  vm_compute in H. discriminate.
Qed.

End Extract.

(** ** Fetching: results, exceptions and the browser session *)

Module Fetch.

(** The dataclass [FetchResult]. *)
Record FetchResult : Type := mkFetchResult {
  html : str;
  url : str;
  status : Z;
  screenshot : option (list Byte.byte);
  pdf : option (list Byte.byte);
  headers : list (str * str)
}.

(** What is raised: an instance of [Exception], which [except Exception]
    catches, or of another subclass of [BaseException] (a cancellation, a
    keyboard interrupt), which it does not. *)
Inductive exn : Type :=
| Exception (msg : str)
| BaseException (msg : str).

Inductive outcome (A : Type) : Type :=
| Returned (a : A)
| Raised (e : exn).

Arguments Returned {A} a.
Arguments Raised {A} e.

(** *** The browser session *)

(** What the session holds: the Playwright driver, the browser it
    launched and the context opened in it. *)
Inductive resource : Type := Playwright | Browser | Context.

(** The calls on the rendering engine, in the order they are made. *)
Inductive event : Type :=
| Acquire (r : resource)
| Release (r : resource).

(** The fields [_playwright], [_browser] and [_context]: [true] when the
    field holds a handle, [false] when it is [None]. *)
Record BrowserSession : Type := mkSession {
  _playwright : bool;
  _browser : bool;
  _context : bool
}.

(** [__init__] *)
Definition new_session : BrowserSession := mkSession false false false.

(** The rendering engine: for each of [async_playwright().start()],
    [chromium.launch] and [new_context], whether the call returns a
    handle or raises. *)
Record engine : Type := mkEngine {
  start : option exn;
  launch : option exn;
  new_context : option exn
}.

(** [__aenter__]: the session as the call leaves it, the calls made, and
    what is raised, if anything. *)
Definition __aenter__ (eng : engine) (s : BrowserSession) (tr : list event)
  : BrowserSession * list event * option exn :=
  match start eng with
  | Some e => (s, tr, Some e)
  | None =>
      let s1 := mkSession true (_browser s) (_context s) in
      let tr1 := tr ++ [Acquire Playwright] in
      match launch eng with
      | Some e => (s1, tr1, Some e)
      | None =>
          let s2 := mkSession true true (_context s1) in
          let tr2 := tr1 ++ [Acquire Browser] in
          match new_context eng with
          | Some e => (s2, tr2, Some e)
          | None => (mkSession true true true, tr2 ++ [Acquire Context], None)
          end
      end
  end.

(** [__aexit__]: the calls it adds. *)
Definition __aexit__ (s : BrowserSession) (tr : list event) : list event :=
  let tr1 := if _context s then tr ++ [Release Context] else tr in
  let tr2 := if _browser s then tr1 ++ [Release Browser] else tr1 in
  if _playwright s then tr2 ++ [Release Playwright] else tr2.

(** [async with BrowserSession(...) as session: body]. Python calls
    [__aexit__] when the body is left, by a return or by an exception,
    and lets the exception go on since [__aexit__] returns [None]; it
    does not call it when [__aenter__] raises. *)
Definition async_with {A : Type} (eng : engine)
    (body : BrowserSession -> list event -> outcome A * list event)
  : outcome A * list event :=
  match __aenter__ eng new_session [] with
  | (_, tr, Some e) => (Raised e, tr)
  | (s, tr, None) =>
      let '(r, tr') := body s tr in
      (r, __aexit__ s tr')
  end.

(** The resources held at the end of a run: acquired and not released. *)
Definition held (tr : list event) (r : resource) : bool :=
  existsb (fun ev => match ev, r with
                     | Acquire Playwright, Playwright
                     | Acquire Browser, Browser
                     | Acquire Context, Context => true
                     | _, _ => false
                     end) tr
  && negb (existsb (fun ev => match ev, r with
                              | Release Playwright, Playwright
                              | Release Browser, Browser
                              | Release Context, Context => true
                              | _, _ => false
                              end) tr).

(** A session that opened is closed however the body ends, the context
    first, then the browser, then the driver. *)
Lemma async_with_opened {A : Type}
    (body : BrowserSession -> list event -> outcome A * list event) :
  async_with (mkEngine None None None) body =
  let '(r, tr) :=
    body (mkSession true true true)
         [Acquire Playwright; Acquire Browser; Acquire Context] in
  (r, tr ++ [Release Context; Release Browser; Release Playwright]).
Proof.
  unfold async_with. simpl.
  destruct (body _ _) as [r tr]. unfold __aexit__. simpl.
  rewrite <- !app_assoc. reflexivity.
Qed.

(** C4 on the code: when the browser fails to launch, or the context to
    open, the error goes to the caller with what was acquired still held:
    [__aenter__] catches nothing and [__aexit__], which would release it,
    is not called. *)
Theorem session_open_failure_leaks {A : Type}
    (body : BrowserSession -> list event -> outcome A * list event) (e : exn) :
  async_with (mkEngine None (Some e) None) body
    = (Raised e, [Acquire Playwright])
  /\ held [Acquire Playwright] Playwright = true
  /\ async_with (mkEngine None None (Some e)) body
    = (Raised e, [Acquire Playwright; Acquire Browser])
  /\ held [Acquire Playwright; Acquire Browser] Browser = true
  /\ __aexit__ (mkSession true true false) [Acquire Playwright; Acquire Browser]
    = [Acquire Playwright; Acquire Browser; Release Browser; Release Playwright].
Proof. repeat split. Qed.

End Fetch.

(** ** The crawler *)

Module Crawl.

Import Fetch.

(** [urllib.parse.ParseResult] *)
Record ParseResult : Type := mkParse {
  scheme : str;
  netloc : str;
  path : str;
  params : str;
  query : str;
  fragment : str
}.

(** [s.rstrip(ch)] for a single character. *)
Fixpoint rstrip_char (ch : ascii) (s : str) : str :=
  match s with
  | [] => []
  | c :: r =>
      match rstrip_char ch r with
      | [] => if eqc c ch then [] else [c]
      | r' => c :: r'
      end
  end.

(** [s.endswith(suffix)] *)
Definition endswith (s suffix : str) : bool := startswith (rev s) (rev suffix).

Definition lower_char (c : ascii) : ascii :=
  let n := nat_of_ascii c in
  if (65 <=? n) && (n <=? 90) then ascii_of_nat (n + 32) else c.

Definition lower (s : str) : str := map lower_char s.

Definition skipped_extensions : list str :=
  [L "jpg"; L "jpeg"; L "png"; L "gif"; L "svg"; L "pdf"; L "zip"; L "tar";
   L "gz"; L "css"; L "js"; L "xml"].

(** The search of the extension pattern in the path, letter case ignored:
    a dot and one of the extensions at the end of the path, or just before
    a line feed that ends it. *)
Definition has_skipped_extension (path : str) : bool :=
  existsb (fun ext => endswith (lower path) (L "." ++ ext)
                      || endswith (lower path) (L "." ++ ext ++ [nl]))
          skipped_extensions.

(** The state of the loop of [deep_crawl], with the URLs that were passed
    to [session.fetch], in the order of the calls. *)
Record crawl_state : Type := mkState {
  results : list FetchResult;
  visited : gset str;
  fetched : list str
}.

(** How the loop over a list of candidates ends: at the end of the list,
    by [break], or by an exception that is not caught. *)
Inductive loop_end : Type :=
| Exhausted (st : crawl_state)
| Broke (st : crawl_state)
| Aborted (e : exn) (st : crawl_state).

Definition state_of (r : loop_end) : crawl_state :=
  match r with
  | Exhausted st | Broke st | Aborted _ st => st
  end.

Section Crawler.

(** The library functions the crawler calls, and the world it fetches
    from. *)

(** [urllib.parse.urlparse] and [urllib.parse.urljoin] *)
Variable urlparse : str -> ParseResult.
Variable urljoin : str -> str -> str.

(** The [href] values of the anchors that have one, in document order:
    what [soup.find_all("a", href=True)] yields for [BeautifulSoup(html,
    "lxml")]. *)
Variable hrefs : str -> list str.

(** [fnmatch.fnmatch(name, pattern)] *)
Variable fnmatch : str -> str -> bool.

(** [session.fetch(url, ...)]: what the call returns or raises, which may
    depend on the calls made before it. *)
Variable respond : list str -> str -> outcome FetchResult.

Definition _normalize_url (url : str) : str :=
  let parsed := urlparse url in
  let path :=
    match rstrip_char "/"%char (path parsed) with
    | [] => L "/"
    | p => p
    end in
  scheme parsed ++ L "://" ++ netloc parsed ++ path.

(** The first loop of [_extract_links], for one anchor: the link it
    appends, if any. *)
Definition keep_link (base_url base_domain href : str) : option str :=
  if startswith href (L "#") || startswith href (L "javascript:")
     || startswith href (L "mailto:") || startswith href (L "tel:")
  then None
  else
    let absolute := urljoin base_url href in
    let parsed := urlparse absolute in
    if negb (bool_decide (netloc parsed = base_domain)) then None
    else if negb (bool_decide (scheme parsed = L "http")
                  || bool_decide (scheme parsed = L "https")) then None
    else if has_skipped_extension (path parsed) then None
    else Some absolute.

(** The second loop of [_extract_links]. *)
Fixpoint unique_links (links : list str) (seen : gset str) : list str :=
  match links with
  | [] => []
  | link :: rest =>
      let normalized := _normalize_url link in
      if decide (normalized ∈ seen) then unique_links rest seen
      else link :: unique_links rest ({[normalized]} ∪ seen)
  end.

Definition candidate_links (html base_url base_domain : str) : list str :=
  omap (keep_link base_url base_domain) (hrefs html).

Definition _extract_links (html base_url base_domain : str) : list str :=
  unique_links (candidate_links html base_url base_domain) ∅.

(** One iteration of the loop of [deep_crawl]. *)
Definition crawl_step (max_pages : Z) (url : str) (st : crawl_state) : loop_end :=
  if (max_pages <=? Z.of_nat (length (results st)))%Z then Broke st
  else
    let normalized := _normalize_url url in
    if decide (normalized ∈ visited st) then Exhausted st
    else
      let visited' := {[normalized]} ∪ visited st in
      let fetched' := fetched st ++ [url] in
      match respond (fetched st) url with
      | Returned result =>
          if (status result <? 400)%Z
          then Exhausted (mkState (results st ++ [result]) visited' fetched')
          else Exhausted (mkState (results st) visited' fetched')
      | Raised (Exception _) => Exhausted (mkState (results st) visited' fetched')
      | Raised e => Aborted e (mkState (results st) visited' fetched')
      end.

(** The loop [for url in discovered]. *)
Fixpoint crawl_links (max_pages : Z) (discovered : list str) (st : crawl_state)
  : loop_end :=
  match discovered with
  | [] => Exhausted st
  | url :: rest =>
      match crawl_step max_pages url st with
      | Exhausted st' => crawl_links max_pages rest st'
      | r => r
      end
  end.

(** The candidates of the loop: the links of the start page, filtered by
    the pattern when there is one ([None] and the empty string are
    false). *)
Definition discovered (start_url : str) (url_pattern : option str)
    (start_result : FetchResult) : list str :=
  let links :=
    _extract_links (html start_result) start_url (netloc (urlparse start_url)) in
  match url_pattern with
  | Some (c :: p) => List.filter (fun u => fnmatch u (c :: p)) links
  | _ => links
  end.

(** The state when the loop is entered. *)
Definition seed_state (start_url : str) (start_result : FetchResult) : crawl_state :=
  mkState [start_result] {[_normalize_url start_url]} [start_url].

(** [deep_crawl]: what it returns or raises, and the URLs it fetched. *)
Definition deep_crawl (start_url : str) (max_pages : Z) (url_pattern : option str)
  : outcome (list FetchResult) * list str :=
  match respond [] start_url with
  | Raised e => (Raised e, [start_url])
  | Returned start_result =>
      match crawl_links max_pages (discovered start_url url_pattern start_result)
                        (seed_state start_url start_result) with
      | Exhausted st | Broke st => (Returned (results st), fetched st)
      | Aborted e st => (Raised e, fetched st)
      end
  end.

(** The state of the crawl after [n] candidates, or at the end of the
    loop when it ends before. *)
Definition crawl_point (start_url : str) (max_pages : Z) (url_pattern : option str)
    (start_result : FetchResult) (n : nat) : crawl_state :=
  state_of (crawl_links max_pages
              (take n (discovered start_url url_pattern start_result))
              (seed_state start_url start_result)).

(** *** Link extraction *)

(** The links of a list whose normalised URL no earlier link has. *)
Fixpoint first_by_url (links : list str) : list str :=
  match links with
  | [] => []
  | x :: r =>
      x :: filter (fun y => _normalize_url y <> _normalize_url x) (first_by_url r)
  end.

(** What [_extract_links] lets through. *)
Definition navigable (base_domain : str) (u : str) : Prop :=
  netloc (urlparse u) = base_domain
  /\ (scheme (urlparse u) = L "http" \/ scheme (urlparse u) = L "https")
  /\ scheme (urlparse u) <> L "javascript"
  /\ scheme (urlparse u) <> L "mailto"
  /\ scheme (urlparse u) <> L "tel"
  /\ forall ext, ext ∈ skipped_extensions ->
       ~ (L "." ++ ext) `suffix_of` lower (path (urlparse u)).

Lemma startswith_prefix (s p : str) : startswith s p = true <-> p `prefix_of` s.
Proof.
  revert s. induction p as [|a p IH]; intros s; simpl.
  - split; [intros _; apply prefix_nil | reflexivity].
  - destruct s as [|b s].
    + split; [discriminate|]. intros [k Hk]. discriminate.
    + rewrite andb_true_iff, IH. unfold eqc. rewrite Ascii.eqb_eq. split.
      * intros [-> [k ->]]. exists k. reflexivity.
      * intros [k Hk]. injection Hk as -> ->. split; [reflexivity|].
        exists k. reflexivity.
Qed.

Lemma endswith_suffix (s suf : str) : endswith s suf = true <-> suf `suffix_of` s.
Proof.
  unfold endswith. rewrite startswith_prefix. split.
  - intros [k Hk]. exists (rev k).
    rewrite <- (rev_involutive s), Hk, rev_app_distr, rev_involutive. reflexivity.
  - intros [k ->]. exists (rev k). apply rev_app_distr.
Qed.

Lemma has_skipped_extension_false (p : str) (ext : str) :
  has_skipped_extension p = false -> ext ∈ skipped_extensions ->
  ~ (L "." ++ ext) `suffix_of` lower p.
Proof.
  unfold has_skipped_extension. intros H Hext Hsuf.
  apply endswith_suffix in Hsuf.
  assert (Hex : existsb (fun ext => endswith (lower p) (L "." ++ ext)
                         || endswith (lower p) (L "." ++ ext ++ [nl]))
                  skipped_extensions = true).
  { apply existsb_exists. exists ext. split.
    - apply list_elem_of_In. exact Hext.
    - rewrite Hsuf. reflexivity. }
  congruence.
Qed.

Lemma keep_link_navigable (base_url base_domain href link : str) :
  keep_link base_url base_domain href = Some link -> navigable base_domain link.
Proof.
  unfold keep_link.
  destruct (_ || _ || _ || _); [discriminate|].
  destruct (bool_decide (netloc _ = base_domain)) eqn:En; [|discriminate].
  cbn [negb].
  destruct (bool_decide (scheme _ = L "http") || bool_decide (scheme _ = L "https"))
    eqn:Es; [|discriminate].
  cbn [negb].
  destruct (has_skipped_extension _) eqn:Ex; [discriminate|].
  intros [= <-].
  apply bool_decide_eq_true in En.
  assert (Hs : scheme (urlparse (urljoin base_url href)) = L "http"
               \/ scheme (urlparse (urljoin base_url href)) = L "https").
  { apply orb_true_iff in Es. destruct Es as [E|E];
      apply bool_decide_eq_true in E; [left | right]; exact E. }
  split; [exact En|]. split; [exact Hs|].
  repeat split.
  - destruct Hs as [-> | ->]; discriminate.
  - destruct Hs as [-> | ->]; discriminate.
  - destruct Hs as [-> | ->]; discriminate.
  - intros ext Hext. apply has_skipped_extension_false; assumption.
Qed.

Lemma candidate_links_navigable (html base_url base_domain : str) :
  Forall (navigable base_domain) (candidate_links html base_url base_domain).
Proof.
  unfold candidate_links. induction (hrefs html) as [|h hs IH]; [constructor|].
  cbn [omap list_omap].
  destruct (keep_link base_url base_domain h) as [link|] eqn:E; [|exact IH].
  constructor; [|exact IH]. eapply keep_link_navigable. exact E.
Qed.

Lemma unique_links_spec (links : list str) (seen : gset str) :
  unique_links links seen
  = filter (fun y => _normalize_url y ∉ seen) (first_by_url links).
Proof.
  revert seen. induction links as [|x r IH]; intros seen; [reflexivity|].
  cbn [unique_links first_by_url]. rewrite filter_cons.
  destruct (decide (_normalize_url x ∈ seen)) as [Hin|Hin].
  - rewrite decide_False by (intros H; apply H; exact Hin).
    rewrite IH, list_filter_filter. apply list_filter_iff.
    intros y. split; [intros H; split; [exact H|] | intros [H _]; exact H].
    intros Heq. apply H. rewrite Heq. exact Hin.
  - rewrite decide_True by exact Hin. f_equal.
    rewrite IH, list_filter_filter. apply list_filter_iff.
    intros y. rewrite not_elem_of_union, not_elem_of_singleton.
    split; intros [H1 H2]; split; assumption.
Qed.

Lemma extract_links_first_by_url (html base_url base_domain : str) :
  _extract_links html base_url base_domain
  = first_by_url (candidate_links html base_url base_domain).
Proof.
  unfold _extract_links. rewrite unique_links_spec.
  induction (first_by_url _) as [|x r IH]; [reflexivity|].
  rewrite filter_cons_True by apply not_elem_of_empty. rewrite IH. reflexivity.
Qed.

Lemma first_by_url_sublist (links : list str) : first_by_url links `sublist_of` links.
Proof.
  induction links as [|x r IH]; simpl; [constructor|].
  constructor. etransitivity; [apply sublist_filter | exact IH].
Qed.

Lemma first_by_url_NoDup (links : list str) :
  NoDup (map _normalize_url (first_by_url links)).
Proof.
  induction links as [|x r IH]; simpl; [constructor|].
  assert (Hf : forall (P : str -> Prop) `{!forall y, Decision (P y)} (l : list str),
             NoDup (map _normalize_url l) ->
             NoDup (map _normalize_url (filter P l))
             /\ forall n, n ∈ map _normalize_url (filter P l) ->
                          exists y, n = _normalize_url y /\ P y).
  { intros P HP l. induction l as [|y l IHl]; intros Hnd.
    - split; [constructor|]. intros n Hn. inversion Hn.
    - simpl in Hnd. apply NoDup_cons in Hnd. destruct Hnd as [Hy Hl].
      destruct (IHl Hl) as [IH1 IH2]. rewrite filter_cons.
      destruct (decide (P y)) as [Py|Py]; [|split; assumption].
      simpl. split.
      + apply NoDup_cons. split; [|exact IH1].
        intros Hin. apply Hy. clear -Hin.
        induction l as [|z l IHz]; [inversion Hin|].
        rewrite filter_cons in Hin. simpl.
        destruct (decide (P z)); [|right; apply IHz; exact Hin].
        simpl in Hin. apply elem_of_cons in Hin.
        destruct Hin as [->|Hin]; [left | right; apply IHz; exact Hin].
      + intros n Hn. apply elem_of_cons in Hn. destruct Hn as [->|Hn].
        * exists y. split; [reflexivity | exact Py].
        * apply IH2. exact Hn. }
  destruct (Hf (fun y => _normalize_url y <> _normalize_url x) _ _ IH) as [H1 H2].
  apply NoDup_cons. split; [|exact H1].
  intros Hin. destruct (H2 _ Hin) as (y & Hy & Hne). congruence.
Qed.

Lemma first_by_url_covers (links : list str) (link : str) :
  link ∈ links ->
  exists rep, rep ∈ first_by_url links /\ _normalize_url rep = _normalize_url link.
Proof.
  induction links as [|x r IH]; [inversion 1|].
  intros Hin. apply elem_of_cons in Hin. simpl.
  destruct (decide (_normalize_url link = _normalize_url x)) as [Heq|Hne].
  - exists x. split; [left | symmetry; exact Heq].
  - destruct Hin as [->|Hin]; [contradiction|].
    destruct (IH Hin) as (rep & Hrep & Hn).
    exists rep. split; [|exact Hn]. right.
    apply list_elem_of_filter. split; [congruence | exact Hrep].
Qed.

(** C5. Every URL that [_extract_links] returns has the base domain as
    its host, the scheme http or https (so none of javascript, mailto,
    tel) and a path that ends in no filtered extension, whatever the
    letter case; and the list holds the first link of each normalised URL,
    in the order of the page: no two of its links have the same normalised
    URL, it is a subsequence of the links that passed the filter, and each
    of those has its normalised URL in the list. *)
Theorem extract_links_sound (html base_url base_domain : str) :
  let links := candidate_links html base_url base_domain in
  let out := _extract_links html base_url base_domain in
  Forall (navigable base_domain) out
  /\ out = first_by_url links
  /\ NoDup (map _normalize_url out)
  /\ out `sublist_of` links
  /\ Forall (fun link => exists rep, rep ∈ out
                         /\ _normalize_url rep = _normalize_url link) links.
Proof.
  cbn zeta. rewrite extract_links_first_by_url.
  split.
  { apply Forall_forall. intros u Hu.
    pose proof (candidate_links_navigable html base_url base_domain) as Hall.
    rewrite Forall_forall in Hall. apply Hall.
    eapply elem_of_sublist; [exact Hu | apply first_by_url_sublist]. }
  split; [reflexivity|].
  split; [apply first_by_url_NoDup|].
  split; [apply first_by_url_sublist|].
  apply Forall_forall. intros link Hlink. apply first_by_url_covers. exact Hlink.
Qed.

(** *** The loop *)

(** What [deep_crawl] returns after the loop. *)
Definition crawl_return (r : loop_end) : outcome (list FetchResult) * list str :=
  match r with
  | Exhausted st | Broke st => (Returned (results st), fetched st)
  | Aborted e st => (Raised e, fetched st)
  end.

Lemma deep_crawl_eq (start_url : str) (max_pages : Z) (url_pattern : option str) :
  deep_crawl start_url max_pages url_pattern =
  match respond [] start_url with
  | Raised e => (Raised e, [start_url])
  | Returned start_result =>
      crawl_return
        (crawl_links max_pages (discovered start_url url_pattern start_result)
                     (seed_state start_url start_result))
  end.
Proof.
  unfold deep_crawl. destruct (respond [] start_url); [|reflexivity].
  destruct (crawl_links _ _ _); reflexivity.
Qed.

Lemma crawl_links_app (max_pages : Z) (a b : list str) (st : crawl_state) :
  crawl_links max_pages (a ++ b) st =
  match crawl_links max_pages a st with
  | Exhausted st' => crawl_links max_pages b st'
  | r => r
  end.
Proof.
  revert st. induction a as [|u a IH]; intros st; [reflexivity|].
  simpl. destruct (crawl_step max_pages u st); [apply IH | reflexivity | reflexivity].
Qed.

(** The budget and the seed. *)
Definition within_budget (max_pages : Z) (seed : FetchResult) (st : crawl_state) : Prop :=
  (Z.of_nat (length (results st)) <= Z.max 1 max_pages)%Z
  /\ head (results st) = Some seed.

Lemma crawl_step_budget (max_pages : Z) (seed : FetchResult) (url : str)
    (st : crawl_state) :
  within_budget max_pages seed st ->
  within_budget max_pages seed (state_of (crawl_step max_pages url st)).
Proof.
  intros [Hlen Hhead]. unfold crawl_step.
  destruct (Z.leb_spec max_pages (Z.of_nat (length (results st)))) as [Hge|Hlt];
    [split; assumption|].
  destruct (decide (_ ∈ visited st)); [split; assumption|].
  destruct (respond (fetched st) url) as [r|[m|m]]; try (split; assumption).
  destruct (status r <? 400)%Z; [|split; assumption].
  split; cbn [state_of results].
  - rewrite length_app. simpl. lia.
  - destruct (results st); [discriminate | exact Hhead].
Qed.

Lemma crawl_links_budget (max_pages : Z) (seed : FetchResult) (l : list str)
    (st : crawl_state) :
  within_budget max_pages seed st ->
  within_budget max_pages seed (state_of (crawl_links max_pages l st)).
Proof.
  revert st. induction l as [|u l IH]; intros st Hst; [exact Hst|].
  simpl. pose proof (crawl_step_budget max_pages seed u st Hst) as Hstep.
  destruct (crawl_step max_pages u st); [apply IH; exact Hstep | exact Hstep..].
Qed.

Lemma seed_state_budget (max_pages : Z) (start_url : str) (seed : FetchResult) :
  within_budget max_pages seed (seed_state start_url seed).
Proof. split; [simpl; lia | reflexivity]. Qed.

(** C1, as the code has it. At every point of the crawl, after any number
    of candidates, the results are at most [max(max_pages, 1)], hence at
    most [max_pages] when it is 1 or more, and the first of them is the
    result of the seed, whatever its status; so for the list that
    [deep_crawl] returns. *)
Theorem deep_crawl_budget (start_url : str) (max_pages : Z) (url_pattern : option str) :
  (forall seed n,
     let st := crawl_point start_url max_pages url_pattern seed n in
     (Z.of_nat (length (results st)) <= Z.max 1 max_pages)%Z
     /\ ((1 <= max_pages)%Z -> (Z.of_nat (length (results st)) <= max_pages)%Z)
     /\ head (results st) = Some seed)
  /\ (forall rs log,
        deep_crawl start_url max_pages url_pattern = (Returned rs, log) ->
        (Z.of_nat (length rs) <= Z.max 1 max_pages)%Z
        /\ ((1 <= max_pages)%Z -> (Z.of_nat (length rs) <= max_pages)%Z)
        /\ exists seed, respond [] start_url = Returned seed /\ head rs = Some seed).
Proof.
  split.
  - intros seed n. cbn zeta. unfold crawl_point.
    destruct (crawl_links_budget max_pages seed
                (take n (discovered start_url url_pattern seed))
                (seed_state start_url seed)
                (seed_state_budget max_pages start_url seed)) as [Hlen Hhead].
    split; [exact Hlen|]. split; [lia | exact Hhead].
  - intros rs log. rewrite deep_crawl_eq.
    destruct (respond [] start_url) as [seed|e] eqn:Hseed; [|discriminate].
    destruct (crawl_links_budget max_pages seed
                (discovered start_url url_pattern seed)
                (seed_state start_url seed)
                (seed_state_budget max_pages start_url seed)) as [Hlen Hhead].
    destruct (crawl_links _ _ _) as [st|st|e st]; cbn [crawl_return state_of] in *;
      [| |discriminate].
    all: intros [= <- <-]; split; [exact Hlen|]; split; [lia|].
    all: exists seed; split; [reflexivity | exact Hhead].
Qed.

(** C10. When the fetch of the seed raises, [deep_crawl] raises the same
    exception, whatever its class, and returns no list; the candidates
    are not reached. *)
Theorem deep_crawl_seed_failure (start_url : str) (max_pages : Z)
    (url_pattern : option str) (e : exn) :
  respond [] start_url = Raised e ->
  deep_crawl start_url max_pages url_pattern = (Raised e, [start_url])
  /\ forall rs log, deep_crawl start_url max_pages url_pattern <> (Returned rs, log).
Proof.
  intros H. unfold deep_crawl. rewrite H. split; [reflexivity | discriminate].
Qed.

Lemma crawl_links_never_aborts (max_pages : Z) (l : list str) (st : crawl_state) :
  (forall log u m, respond log u <> Raised (BaseException m)) ->
  exists st', crawl_links max_pages l st = Exhausted st'
              \/ crawl_links max_pages l st = Broke st'.
Proof.
  intros Hno. revert st. induction l as [|u l IH]; intros st.
  - exists st. left. reflexivity.
  - simpl. unfold crawl_step.
    destruct (max_pages <=? _)%Z; [exists st; right; reflexivity|].
    destruct (decide (_ ∈ visited st)); [apply IH|].
    destruct (respond (fetched st) u) as [r|[m|m]] eqn:Hr.
    + destruct (status r <? 400)%Z; apply IH.
    + apply IH.
    + exfalso. exact (Hno _ _ _ Hr).
Qed.

(** An iteration that fetches: the budget is not reached and the
    normalised URL is new. *)
Lemma crawl_step_fetch (max_pages : Z) (url : str) (st : crawl_state) :
  (Z.of_nat (length (results st)) < max_pages)%Z ->
  _normalize_url url ∉ visited st ->
  crawl_step max_pages url st =
  let visited' := {[_normalize_url url]} ∪ visited st in
  let fetched' := fetched st ++ [url] in
  match respond (fetched st) url with
  | Returned result =>
      if (status result <? 400)%Z
      then Exhausted (mkState (results st ++ [result]) visited' fetched')
      else Exhausted (mkState (results st) visited' fetched')
  | Raised (Exception _) => Exhausted (mkState (results st) visited' fetched')
  | Raised e => Aborted e (mkState (results st) visited' fetched')
  end.
Proof.
  intros Hlen Hvis. unfold crawl_step.
  destruct (Z.leb_spec max_pages (Z.of_nat (length (results st)))); [lia|].
  rewrite decide_False by exact Hvis. reflexivity.
Qed.

(** The loop only adds: what was fetched and what was kept stay where
    they are, and every page added comes from a fetch added. *)
Lemma crawl_links_extends (max_pages : Z) (l : list str) (st : crawl_state) :
  let final := state_of (crawl_links max_pages l st) in
  fetched st `prefix_of` fetched final
  /\ results st `prefix_of` results final
  /\ length (results final) + length (fetched st)
     <= length (results st) + length (fetched final).
Proof.
  cbn zeta. revert st. induction l as [|u l IH]; intros st.
  - cbn [crawl_links state_of]. split; [reflexivity|]. split; [reflexivity | lia].
  - cbn [crawl_links]. unfold crawl_step.
    destruct (max_pages <=? _)%Z;
      [cbn [state_of]; split; [reflexivity|]; split; [reflexivity | lia]|].
    destruct (decide (_ ∈ visited st)); [apply IH|].
    destruct (respond (fetched st) u) as [r|[m|m]];
      [destruct (status r <? 400)%Z| |].
    + destruct (IH (mkState (results st ++ [r]) ({[_normalize_url u]} ∪ visited st)
                       (fetched st ++ [u]))) as (Hf & Hr & Hn).
      cbn [fetched results] in Hf, Hr, Hn. rewrite !length_app in Hn. cbn [length] in Hn.
      split; [etransitivity; [apply prefix_app_r; reflexivity | exact Hf]|].
      split; [etransitivity; [apply prefix_app_r; reflexivity | exact Hr] | lia].
    + destruct (IH (mkState (results st) ({[_normalize_url u]} ∪ visited st)
                       (fetched st ++ [u]))) as (Hf & Hr & Hn).
      cbn [fetched results] in Hf, Hr, Hn. rewrite !length_app in Hn. cbn [length] in Hn.
      split; [etransitivity; [apply prefix_app_r; reflexivity | exact Hf]|].
      split; [exact Hr | lia].
    + destruct (IH (mkState (results st) ({[_normalize_url u]} ∪ visited st)
                       (fetched st ++ [u]))) as (Hf & Hr & Hn).
      cbn [fetched results] in Hf, Hr, Hn. rewrite !length_app in Hn. cbn [length] in Hn.
      split; [etransitivity; [apply prefix_app_r; reflexivity | exact Hf]|].
      split; [exact Hr | lia].
    + cbn [state_of fetched results]. rewrite length_app. cbn [length].
      split; [apply prefix_app_r; reflexivity|]. split; [reflexivity | lia].
Qed.

(** The first candidate of the loop is fetched when the budget is not
    reached and its normalised URL is new. *)
Lemma crawl_links_fetches_first (max_pages : Z) (url : str) (rest : list str)
    (st : crawl_state) :
  (Z.of_nat (length (results st)) < max_pages)%Z ->
  _normalize_url url ∉ visited st ->
  (fetched st ++ [url])
    `prefix_of` fetched (state_of (crawl_links max_pages (url :: rest) st)).
Proof.
  intros Hlen Hvis. cbn [crawl_links].
  rewrite (crawl_step_fetch max_pages url st Hlen Hvis). cbn zeta.
  destruct (respond (fetched st) url) as [r|[m|m]];
    [destruct (status r <? 400)%Z| |].
  - exact (proj1 (crawl_links_extends max_pages rest
                    (mkState (results st ++ [r]) ({[_normalize_url url]} ∪ visited st)
                             (fetched st ++ [url])))).
  - exact (proj1 (crawl_links_extends max_pages rest
                    (mkState (results st) ({[_normalize_url url]} ∪ visited st)
                             (fetched st ++ [url])))).
  - exact (proj1 (crawl_links_extends max_pages rest
                    (mkState (results st) ({[_normalize_url url]} ∪ visited st)
                             (fetched st ++ [url])))).
  - reflexivity.
Qed.

(** C6. In the loop, a candidate whose turn comes with the budget not
    reached and its normalised URL not visited is fetched, and nothing
    that was fetched or kept before is lost. When the fetch raises an
    exception, no page is added for it and the loop goes on: the next
    candidate, if its normalised URL is new, is fetched. When the fetch
    returns a page with a status below 400, the page is in the results,
    right after those that were there; when the status is 400 or more,
    no page is added for it (the pages added are at most as many as the
    fetches made after it, and none when it is the last candidate). In
    both cases the loop goes on with the next candidate. A crawl whose
    fetches raise only exceptions is never aborted by a candidate: it
    returns its results. *)
Theorem crawl_candidate_fetch (max_pages : Z) (url : str) (rest : list str)
    (st : crawl_state) :
  (Z.of_nat (length (results st)) < max_pages)%Z ->
  _normalize_url url ∉ visited st ->
  let seen := {[_normalize_url url]} ∪ visited st in
  let log := fetched st ++ [url] in
  let final := state_of (crawl_links max_pages (url :: rest) st) in
  log `prefix_of` fetched final
  /\ results st `prefix_of` results final
  /\ (forall msg, respond (fetched st) url = Raised (Exception msg) ->
        crawl_step max_pages url st = Exhausted (mkState (results st) seen log)
        /\ crawl_links max_pages (url :: rest) st
           = crawl_links max_pages rest (mkState (results st) seen log)
        /\ length (results final) + length log
           <= length (results st) + length (fetched final)
        /\ (rest = [] -> results final = results st /\ fetched final = log)
        /\ (forall next rest', rest = next :: rest' ->
              _normalize_url next ∉ seen ->
              (log ++ [next]) `prefix_of` fetched final))
  /\ (forall result, respond (fetched st) url = Returned result ->
        ((status result < 400)%Z ->
           crawl_step max_pages url st
           = Exhausted (mkState (results st ++ [result]) seen log)
           /\ crawl_links max_pages (url :: rest) st
              = crawl_links max_pages rest (mkState (results st ++ [result]) seen log)
           /\ (results st ++ [result]) `prefix_of` results final
           /\ (rest = [] ->
               results final = results st ++ [result] /\ fetched final = log)
           /\ (forall next rest', rest = next :: rest' ->
                 _normalize_url next ∉ seen ->
                 (Z.of_nat (length (results st)) + 1 < max_pages)%Z ->
                 (log ++ [next]) `prefix_of` fetched final))
        /\ ((400 <= status result)%Z ->
           crawl_step max_pages url st = Exhausted (mkState (results st) seen log)
           /\ crawl_links max_pages (url :: rest) st
              = crawl_links max_pages rest (mkState (results st) seen log)
           /\ length (results final) + length log
              <= length (results st) + length (fetched final)
           /\ (rest = [] -> results final = results st /\ fetched final = log)
           /\ (forall next rest', rest = next :: rest' ->
                 _normalize_url next ∉ seen ->
                 (log ++ [next]) `prefix_of` fetched final)))
  /\ ((forall log u m, respond log u <> Raised (BaseException m)) ->
      crawl_return (crawl_links max_pages (url :: rest) st)
      = (Returned (results final), fetched final)).
Proof.
  intros Hlen Hvis. cbn zeta.
  pose proof (crawl_step_fetch max_pages url st Hlen Hvis) as Hstep. cbn zeta in Hstep.
  set (seen := {[_normalize_url url]} ∪ visited st) in *.
  set (log := fetched st ++ [url]) in *.
  assert (Hdropped :
    crawl_step max_pages url st = Exhausted (mkState (results st) seen log) ->
    crawl_links max_pages (url :: rest) st
    = crawl_links max_pages rest (mkState (results st) seen log)
    /\ length (results (state_of (crawl_links max_pages (url :: rest) st))) + length log
       <= length (results st)
          + length (fetched (state_of (crawl_links max_pages (url :: rest) st)))
    /\ (rest = [] ->
        results (state_of (crawl_links max_pages (url :: rest) st)) = results st
        /\ fetched (state_of (crawl_links max_pages (url :: rest) st)) = log)
    /\ (forall next rest', rest = next :: rest' ->
          _normalize_url next ∉ seen ->
          (log ++ [next])
            `prefix_of` fetched (state_of (crawl_links max_pages (url :: rest) st)))).
  { intros Hs.
    assert (Heq : crawl_links max_pages (url :: rest) st
                  = crawl_links max_pages rest (mkState (results st) seen log))
      by (cbn [crawl_links]; rewrite Hs; reflexivity).
    split; [exact Heq|]. rewrite Heq.
    split; [exact (proj2 (proj2 (crawl_links_extends max_pages rest
                                   (mkState (results st) seen log))))|].
    split; [intros ->; split; reflexivity|].
    intros next rest' -> Hnext.
    exact (crawl_links_fetches_first max_pages next rest'
             (mkState (results st) seen log) Hlen Hnext). }
  split; [exact (crawl_links_fetches_first max_pages url rest st Hlen Hvis)|].
  split; [exact (proj1 (proj2 (crawl_links_extends max_pages (url :: rest) st)))|].
  split; [|split].
  - intros msg Hr. rewrite Hr in Hstep. split; [exact Hstep | exact (Hdropped Hstep)].
  - intros result Hr. rewrite Hr in Hstep. split.
    + intros Hlt. destruct (Z.ltb_spec (status result) 400); [|lia].
      split; [exact Hstep|].
      assert (Heq : crawl_links max_pages (url :: rest) st
                    = crawl_links max_pages rest
                        (mkState (results st ++ [result]) seen log))
        by (cbn [crawl_links]; rewrite Hstep; reflexivity).
      split; [exact Heq|]. rewrite Heq.
      split; [exact (proj1 (proj2 (crawl_links_extends max_pages rest
                                     (mkState (results st ++ [result]) seen log))))|].
      split; [intros ->; split; reflexivity|].
      intros next rest' -> Hnext Hroom.
      apply (crawl_links_fetches_first max_pages next rest'
               (mkState (results st ++ [result]) seen log)); [|exact Hnext].
      cbn [results]. rewrite length_app. cbn [length]. lia.
    + intros Hge. destruct (Z.ltb_spec (status result) 400); [lia|].
      split; [exact Hstep | exact (Hdropped Hstep)].
  - intros Hno.
    destruct (crawl_links_never_aborts max_pages (url :: rest) st Hno)
      as [st' [-> | ->]]; reflexivity.
Qed.

(** *** Normalised URLs *)

Lemma crawl_step_visited (max_pages : Z) (url : str) (st : crawl_state) :
  _normalize_url url ∈ visited st ->
  crawl_step max_pages url st = Broke st \/ crawl_step max_pages url st = Exhausted st.
Proof.
  intros Hin. unfold crawl_step.
  destruct (max_pages <=? _)%Z; [left; reflexivity|].
  rewrite decide_True by exact Hin. right. reflexivity.
Qed.

Lemma crawl_links_broke (max_pages : Z) (l : list str) (st : crawl_state) :
  (max_pages <=? Z.of_nat (length (results st)))%Z = true ->
  crawl_return (crawl_links max_pages l st) = (Returned (results st), fetched st).
Proof.
  intros H. destruct l as [|u l]; [reflexivity|].
  simpl. unfold crawl_step. rewrite H. reflexivity.
Qed.

Lemma crawl_links_skip_visited (max_pages : Z) (url : str) (rest : list str)
    (st : crawl_state) :
  _normalize_url url ∈ visited st ->
  crawl_return (crawl_links max_pages (url :: rest) st)
  = crawl_return (crawl_links max_pages rest st).
Proof.
  intros Hin. simpl. unfold crawl_step.
  destruct (max_pages <=? _)%Z eqn:E.
  - rewrite crawl_links_broke by exact E. reflexivity.
  - rewrite decide_True by exact Hin. reflexivity.
Qed.

Lemma crawl_step_marks (max_pages : Z) (url : str) (st st' : crawl_state) :
  crawl_step max_pages url st = Exhausted st' ->
  _normalize_url url ∈ visited st' /\ visited st ⊆ visited st'.
Proof using urlparse respond.
  unfold crawl_step.
  destruct (max_pages <=? _)%Z; [discriminate|].
  destruct (decide (_ ∈ visited st)) as [Hin|Hin].
  - intros [= <-]. split; [exact Hin | reflexivity].
  - destruct (respond (fetched st) url) as [r|[m|m]];
      [destruct (status r <? 400)%Z| |discriminate];
      intros [= <-]; cbn [visited];
      (split; [apply elem_of_union_l, elem_of_singleton; reflexivity
              | apply union_subseteq_r]).
Qed.

Lemma crawl_links_marks (max_pages : Z) (l : list str) (st st' : crawl_state) :
  crawl_links max_pages l st = Exhausted st' ->
  visited st ⊆ visited st'
  /\ forall u, u ∈ l -> _normalize_url u ∈ visited st'.
Proof using urlparse respond.
  revert st. induction l as [|x l IH]; intros st.
  - intros [= <-]. split; [reflexivity|]. intros u Hu. inversion Hu.
  - simpl. destruct (crawl_step max_pages x st) as [st1| |] eqn:Hs;
      [|discriminate..].
    intros H. destruct (IH _ H) as [Hsub Hall].
    destruct (crawl_step_marks _ _ _ _ Hs) as [Hx Hsub1].
    split; [etransitivity; eassumption|].
    intros u Hu. apply elem_of_cons in Hu.
    destruct Hu as [->|Hu]; [eapply elem_of_weaken; eassumption|].
    apply Hall. exact Hu.
Qed.

(** No normalised URL is fetched twice: the normalised URLs of the
    fetched URLs are distinct, and all visited. *)
Definition fetched_once (st : crawl_state) : Prop :=
  NoDup (map _normalize_url (fetched st))
  /\ forall u, u ∈ fetched st -> _normalize_url u ∈ visited st.

Lemma fetched_once_fetch (url : str) (rs : list FetchResult) (st : crawl_state) :
  _normalize_url url ∉ visited st ->
  fetched_once st ->
  fetched_once (mkState rs ({[_normalize_url url]} ∪ visited st) (fetched st ++ [url])).
Proof using urlparse.
  intros Hnew [Hnd Hvis]. split; cbn [fetched visited].
  - rewrite map_app. apply NoDup_app. split; [exact Hnd|].
    split; [|apply NoDup_singleton].
    intros n Hn Hn'. apply list_elem_of_singleton in Hn'. subst n.
    change (map _normalize_url (fetched st))
      with (_normalize_url <$> fetched st) in Hn.
    apply list_elem_of_fmap in Hn. destruct Hn as (u & Hu & Hin).
    apply Hnew. rewrite Hu. apply Hvis. exact Hin.
  - intros u Hu. apply elem_of_app in Hu. destruct Hu as [Hu|Hu].
    + apply elem_of_union_r. apply Hvis. exact Hu.
    + apply list_elem_of_singleton in Hu. subst u.
      apply elem_of_union_l, elem_of_singleton. reflexivity.
Qed.

Lemma crawl_step_fetched_once (max_pages : Z) (url : str) (st : crawl_state) :
  fetched_once st -> fetched_once (state_of (crawl_step max_pages url st)).
Proof using urlparse respond.
  intros Hst. unfold crawl_step.
  destruct (max_pages <=? _)%Z; [exact Hst|].
  destruct (decide (_ ∈ visited st)) as [Hin|Hnew]; [exact Hst|].
  destruct (respond (fetched st) url) as [r|[m|m]];
    [destruct (status r <? 400)%Z| |];
    cbn [state_of]; apply fetched_once_fetch; assumption.
Qed.

Lemma crawl_links_fetched_once (max_pages : Z) (l : list str) (st : crawl_state) :
  fetched_once st -> fetched_once (state_of (crawl_links max_pages l st)).
Proof using urlparse respond.
  revert st. induction l as [|u l IH]; intros st Hst; [exact Hst|].
  simpl. pose proof (crawl_step_fetched_once max_pages u st Hst) as Hstep.
  destruct (crawl_step max_pages u st); [apply IH; exact Hstep | exact Hstep..].
Qed.

Lemma deep_crawl_fetched_once (start_url : str) (max_pages : Z)
    (url_pattern : option str) :
  NoDup (map _normalize_url (snd (deep_crawl start_url max_pages url_pattern))).
Proof.
  rewrite deep_crawl_eq.
  destruct (respond [] start_url) as [seed|e].
  - assert (H0 : fetched_once (seed_state start_url seed)).
    { split; cbn [seed_state fetched visited map].
      - apply NoDup_singleton.
      - intros u Hu. apply list_elem_of_singleton in Hu. subst u.
        apply elem_of_singleton. reflexivity. }
    destruct (crawl_links_fetched_once max_pages
                (discovered start_url url_pattern seed) _ H0) as [Hnd _].
    destruct (crawl_links _ _ _); exact Hnd.
  - apply NoDup_singleton.
Qed.

(** C9. [_normalize_url] returns the scheme, "://", the host and the
    path without its trailing slashes ("/" when nothing is left), and
    nothing else: two URLs that differ only in what follows the path
    (parameters, query, fragment) have the same normalised URL. In the
    loop of [deep_crawl] a candidate whose normalised URL is the one of an
    earlier candidate, or of any visited URL, is not fetched: the crawl
    returns and fetches what it does without that candidate. Of two
    different URLs with one normalised URL, [deep_crawl] fetches at most
    one. *)
Theorem normalize_url_drops_query :
  (forall u,
     _normalize_url u
     = scheme (urlparse u) ++ L "://" ++ netloc (urlparse u)
       ++ (if truthy (rstrip_char "/"%char (path (urlparse u)))
           then rstrip_char "/"%char (path (urlparse u)) else L "/"))
  /\ (forall u1 u2,
        scheme (urlparse u1) = scheme (urlparse u2) ->
        netloc (urlparse u1) = netloc (urlparse u2) ->
        path (urlparse u1) = path (urlparse u2) ->
        _normalize_url u1 = _normalize_url u2)
  /\ (forall max_pages url st,
        _normalize_url url ∈ visited st ->
        fetched (state_of (crawl_step max_pages url st)) = fetched st
        /\ results (state_of (crawl_step max_pages url st)) = results st)
  /\ (forall max_pages before u1 between u2 rest st,
        _normalize_url u1 = _normalize_url u2 ->
        crawl_return
          (crawl_links max_pages (before ++ u1 :: between ++ u2 :: rest) st)
        = crawl_return
            (crawl_links max_pages (before ++ u1 :: between ++ rest) st))
  /\ (forall start_url max_pages url_pattern u1 u2,
        u1 <> u2 ->
        _normalize_url u1 = _normalize_url u2 ->
        u1 ∈ snd (deep_crawl start_url max_pages url_pattern) ->
        u2 ∉ snd (deep_crawl start_url max_pages url_pattern)).
Proof.
  split; [|split; [|split; [|split]]].
  - intros u. unfold _normalize_url.
    destruct (rstrip_char "/"%char (path (urlparse u))); reflexivity.
  - intros u1 u2 Hs Hn Hp. unfold _normalize_url. rewrite Hs, Hn, Hp. reflexivity.
  - intros max_pages url st Hin.
    destruct (crawl_step_visited max_pages url st Hin) as [-> | ->];
      split; reflexivity.
  - intros max_pages before u1 between u2 rest st Heq.
    replace (before ++ u1 :: between ++ u2 :: rest)
      with ((before ++ u1 :: between) ++ u2 :: rest)
      by (rewrite <- app_assoc; reflexivity).
    replace (before ++ u1 :: between ++ rest)
      with ((before ++ u1 :: between) ++ rest)
      by (rewrite <- app_assoc; reflexivity).
    rewrite !(crawl_links_app max_pages (before ++ u1 :: between)).
    destruct (crawl_links max_pages (before ++ u1 :: between) st) as [st'| |] eqn:Hl;
      [|reflexivity..].
    apply crawl_links_skip_visited.
    destruct (crawl_links_marks _ _ _ _ Hl) as [_ Hall].
    rewrite <- Heq. apply Hall.
    apply elem_of_app. right. left.
  - intros start_url max_pages url_pattern u1 u2 Hne Heq H1 H2.
    pose proof (deep_crawl_fetched_once start_url max_pages url_pattern) as Hnd.
    revert Hnd H1 H2.
    generalize (snd (deep_crawl start_url max_pages url_pattern)) as log.
    induction log as [|x log IH]; intros Hnd H1 H2; [inversion H1|].
    simpl in Hnd. apply NoDup_cons in Hnd. destruct Hnd as [Hx Hnd].
    apply elem_of_cons in H1. apply elem_of_cons in H2.
    change (map _normalize_url log) with (_normalize_url <$> log) in Hx.
    destruct H1 as [->|H1], H2 as [->|H2].
    + contradiction.
    + apply Hx. rewrite Heq. apply list_elem_of_fmap_2. exact H2.
    + apply Hx. rewrite <- Heq. apply list_elem_of_fmap_2. exact H1.
    + apply IH; assumption.
Qed.

End Crawler.

End Crawl.

(** *** A small site to run the crawler on *)

Module Sample.

Import Crawl.

Definition not_in (cs : str) (c : ascii) : bool := negb (existsb (eqc c) cs).

(** [urlparse] on URLs of the shape scheme://host/path?query#fragment. *)
Definition urlparse (u : str) : ParseResult :=
  let r0 := drop 3 (drop_while (not_in (L ":")) u) in
  let r1 := drop_while (not_in (L "/?#")) r0 in
  let r2 := drop_while (not_in (L "?#")) r1 in
  mkParse (take_while (not_in (L ":")) u)
          (take_while (not_in (L "/?#")) r0)
          (take_while (not_in (L "?#")) r1)
          []
          (if startswith r2 (L "?") then take_while (not_in (L "#")) (drop 1 r2) else [])
          (drop 1 (drop_while (not_in (L "#")) r2)).

(** [urljoin] for an absolute URL or a path from the root. *)
Definition urljoin (base href : str) : str :=
  if startswith href (L "/")
  then scheme (urlparse base) ++ L "://" ++ netloc (urlparse base) ++ href
  else href.

(** A page is written as the list of its hrefs. *)
Definition hrefs (html : str) : list str := split_ws html.

(** Patterns without wildcards. *)
Definition fnmatch (name pattern : str) : bool := bool_decide (name = pattern).

Definition page (body : string) (u : string) (code : Z) : Fetch.FetchResult :=
  Fetch.mkFetchResult (L body) (L u) code None None [].

Definition start_url : str := L "https://e.com/".

Definition seed_page : Fetch.FetchResult :=
  page "/a?x=1 /a?x=2 /gone /boom /b#top https://other.com/z /pic.PNG mailto:me@e.com"
       "https://e.com/" 200.

(** The site: one page answers 404 and one fetch times out. *)
Definition respond (history : list str) (u : str) : Fetch.outcome Fetch.FetchResult :=
  if bool_decide (u = start_url) then Fetch.Returned seed_page
  else if bool_decide (u = L "https://e.com/a?x=1")
  then Fetch.Returned (page "" "https://e.com/a?x=1" 200)
  else if bool_decide (u = L "https://e.com/gone")
  then Fetch.Returned (page "" "https://e.com/gone" 404)
  else if bool_decide (u = L "https://e.com/b#top")
  then Fetch.Returned (page "" "https://e.com/b" 200)
  else Fetch.Raised (Fetch.Exception (L "Timeout 30000ms exceeded")).

(** The same site when the seed cannot be reached. *)
Definition respond_down (history : list str) (u : str)
  : Fetch.outcome Fetch.FetchResult :=
  Fetch.Raised (Fetch.Exception (L "net::ERR_CONNECTION_REFUSED")).

Example extracted :
  _extract_links urlparse urljoin hrefs (Fetch.html seed_page) start_url (L "e.com")
  = [L "https://e.com/a?x=1"; L "https://e.com/gone"; L "https://e.com/boom";
     L "https://e.com/b#top"].
Proof. vm_compute. reflexivity. Qed.

Example crawl_10 :
  deep_crawl urlparse urljoin hrefs fnmatch respond start_url 10 None
  = (Fetch.Returned [seed_page; page "" "https://e.com/a?x=1" 200;
                     page "" "https://e.com/b" 200],
     [start_url; L "https://e.com/a?x=1"; L "https://e.com/gone";
      L "https://e.com/boom"; L "https://e.com/b#top"]).
Proof. vm_compute. reflexivity. Qed.

Definition boom : str := L "https://e.com/boom".

Definition after_seed : crawl_state := seed_state urlparse start_url seed_page.

(** C1, as the specification has it, fails for a budget of 0: the seed
    is fetched and kept before the budget is looked at. *)
Lemma deep_crawl_over_budget :
  deep_crawl urlparse urljoin hrefs fnmatch respond start_url 0 None
  = (Fetch.Returned [seed_page], [start_url])
  /\ ~ (forall (urlparse : str -> ParseResult) (urljoin : str -> str -> str)
               (hrefs : str -> list str) (fnmatch : str -> str -> bool)
               (respond : list str -> str -> Fetch.outcome Fetch.FetchResult)
               (start_url : str) (max_pages : Z) (url_pattern : option str)
               (rs : list Fetch.FetchResult) (log : list str),
          deep_crawl urlparse urljoin hrefs fnmatch respond start_url max_pages
                     url_pattern = (Fetch.Returned rs, log) ->
          (Z.of_nat (length rs) <= max_pages)%Z).
Proof.
  assert (H0 : deep_crawl urlparse urljoin hrefs fnmatch respond start_url 0 None
               = (Fetch.Returned [seed_page], [start_url]))
    by (vm_compute; reflexivity).
  split; [exact H0|].
  intros H.
  pose proof (H urlparse urljoin hrefs fnmatch respond start_url 0%Z None
                [seed_page] [start_url] H0) as H1.
  cbn [length Z.of_nat] in H1. lia.
Qed.

Lemma deep_crawl_budget_witness :
  deep_crawl urlparse urljoin hrefs fnmatch respond start_url 2 None
  = (Fetch.Returned [seed_page; page "" "https://e.com/a?x=1" 200],
     [start_url; L "https://e.com/a?x=1"])
  /\ (1 <= 2)%Z
  /\ (Z.of_nat (length [seed_page; page "" "https://e.com/a?x=1" 200]) <= 2)%Z.
Proof.
  assert (H : deep_crawl urlparse urljoin hrefs fnmatch respond start_url 2 None
              = (Fetch.Returned [seed_page; page "" "https://e.com/a?x=1" 200],
                 [start_url; L "https://e.com/a?x=1"]))
    by (vm_compute; reflexivity).
  assert (H2 : (1 <= 2)%Z) by discriminate.
  split; [exact H|]. split; [exact H2|].
  exact (proj1 (proj2 (proj2 (deep_crawl_budget urlparse urljoin hrefs fnmatch
                                respond start_url 2 None)
                         [seed_page; page "" "https://e.com/a?x=1" 200]
                         [start_url; L "https://e.com/a?x=1"] H))
           H2).
Defined.

Lemma crawl_candidate_fetch_witness :
  (Z.of_nat (length (results after_seed)) < 10)%Z
  /\ (_normalize_url urlparse boom ∉ visited after_seed)
  /\ respond (fetched after_seed) boom
     = Fetch.Raised (Fetch.Exception (L "Timeout 30000ms exceeded"))
  /\ crawl_step urlparse respond 10 boom after_seed
     = Exhausted (mkState (results after_seed)
                          ({[_normalize_url urlparse boom]} ∪ visited after_seed)
                          (fetched after_seed ++ [boom]))
  /\ (fetched after_seed ++ [boom])
       `prefix_of`
       fetched (state_of (crawl_links urlparse respond 10
                            [boom; L "https://e.com/b#top"] after_seed)).
Proof.
  assert (H1 : (Z.of_nat (length (results after_seed)) < 10)%Z) by reflexivity.
  assert (H2 : _normalize_url urlparse boom ∉ visited after_seed).
  { unfold after_seed, seed_state. cbn [visited].
    apply not_elem_of_singleton. vm_compute. discriminate. }
  assert (H3 : respond (fetched after_seed) boom
               = Fetch.Raised (Fetch.Exception (L "Timeout 30000ms exceeded")))
    by (vm_compute; reflexivity).
  split; [exact H1|]. split; [exact H2|]. split; [exact H3|].
  pose proof (crawl_candidate_fetch urlparse respond 10 boom
                [L "https://e.com/b#top"] after_seed H1 H2) as H.
  cbn zeta in H.
  split; [exact (proj1 (proj1 (proj2 (proj2 H)) (L "Timeout 30000ms exceeded") H3))
         | exact (proj1 H)].
Defined.

(** The crawl of the sample site from the seed, candidate by candidate:
    the page that answers 404 and the fetch that times out add nothing,
    the two pages that answer 200 are kept, and all four are fetched. *)
Example crawl_candidates_sample :
  state_of (crawl_links urlparse respond 10
              [L "https://e.com/a?x=1"; L "https://e.com/gone"; boom;
               L "https://e.com/b#top"] after_seed)
  = mkState [seed_page; page "" "https://e.com/a?x=1" 200; page "" "https://e.com/b" 200]
            (visited (state_of (crawl_links urlparse respond 10
              [L "https://e.com/a?x=1"; L "https://e.com/gone"; boom;
               L "https://e.com/b#top"] after_seed)))
            [start_url; L "https://e.com/a?x=1"; L "https://e.com/gone"; boom;
             L "https://e.com/b#top"].
Proof. vm_compute. reflexivity. Qed.

Lemma normalize_url_drops_query_witness :
  scheme (urlparse (L "https://e.com/a?x=1")) = scheme (urlparse (L "https://e.com/a?x=2"))
  /\ netloc (urlparse (L "https://e.com/a?x=1")) = netloc (urlparse (L "https://e.com/a?x=2"))
  /\ path (urlparse (L "https://e.com/a?x=1")) = path (urlparse (L "https://e.com/a?x=2"))
  /\ query (urlparse (L "https://e.com/a?x=1")) <> query (urlparse (L "https://e.com/a?x=2"))
  /\ _normalize_url urlparse (L "https://e.com/a?x=1")
     = _normalize_url urlparse (L "https://e.com/a?x=2").
Proof.
  assert (Hs : scheme (urlparse (L "https://e.com/a?x=1"))
               = scheme (urlparse (L "https://e.com/a?x=2")))
    by (vm_compute; reflexivity).
  assert (Hn : netloc (urlparse (L "https://e.com/a?x=1"))
               = netloc (urlparse (L "https://e.com/a?x=2")))
    by (vm_compute; reflexivity).
  assert (Hp : path (urlparse (L "https://e.com/a?x=1"))
               = path (urlparse (L "https://e.com/a?x=2")))
    by (vm_compute; reflexivity).
  split; [exact Hs|]. split; [exact Hn|]. split; [exact Hp|].
  split; [vm_compute; discriminate|].
  exact (proj1 (proj2 (normalize_url_drops_query urlparse urljoin hrefs fnmatch
                         respond))
           (L "https://e.com/a?x=1") (L "https://e.com/a?x=2") Hs Hn Hp).
Defined.

Lemma deep_crawl_seed_failure_witness :
  respond_down [] start_url
  = Fetch.Raised (Fetch.Exception (L "net::ERR_CONNECTION_REFUSED"))
  /\ deep_crawl urlparse urljoin hrefs fnmatch respond_down start_url 10 None
     = (Fetch.Raised (Fetch.Exception (L "net::ERR_CONNECTION_REFUSED")), [start_url]).
Proof.
  split; [reflexivity|].
  exact (proj1 (deep_crawl_seed_failure urlparse urljoin hrefs fnmatch respond_down
                  start_url 10 None
                  (Fetch.Exception (L "net::ERR_CONNECTION_REFUSED")) eq_refl)).
Defined.

End Sample.

(** ** Substitution of a pattern by a fixed text *)

Module Re.

(** [re.sub(pattern, repl, s)] for a pattern that matches no empty text
    and a replacement without group references. [m prev s] is the length
    of the match of the pattern at the start of [s], if there is one,
    [prev] being the character before [s]. At a match the scan writes
    [repl] and goes on after it; otherwise it keeps the character. *)
Equations? sub_const (m : option ascii -> str -> option nat) (repl : str)
    (prev : option ascii) (s : str) : str by wf (length s) lt :=
  sub_const m repl prev [] := [];
  sub_const m repl prev (c :: r) with m prev (c :: r) := {
    | Some n := repl ++ sub_const m repl (last (take n (c :: r)))
                                  (skipn (Nat.pred n) r)
    | None := c :: sub_const m repl (Some c) r }.
Proof.
  all: simpl; try lia.
  rewrite length_skipn. lia.
Qed.

(** The length of the run of characters of the class [p] that [s] starts
    with. *)
Definition run_length (p : ascii -> bool) (s : str) : nat :=
  length (take_while p s).

(** A greedy run of [k] or more characters of the class [p], as the
    patterns [p+] (k = 1) and [p{k,}] match it. *)
Definition match_run (p : ascii -> bool) (k : nat) (prev : option ascii) (s : str)
  : option nat :=
  if k <=? run_length p s then Some (run_length p s) else None.

(** The length of the longest run of characters of the class [p] in [s],
    [cur] counting the run that [s] continues. *)
Fixpoint max_run_from (p : ascii -> bool) (cur : nat) (s : str) : nat :=
  match s with
  | [] => cur
  | c :: r =>
      if p c then max_run_from p (S cur) r
      else Nat.max cur (max_run_from p 0 r)
  end.

Definition max_run (p : ascii -> bool) (s : str) : nat := max_run_from p 0 s.

Lemma sub_const_cons (m : option ascii -> str -> option nat) (repl : str)
    (prev : option ascii) (c : ascii) (r : str) :
  sub_const m repl prev (c :: r) =
  match m prev (c :: r) with
  | Some n => repl ++ sub_const m repl (last (take n (c :: r))) (skipn (Nat.pred n) r)
  | None => c :: sub_const m repl (Some c) r
  end.
Proof. simp sub_const. destruct (m prev (c :: r)); reflexivity. Qed.

(** The output is made of characters of the input and of the
    replacement. *)
Lemma sub_const_chars (Q : ascii -> Prop) (m : option ascii -> str -> option nat)
    (repl : str) (s : str) (prev : option ascii) :
  Forall Q repl -> Forall Q s -> Forall Q (sub_const m repl prev s).
Proof.
  intros Hrepl. remember (length s) as n eqn:Hn.
  revert s prev Hn. induction n as [n IH] using lt_wf_ind. intros s prev -> Hs.
  destruct s as [|c r]; [simp sub_const; constructor|].
  rewrite sub_const_cons. inversion Hs as [|? ? Hc Hr]; subst.
  destruct (m prev (c :: r)) as [k|].
  - apply Forall_app. split; [exact Hrepl|].
    eapply IH; [|reflexivity|apply Forall_drop; exact Hr].
    rewrite length_skipn. simpl. lia.
  - constructor; [exact Hc|]. eapply IH; [|reflexivity|exact Hr]. simpl. lia.
Qed.

(** Where the pattern matches nowhere, nothing changes. *)
Lemma sub_const_no_match (m : option ascii -> str -> option nat) (repl : str)
    (s : str) (prev : option ascii) :
  (forall pre a b, s = a ++ b -> m pre b = None) ->
  sub_const m repl prev s = s.
Proof.
  revert prev. induction s as [|c r IH]; intros prev Hno; [simp sub_const; reflexivity|].
  rewrite sub_const_cons, (Hno prev [] (c :: r) eq_refl). f_equal.
  apply IH. intros pre a b ->. apply (Hno pre (c :: a) b). reflexivity.
Qed.

(** With an empty replacement the scan only deletes. *)
Lemma sub_const_deletes (m : option ascii -> str -> option nat)
    (s : str) (prev : option ascii) :
  sub_const m [] prev s `sublist_of` s.
Proof.
  remember (length s) as n eqn:Hn.
  revert s prev Hn. induction n as [n IH] using lt_wf_ind. intros s prev ->.
  destruct s as [|c r]; [simp sub_const; constructor|].
  rewrite sub_const_cons.
  destruct (m prev (c :: r)) as [k|].
  - simpl. apply sublist_cons.
    etransitivity; [|apply (sublist_drop r (Nat.pred k))].
    eapply IH; [|reflexivity]. rewrite length_skipn. simpl. lia.
  - apply sublist_skip. eapply IH; [|reflexivity]. simpl. lia.
Qed.

(** *** Runs of a class *)

Section Runs.

Variable p : ascii -> bool.

Lemma take_while_app_drop (s : str) : take_while p s ++ drop_while p s = s.
Proof.
  induction s as [|c r IH]; simpl; [reflexivity|].
  destruct (p c); simpl; [f_equal; exact IH | reflexivity].
Qed.

Lemma drop_run_length (s : str) : skipn (run_length p s) s = drop_while p s.
Proof.
  unfold run_length. induction s as [|c r IH]; simpl; [reflexivity|].
  destruct (p c); simpl; [exact IH | reflexivity].
Qed.

Lemma run_length_drop_while (s : str) : run_length p (drop_while p s) = 0.
Proof.
  unfold run_length. induction s as [|c r IH]; simpl; [reflexivity|].
  destruct (p c) eqn:E; [exact IH|]. simpl. rewrite E. reflexivity.
Qed.

Lemma take_while_class (s : str) : Forall (fun c => p c = true) (take_while p s).
Proof.
  induction s as [|c r IH]; simpl; [constructor|].
  destruct (p c) eqn:E; constructor; assumption.
Qed.

Lemma max_run_from_run (cur : nat) (run s : str) :
  Forall (fun c => p c = true) run ->
  max_run_from p cur (run ++ s) = max_run_from p (cur + length run) s.
Proof.
  intros H. revert cur. induction H as [|c run Hc Hrun IH]; intros cur; simpl.
  - rewrite Nat.add_0_r. reflexivity.
  - rewrite Hc, IH. f_equal. lia.
Qed.

Lemma max_run_from_ge (cur : nat) (s : str) :
  cur + run_length p s <= max_run_from p cur s.
Proof.
  unfold run_length. revert cur. induction s as [|c r IH]; intros cur; simpl; [lia|].
  destruct (p c); simpl; [specialize (IH (S cur)) |]; lia.
Qed.

Lemma max_run_from_mono (cur cur' : nat) (s : str) :
  cur <= cur' -> max_run_from p cur s <= max_run_from p cur' s.
Proof.
  revert cur cur'. induction s as [|c r IH]; intros cur cur' H; simpl; [exact H|].
  destruct (p c); [apply IH; lia | lia].
Qed.

Lemma max_run_from_tail (cur : nat) (c : ascii) (s : str) :
  max_run_from p 0 s <= max_run_from p cur (c :: s).
Proof.
  simpl. destruct (p c); [apply max_run_from_mono; lia | lia].
Qed.

Lemma run_length_suffix (a b : str) : run_length p b <= max_run p (a ++ b).
Proof.
  unfold max_run. induction a as [|c a IH]; simpl app.
  - pose proof (max_run_from_ge 0 b). lia.
  - etransitivity; [exact IH | apply max_run_from_tail].
Qed.

Variable k : nat.
Variable repl : str.

(** What the scan writes for the run that [s] starts with. *)
Definition written (s : str) : nat :=
  if k <=? run_length p s then length repl else run_length p s.

Hypothesis k_pos : 1 <= k.
Hypothesis repl_class : Forall (fun c => p c = true) repl.
Hypothesis repl_short : length repl <= k.

Lemma written_bound (s : str) : written s <= Nat.max (k - 1) (length repl).
Proof. unfold written. destruct (Nat.leb_spec k (run_length p s)); lia. Qed.

Lemma sub_run_bounded (s : str) (cur : nat) (prev : option ascii) :
  cur + written s <= Nat.max (k - 1) (length repl) ->
  max_run_from p cur (sub_const (match_run p k) repl prev s)
  <= Nat.max (k - 1) (length repl).
Proof.
  remember (length s) as n eqn:Hn.
  revert s cur prev Hn. induction n as [n IH] using lt_wf_ind.
  intros s cur prev -> Hcur.
  destruct s as [|c r]; [simp sub_const; simpl; lia|].
  rewrite sub_const_cons. unfold match_run. unfold written in Hcur.
  destruct (Nat.leb_spec k (run_length p (c :: r))) as [Hk|Hk].
  - rewrite max_run_from_run by exact repl_class.
    eapply IH; [|reflexivity|].
    + rewrite length_skipn. simpl. lia.
    + assert (Hrest : skipn (Nat.pred (run_length p (c :: r))) r
                      = drop_while p (c :: r)).
      { rewrite <- drop_run_length.
        destruct (run_length p (c :: r)) eqn:E; [lia | reflexivity]. }
      rewrite Hrest. unfold written. rewrite run_length_drop_while.
      destruct (Nat.leb_spec k 0); lia.
  - simpl. unfold run_length in Hk, Hcur. simpl in Hk, Hcur.
    destruct (p c) eqn:Ec; simpl in Hk, Hcur.
    + eapply IH; [|reflexivity|]; [simpl; lia|].
      unfold written. fold (run_length p r) in Hk, Hcur.
      destruct (Nat.leb_spec k (run_length p r)); lia.
    + apply Nat.max_lub; [lia|].
      eapply IH; [|reflexivity|]; [simpl; lia|].
      pose proof (written_bound r). lia.
Qed.

(** After the substitution no run is longer than the replacement or than
    the runs the pattern leaves alone. *)
Lemma sub_run_max_run (s : str) (prev : option ascii) :
  max_run p (sub_const (match_run p k) repl prev s) <= Nat.max (k - 1) (length repl).
Proof. apply sub_run_bounded. pose proof (written_bound s). lia. Qed.

(** The characters outside the class are kept, in their order. *)
Lemma sub_run_keeps (s : str) (prev : option ascii) :
  filter (fun c => p c = false) (sub_const (match_run p k) repl prev s)
  = filter (fun c => p c = false) s.
Proof.
  assert (Hnone : forall run : str, Forall (fun c => p c = true) run ->
            filter (fun c => p c = false) run = []).
  { unfold str. induction 1 as [|c run Hc Hrun IHr]; [reflexivity|].
    rewrite filter_cons_False by congruence. exact IHr. }
  remember (length s) as n eqn:Hn.
  revert s prev Hn. induction n as [n IH] using lt_wf_ind. intros s prev ->.
  destruct s as [|c r]; [simp sub_const; reflexivity|].
  rewrite sub_const_cons. unfold match_run. unfold str in *.
  destruct (Nat.leb_spec k (run_length p (c :: r))) as [Hk|Hk].
  - rewrite filter_app, (Hnone repl repl_class). simpl app.
    rewrite (IH (length (skipn (Nat.pred (run_length p (c :: r))) r)));
      [| rewrite length_skipn; simpl; lia | reflexivity].
    assert (Hrest : skipn (Nat.pred (run_length p (c :: r))) r
                    = drop_while p (c :: r)).
    { rewrite <- drop_run_length.
      destruct (run_length p (c :: r)) eqn:E; [lia | reflexivity]. }
    rewrite Hrest. rewrite <- (take_while_app_drop (c :: r)) at 2.
    rewrite filter_app, (Hnone _ (take_while_class (c :: r))). reflexivity.
  - rewrite !(filter_cons _ c).
    rewrite (IH (length r)); [reflexivity | simpl; lia | reflexivity].
Qed.

(** A text whose runs are all shorter than the pattern asks is left as it
    is. *)
Lemma sub_run_short (s : str) (prev : option ascii) :
  max_run p s < k -> sub_const (match_run p k) repl prev s = s.
Proof.
  intros H. apply sub_const_no_match. intros pre a b ->.
  unfold match_run. pose proof (run_length_suffix a b).
  destruct (Nat.leb_spec k (run_length p b)); [lia | reflexivity].
Qed.

End Runs.

End Re.

(** ** Markdown post-processing: blank lines and empty links *)

Module Normalizer.

Import Re.

Definition is_nl (c : ascii) : bool := eqc c nl.

(** [re.sub(r"\n{4,}", "\n\n\n", markdown)] *)
Definition collapse_blank_lines (markdown : str) : str :=
  sub_const (match_run is_nl 4) [nl; nl; nl] None markdown.

(** The match of [opening], a target of one or more characters other
    than the closing parenthesis, the closing parenthesis and the
    whitespace that follows: its length. *)
Definition match_empty_link (opening : str) (s : str) : option nat :=
  if startswith s opening then
    let rest := skipn (length opening) s in
    let target := take_while (Citations.not_char ")"%char) rest in
    match target, drop_while (Citations.not_char ")"%char) rest with
    | _ :: _, _ :: tail =>
        Some (length opening + length target + 1 + run_length isspace tail)
    | _, _ => None
    end
  else None.

(** The pattern of the empty image, an exclamation mark, two brackets and
    the target. *)
Definition match_empty_image (prev : option ascii) (s : str) : option nat :=
  match_empty_link (L "![](") s.

(** The pattern of the empty link, not after an exclamation mark. *)
Definition match_empty_plain (prev : option ascii) (s : str) : option nat :=
  if match prev with Some c => eqc c "!"%char | None => false end then None
  else match_empty_link (L "[](") s.

Definition strip_empty_image_links (markdown : str) : str :=
  let markdown := sub_const match_empty_image [] None markdown in
  sub_const match_empty_plain [] None markdown.

Example empty_image_stripped :
  strip_empty_image_links (L "Before ![](https://x/img.png) After") = L "Before After".
Proof. reflexivity. Qed.

Example image_in_link_kept :
  strip_empty_image_links (L "[![alt](https://x/i.png)](https://x/page)")
  = L "[![alt](https://x/i.png)](https://x/page)".
Proof. reflexivity. Qed.

Example three_blank_lines :
  collapse_blank_lines (L "a




b") = L "a


b".
Proof. reflexivity. Qed.

(** X1. [collapse_blank_lines] leaves no run of more than three line
    feeds, keeps every other character in its place, changes nothing when
    run a second time, and returns a text as it is exactly when the text
    has no run of more than three line feeds. *)
Theorem collapse_blank_lines_runs (markdown : str) :
  max_run is_nl (collapse_blank_lines markdown) <= 3
  /\ filter (fun c => is_nl c = false) (collapse_blank_lines markdown)
     = filter (fun c => is_nl c = false) markdown
  /\ collapse_blank_lines (collapse_blank_lines markdown)
     = collapse_blank_lines markdown
  /\ (collapse_blank_lines markdown = markdown <-> max_run is_nl markdown <= 3).
Proof.
  assert (Hclass : Forall (fun c => is_nl c = true) [nl; nl; nl])
    by (repeat constructor).
  assert (Hk : 1 <= 4) by lia.
  assert (Hlen : length [nl; nl; nl] <= 4) by (simpl; lia).
  assert (Hbound : forall s, max_run is_nl (collapse_blank_lines s) <= 3).
  { intros s. unfold collapse_blank_lines.
    exact (sub_run_max_run is_nl 4 [nl; nl; nl] Hk Hclass Hlen s None). }
  assert (Hshort : forall s, max_run is_nl s <= 3 -> collapse_blank_lines s = s).
  { intros s Hs. unfold collapse_blank_lines.
    apply (sub_run_short is_nl 4 [nl; nl; nl] Hk Hlen). lia. }
  split; [apply Hbound|]. split.
  { unfold collapse_blank_lines.
    exact (sub_run_keeps is_nl 4 [nl; nl; nl] Hk Hclass Hlen markdown None). }
  split; [apply Hshort, Hbound|].
  split; [|apply Hshort].
  intros Heq. rewrite <- Heq. apply Hbound.
Qed.

(** X2. [strip_empty_image_links] only deletes characters: what it
    returns is the text with some of its characters left out. *)
Theorem strip_empty_image_links_deletes (markdown : str) :
  strip_empty_image_links markdown `sublist_of` markdown.
Proof.
  unfold strip_empty_image_links.
  etransitivity; apply sub_const_deletes.
Qed.

(** [sub in s] *)
Fixpoint contains (s sub : str) : bool :=
  startswith s sub
  || match s with
     | [] => false
     | _ :: r => contains r sub
     end.

Lemma contains_false (s sub : str) :
  contains s sub = false -> forall a b, s <> a ++ sub ++ b.
Proof.
  intros H a. revert s H. induction a as [|c a IH]; intros s H b Hs.
  - assert (Hp : startswith s sub = true).
    { apply Crawl.startswith_prefix. exists b. exact Hs. }
    destruct s; simpl in H; rewrite Hp in H; discriminate.
  - subst s. simpl in H. apply orb_false_iff in H. destruct H as [_ H].
    exact (IH _ H b eq_refl).
Qed.

Lemma match_empty_link_opening (opening s : str) (n : nat) :
  match_empty_link opening s = Some n -> exists tail, s = opening ++ tail.
Proof.
  unfold match_empty_link. destruct (startswith s opening) eqn:E; [|discriminate].
  intros _. apply Crawl.startswith_prefix in E. exact E.
Qed.

Lemma strip_empty_image_links_no_opening (markdown : str) :
  (forall a b, markdown <> a ++ L "[](" ++ b) ->
  strip_empty_image_links markdown = markdown.
Proof.
  intros Hno.
  unfold strip_empty_image_links.
  assert (H1 : sub_const match_empty_image [] None markdown = markdown).
  { apply sub_const_no_match. intros pre a b ->.
    unfold match_empty_image.
    destruct (match_empty_link (L "![](") b) as [n|] eqn:E; [|reflexivity].
    exfalso. apply match_empty_link_opening in E. destruct E as [tail ->].
    apply (Hno (a ++ L "!") tail). rewrite <- app_assoc. reflexivity. }
  rewrite H1. apply sub_const_no_match. intros pre a b ->.
  unfold match_empty_plain.
  destruct (match pre with Some _ => _ | None => _ end); [reflexivity|].
  destruct (match_empty_link (L "[](") b) as [n|] eqn:E; [|reflexivity].
  exfalso. apply match_empty_link_opening in E. destruct E as [tail ->].
  apply (Hno a tail). reflexivity.
Qed.



End Normalizer.

(** ** More on the heading repair *)

Module HeadingFacts.

Import Postprocess.

Lemma join_split (s : str) : join [nl] (split_nl s) = s.
Proof.
  induction s as [|c r IH]; [reflexivity|].
  simpl split_nl. destruct (eqc c nl) eqn:E.
  - apply Ascii.eqb_eq in E. subst c.
    destruct (split_nl r) as [|l ls] eqn:El; [destruct (split_nl_not_nil r El)|].
    change (join [nl] ([] :: l :: ls)) with (nl :: join [nl] (l :: ls)).
    rewrite IH. reflexivity.
  - destruct (split_nl r) as [|l ls] eqn:El; [destruct (split_nl_not_nil r El)|].
    rewrite <- IH. destruct ls; reflexivity.
Qed.

Lemma split_nl_chars (Q : ascii -> Prop) (s : str) :
  Forall Q s -> Forall (Forall Q) (split_nl s).
Proof.
  induction 1 as [|c r Hc Hr IH]; simpl; [repeat constructor|].
  destruct (eqc c nl); [constructor; [constructor | exact IH]|].
  destruct (split_nl r) as [|l ls]; [repeat constructor; exact Hc|].
  inversion IH; subst. constructor; [constructor|]; assumption.
Qed.

Lemma heading_match_no_hash (line : str) :
  Forall (fun c => is_hash c = false) line -> heading_match line = None.
Proof.
  intros H. unfold heading_match. destruct H as [|c r Hc Hr]; [reflexivity|].
  simpl. rewrite Hc. reflexivity.
Qed.

Lemma fix_lines_no_marker (lines : list str) :
  Forall (fun l => heading_match l = None) lines -> fix_lines lines = lines.
Proof.
  induction 1 as [|l ls Hl Hls IH]; [simp fix_lines; reflexivity|].
  rewrite fix_lines_cons, Hl, IH. reflexivity.
Qed.

Lemma fix_heading_linebreaks_plain (markdown : str) :
  Forall (fun c => is_hash c = false) markdown ->
  fix_heading_linebreaks markdown = markdown.
Proof.
  intros Hall. unfold fix_heading_linebreaks.
  rewrite fix_lines_no_marker; [apply join_split|].
  eapply Forall_impl; [apply split_nl_chars; exact Hall|].
  intros l Hl. apply heading_match_no_hash. exact Hl.
Qed.

(** X4. A text without a hash comes back from [fix_heading_linebreaks]
    as it is. *)
Theorem fix_heading_linebreaks_no_hash (markdown : str) :
  existsb is_hash markdown = false ->
  fix_heading_linebreaks markdown = markdown.
Proof.
  intros H. apply fix_heading_linebreaks_plain.
  induction markdown as [|c r IH]; [constructor|].
  simpl in H. apply orb_false_iff in H. destruct H as [Hc Hr].
  constructor; [exact Hc | apply IH; exact Hr].
Qed.

Lemma fix_heading_linebreaks_no_hash_witness :
  existsb is_hash (L "Just a paragraph.
Another line.") = false
  /\ fix_heading_linebreaks (L "Just a paragraph.
Another line.") = L "Just a paragraph.
Another line.".
Proof.
  split; [reflexivity|].
  exact (fix_heading_linebreaks_no_hash (L "Just a paragraph.
Another line.") eq_refl).
Defined.

Lemma fix_lines_lines (lines : list str) :
  length (fix_lines lines) <= length lines
  /\ Forall (fun l => l ∈ lines \/ startswith l (L "#") = true) (fix_lines lines).
Proof.
  remember (length lines) as n eqn:Hn.
  revert lines Hn. induction n as [n IH] using lt_wf_ind. intros lines ->.
  destruct lines as [|l r]; [simp fix_lines; split; [reflexivity | constructor]|].
  assert (Hr : length (fix_lines r) <= length r
               /\ Forall (fun x => x ∈ r \/ startswith x (L "#") = true) (fix_lines r)).
  { apply (IH (length r)); [simpl; lia | reflexivity]. }
  assert (Hweak : forall (k : list str) (out : list str),
            k `sublist_of` r ->
            Forall (fun x => x ∈ k \/ startswith x (L "#") = true) out ->
            Forall (fun x => x ∈ l :: r \/ startswith x (L "#") = true) out).
  { intros k out Hk Hout. eapply Forall_impl; [exact Hout|].
    intros x [Hx|Hx]; [left | right; exact Hx].
    right. eapply elem_of_sublist; eassumption. }
  rewrite fix_lines_cons.
  destruct (heading_match l) as [level|] eqn:Hm.
  - destruct (fragments r) as [|f fs] eqn:Hf.
    + destruct Hr as [Hlen Hall]. split; [simpl; lia|].
      constructor; [left; left | apply (Hweak r); [reflexivity | exact Hall]].
    + destruct (IH (length (skipn (length (f :: fs)) r))) with
        (lines := skipn (length (f :: fs)) r) as [Hlen Hall];
        [rewrite length_skipn; simpl; lia | reflexivity |].
      rewrite length_skipn in Hlen. split; [simpl in *; lia|].
      constructor.
      * right. destruct (heading_match_level _ _ Hm) as (h & -> & _ & _).
        reflexivity.
      * apply (Hweak (skipn (length (f :: fs)) r)); [apply sublist_drop | exact Hall].
  - destruct Hr as [Hlen Hall]. split; [simpl; lia|].
    constructor; [left; left | apply (Hweak r); [reflexivity | exact Hall]].
Qed.

(** X5. [fix_heading_linebreaks] adds no line, and every line of its
    result is a line of the text or starts with a hash: only headings are
    rewritten. *)
Theorem fix_heading_linebreaks_lines (markdown : str) :
  length (split_nl (fix_heading_linebreaks markdown)) <= length (split_nl markdown)
  /\ Forall (fun l => l ∈ split_nl markdown \/ startswith l (L "#") = true)
            (split_nl (fix_heading_linebreaks markdown)).
Proof.
  unfold fix_heading_linebreaks.
  rewrite split_join.
  - apply fix_lines_lines.
  - apply fix_lines_not_nil, split_nl_not_nil.
  - apply fix_lines_no_nl, split_nl_no_nl.
Qed.

End HeadingFacts.

(** ** HTML to markdown *)

Module Convert.

Import Re.

(** [_clean_output] *)
Definition _clean_output (markdown : str) : str :=
  let markdown := sub_const (match_run Normalizer.is_nl 4) [nl; nl; nl] None markdown in
  let lines := map rstrip (split_nl markdown) in
  strip (join [nl] lines).

Section Converters.

(** The libraries: [Document(html, url).summary()] of readability, the
    rendering of the elements that [soup.select(selector)] finds, and the
    removal of the unwanted tags followed by markdownify. *)
Variable readability_summary : str -> str -> str.
Variable select : str -> str -> list str.
Variable markdownify_without_tags : str -> str.

Definition _readability_extract (html url : str) : str :=
  readability_summary html url.

Definition html_to_markdown (html url : str) (strip_boilerplate : bool)
    (selector : option str) : str :=
  if negb (truthy html) || negb (truthy (strip html)) then []
  else
    let content_html :=
      match selector with
      | Some (c :: sel) =>
          match select html (c :: sel) with
          | _ :: _ as selected => join [nl] selected
          | [] => if strip_boilerplate then _readability_extract html url else html
          end
      | _ => if strip_boilerplate then _readability_extract html url else html
      end in
    _clean_output (markdownify_without_tags content_html).

End Converters.

(** A whitespace character other than the line feed is followed by a
    character that is no line feed. *)
Definition not_last (c : ascii) (r : str) : bool :=
  negb (isspace c) || Normalizer.is_nl c
  || match r with
     | [] => false
     | d :: _ => negb (Normalizer.is_nl d)
     end.

(** No whitespace ends a line. *)
Fixpoint no_trailing_space (s : str) : bool :=
  match s with
  | [] => true
  | c :: r => not_last c r && no_trailing_space r
  end.

Lemma rstrip_head (s : str) (d : ascii) (t : str) :
  rstrip s = d :: t -> exists t', s = d :: t'.
Proof.
  destruct s as [|c r]; simpl; [discriminate|].
  destruct (rstrip r); [destruct (isspace c)|]; intros [= <- _]; eexists; reflexivity.
Qed.

Lemma rstrip_idem (s : str) : rstrip (rstrip s) = rstrip s.
Proof.
  induction s as [|c r IH]; simpl; [reflexivity|].
  destruct (rstrip r) as [|d t] eqn:E.
  - destruct (isspace c) eqn:Ec; simpl; [reflexivity|]. rewrite Ec. reflexivity.
  - change (rstrip (c :: d :: t)) with
      (match rstrip (d :: t) with
       | [] => if isspace c then [] else [c]
       | r' => c :: r'
       end).
    rewrite IH. reflexivity.
Qed.

Lemma is_nl_false (d : ascii) : d <> nl -> Normalizer.is_nl d = false.
Proof. intros H. unfold Normalizer.is_nl, eqc. apply Ascii.eqb_neq. exact H. Qed.

Lemma no_trailing_space_line (l rest : str) :
  rstrip l = l -> no_nl l -> no_trailing_space rest = true ->
  no_trailing_space (l ++ rest) = true.
Proof.
  intros Hl Hnl Hrest. induction l as [|c r IH]; [exact Hrest|].
  inversion Hnl as [|? ? Hc Hr]; subst.
  simpl in Hl. destruct (rstrip r) as [|d t] eqn:E.
  - destruct (isspace c) eqn:Ec; [discriminate|].
    injection Hl as <-. cbn [app no_trailing_space].
    unfold not_last. rewrite Ec, Hrest. reflexivity.
  - injection Hl as Hl. rewrite <- Hl in *.
    change (not_last c ((d :: t) ++ rest)
            && no_trailing_space ((d :: t) ++ rest) = true).
    rewrite (IH eq_refl Hr), andb_true_r.
    unfold not_last. cbn [app].
    inversion Hr as [|? ? Hd _]; subst.
    rewrite (is_nl_false d Hd). cbn [negb]. apply orb_true_r.
Qed.

Lemma no_trailing_space_join (lines : list str) :
  Forall (fun l => rstrip l = l) lines -> Forall no_nl lines ->
  no_trailing_space (join [nl] lines) = true.
Proof.
  induction 1 as [|l ls Hl Hls IH]; intros Hnl; [reflexivity|].
  inversion Hnl as [|? ? Hn Hns]; subst.
  destruct ls as [|l2 ls].
  - simpl. rewrite <- (app_nil_r l). apply no_trailing_space_line; trivial.
  - change (join [nl] (l :: l2 :: ls)) with (l ++ nl :: join [nl] (l2 :: ls)).
    apply no_trailing_space_line; [exact Hl | exact Hn|].
    cbn [no_trailing_space]. rewrite (IH Hns), andb_true_r.
    unfold not_last, Normalizer.is_nl, eqc. rewrite Ascii.eqb_refl.
    rewrite orb_true_r. reflexivity.
Qed.

Lemma no_trailing_space_lstrip (s : str) :
  no_trailing_space s = true -> no_trailing_space (lstrip s) = true.
Proof.
  induction s as [|c r IH]; [trivial|].
  intros H. simpl lstrip. destruct (isspace c); [|exact H].
  apply IH. cbn [no_trailing_space] in H. apply andb_prop in H. apply H.
Qed.

Lemma no_trailing_space_rstrip (s : str) :
  no_trailing_space s = true -> no_trailing_space (rstrip s) = true.
Proof.
  induction s as [|c r IH]; [trivial|].
  intros H. cbn [no_trailing_space] in H. apply andb_prop in H.
  destruct H as [Hc Hr]. specialize (IH Hr).
  simpl rstrip. destruct (rstrip r) as [|d t] eqn:E.
  - destruct (isspace c) eqn:Ec; [reflexivity|].
    cbn [no_trailing_space]. unfold not_last. rewrite Ec. reflexivity.
  - change (no_trailing_space (c :: d :: t))
      with (not_last c (d :: t) && no_trailing_space (d :: t)).
    rewrite IH, andb_true_r.
    destruct (rstrip_head r d t E) as [t' ->]. exact Hc.
Qed.

(** The lines of a text in which no whitespace ends a line. *)
Lemma no_trailing_space_lines (s : str) :
  no_trailing_space s = true -> Forall (fun l => rstrip l = l) (split_nl s).
Proof.
  induction s as [|c r IH]; [repeat constructor|].
  intros H. cbn [no_trailing_space] in H. apply andb_prop in H.
  destruct H as [Hc Hr]. specialize (IH Hr).
  simpl split_nl. destruct (eqc c nl) eqn:Ec; [constructor; [reflexivity | exact IH]|].
  destruct (split_nl r) as [|l ls] eqn:El.
  { destruct (Postprocess.split_nl_not_nil r El). }
  inversion IH as [|? ? Hl Hls]; subst. constructor; [|exact Hls].
  simpl. rewrite Hl. destruct l as [|d l']; [|reflexivity].
  assert (Hsp : isspace c = false).
  { unfold not_last, Normalizer.is_nl in Hc. rewrite Ec in Hc.
    destruct (isspace c); [|reflexivity].
    destruct r as [|d r']; simpl in Hc; [discriminate|].
    simpl in El. destruct (eqc d nl); [discriminate Hc|].
    destruct (split_nl r'); discriminate El. }
  rewrite Hsp. reflexivity.
Qed.

Lemma strip_idem (s : str) : strip (strip s) = strip s.
Proof.
  unfold strip.
  assert (Hl : forall t, lstrip t = [] \/ exists c t', lstrip t = c :: t' /\ isspace c = false).
  { induction t as [|c t IH]; simpl; [left; reflexivity|].
    destruct (isspace c) eqn:E; [exact IH|]. right. exists c, t. split; trivial. }
  destruct (Hl s) as [-> | (c & t & -> & Hc)]; [reflexivity|].
  assert (Hk : exists u, rstrip (c :: t) = c :: u).
  { simpl. rewrite Hc. destruct (rstrip t); eexists; reflexivity. }
  destruct Hk as [u Hu].
  assert (Hls : lstrip (rstrip (c :: t)) = rstrip (c :: t)).
  { rewrite Hu. simpl. rewrite Hc. reflexivity. }
  rewrite Hls. apply rstrip_idem.
Qed.

Lemma clean_output_lines (markdown : str) :
  Forall (fun l => rstrip l = l) (split_nl (_clean_output markdown)).
Proof.
  unfold _clean_output. cbn zeta.
  apply no_trailing_space_lines. unfold strip.
  apply no_trailing_space_rstrip, no_trailing_space_lstrip.
  apply no_trailing_space_join.
  - apply Forall_forall. intros l Hl.
    change (map rstrip ?x) with (rstrip <$> x) in Hl.
    apply list_elem_of_fmap in Hl. destruct Hl as (l0 & -> & _).
    apply rstrip_idem.
  - apply Forall_forall. intros l Hl.
    change (map rstrip ?x) with (rstrip <$> x) in Hl.
    apply list_elem_of_fmap in Hl. destruct Hl as (l0 & -> & Hl0).
    apply Postprocess.no_nl_rstrip.
    pose proof (Postprocess.split_nl_no_nl
                  (sub_const (match_run Normalizer.is_nl 4) [nl; nl; nl] None markdown))
      as Hall.
    rewrite Forall_forall in Hall. apply Hall. exact Hl0.
Qed.

(** X6. What [_clean_output] returns has no whitespace at either end,
    and none of its lines ends with whitespace. *)
Theorem clean_output_tidy (markdown : str) :
  strip (_clean_output markdown) = _clean_output markdown
  /\ Forall (fun l => rstrip l = l) (split_nl (_clean_output markdown)).
Proof.
  split; [|apply clean_output_lines].
  unfold _clean_output. cbn zeta. apply strip_idem.
Qed.

(** X7. Whatever readability, the selector and markdownify return,
    [html_to_markdown] returns a text with no whitespace at either end
    and no line that ends with whitespace; for an empty or blank page it
    returns the empty text without calling them. *)
Theorem html_to_markdown_tidy (readability_summary : str -> str -> str)
    (select : str -> str -> list str) (markdownify_without_tags : str -> str)
    (html url : str) (strip_boilerplate : bool) (selector : option str) :
  let out := html_to_markdown readability_summary select markdownify_without_tags
               html url strip_boilerplate selector in
  strip out = out
  /\ Forall (fun l => rstrip l = l) (split_nl out)
  /\ (if truthy (strip html) then True else out = []).
Proof.
  cbn zeta. unfold html_to_markdown.
  destruct (truthy html) eqn:Eh.
  - destruct (truthy (strip html)) eqn:Es; simpl.
    + split; [unfold _clean_output; cbn zeta; apply strip_idem|].
      split; [apply clean_output_lines | exact I].
    + repeat split; repeat constructor.
  - simpl. destruct html; [|discriminate]. repeat split; repeat constructor.
Qed.

End Convert.

(** ** File names from URLs *)

Module Utils.

Import Re Fetch Crawl.

(** The class [a-zA-Z0-9]. *)
Definition is_alnum (c : ascii) : bool :=
  let n := nat_of_ascii c in
  ((48 <=? n) && (n <=? 57)) || ((65 <=? n) && (n <=? 90))
  || ((97 <=? n) && (n <=? 122)).

Definition not_alnum (c : ascii) : bool := negb (is_alnum c).

Definition is_underscore (c : ascii) : bool := eqc c "_"%char.

(** [s.strip(ch)] for a single character. *)
Definition strip_char (ch : ascii) (s : str) : str :=
  rstrip_char ch (drop_while (fun c => eqc c ch) s).

Section Slug.

(** [urllib.parse.urlparse]: the parts of the URL, or the [ValueError] it
    raises, as it does for a host with an opening bracket and no closing
    one. *)
Variable urlparse : str -> outcome ParseResult.

(** No error is caught: what [urlparse] raises, [url_to_slug] raises. *)
Definition url_to_slug (url : str) : outcome str :=
  match urlparse url with
  | Raised e => Raised e
  | Returned parsed =>
      let slug := netloc parsed ++ path parsed in
      let slug := sub_const (match_run not_alnum 1) (L "_") None slug in
      let slug :=
        strip_char "_"%char (sub_const (match_run is_underscore 1) (L "_") None slug) in
      Returned (if truthy slug then take 100 slug else L "page")
  end.

End Slug.

(** [urlparse] on URLs of the shape scheme://host/path?query#fragment,
    with the check of the brackets of the host. *)
Definition sample_urlparse (u : str) : outcome ParseResult :=
  let parsed := Sample.urlparse u in
  if xorb (existsb (eqc "["%char) (netloc parsed)) (existsb (eqc "]"%char) (netloc parsed))
  then Raised (Exception (L "Invalid IPv6 URL"))
  else Returned parsed.

Example slug_of_article :
  url_to_slug sample_urlparse (L "https://www.e-x.com/blog/2024/my_post.html?x=1")
  = Returned (L "www_e_x_com_blog_2024_my_post_html").
Proof. vm_compute. reflexivity. Qed.

Example slug_of_open_bracket :
  url_to_slug sample_urlparse (L "http://[::1/x")
  = Raised (Exception (L "Invalid IPv6 URL")).
Proof. vm_compute. reflexivity. Qed.

Definition slug_char (c : ascii) : Prop := is_alnum c = true \/ c = "_"%char.

Lemma sub_plus_chars (Q : ascii -> Prop) (p : ascii -> bool) (repl : str)
    (s : str) (prev : option ascii) :
  Forall Q repl -> (forall c, p c = false -> Q c) ->
  Forall Q (sub_const (match_run p 1) repl prev s).
Proof.
  intros Hrepl HQ. remember (length s) as n eqn:Hn.
  revert s prev Hn. induction n as [n IH] using lt_wf_ind. intros s prev ->.
  destruct s as [|c r]; [simp sub_const; constructor|].
  rewrite sub_const_cons. unfold match_run.
  destruct (Nat.leb_spec 1 (run_length p (c :: r))) as [Hk|Hk].
  - apply Forall_app. split; [exact Hrepl|].
    eapply IH; [|reflexivity]. rewrite length_skipn. simpl. lia.
  - constructor; [|eapply IH; [|reflexivity]; simpl; lia].
    apply HQ. unfold run_length in Hk. simpl in Hk.
    destruct (p c); [simpl in Hk; lia | reflexivity].
Qed.

Lemma rstrip_char_prefix (ch : ascii) (s : str) :
  exists w, s = rstrip_char ch s ++ w.
Proof.
  induction s as [|c r [w IH]]; [exists []; reflexivity|].
  simpl. destruct (rstrip_char ch r) as [|d t] eqn:E.
  - destruct (eqc c ch); [exists (c :: r) | exists r]; reflexivity.
  - exists w. simpl. rewrite IH at 1. reflexivity.
Qed.

Lemma rstrip_char_head (ch : ascii) (s : str) (d : ascii) (t : str) :
  rstrip_char ch s = d :: t -> exists t', s = d :: t'.
Proof.
  destruct s as [|c r]; simpl; [discriminate|].
  destruct (rstrip_char ch r); [destruct (eqc c ch)|];
    intros [= <- _]; eexists; reflexivity.
Qed.

Lemma drop_while_suffix (q : ascii -> bool) (s : str) :
  exists a, s = a ++ drop_while q s.
Proof.
  exists (take_while q s). symmetry. apply take_while_app_drop.
Qed.

Lemma max_run_prefix (p : ascii -> bool) (a b : str) (cur : nat) :
  max_run_from p cur a <= max_run_from p cur (a ++ b).
Proof.
  revert cur. induction a as [|c a IH]; intros cur; simpl.
  - pose proof (max_run_from_ge p cur b). lia.
  - destruct (p c); [apply IH|]. specialize (IH 0). lia.
Qed.

Lemma max_run_suffix (p : ascii -> bool) (a b : str) :
  max_run p b <= max_run p (a ++ b).
Proof.
  unfold max_run. induction a as [|c a IH]; [reflexivity|].
  etransitivity; [exact IH | apply max_run_from_tail].
Qed.

(** X8. When [urlparse] accepts the URL, [url_to_slug] returns a name of
    1 to 100 characters, all of them letters, digits or underscores, that
    starts with a letter or a digit and has no two underscores in a row.
    When [urlparse] raises, [url_to_slug] raises the same error and
    returns no name. *)
Theorem url_to_slug_safe (urlparse : str -> outcome ParseResult) (url : str) :
  match urlparse url with
  | Returned _ =>
      exists slug,
        url_to_slug urlparse url = Returned slug
        /\ Forall slug_char slug
        /\ 1 <= length slug <= 100
        /\ (exists c rest, slug = c :: rest /\ is_alnum c = true)
        /\ max_run is_underscore slug <= 1
  | Raised e => url_to_slug urlparse url = Raised e
  end.
Proof.
  unfold url_to_slug.
  destruct (urlparse url) as [parsed|e]; [|reflexivity].
  cbn zeta. eexists. split; [reflexivity|].
  set (raw := netloc parsed ++ path parsed).
  set (s1 := sub_const (match_run not_alnum 1) (L "_") None raw).
  set (s2 := sub_const (match_run is_underscore 1) (L "_") None s1).
  assert (Hund : Forall slug_char (L "_")) by (repeat constructor; right; reflexivity).
  assert (H1 : Forall slug_char s1).
  { apply sub_plus_chars; [exact Hund|].
    intros c Hc. left. unfold not_alnum in Hc. apply negb_false_iff. exact Hc. }
  assert (H2 : Forall slug_char s2) by (apply sub_const_chars; assumption).
  assert (Hrun : max_run is_underscore s2 <= 1).
  { apply (sub_run_max_run is_underscore 1 (L "_")); [lia | repeat constructor | simpl; lia]. }
  destruct (drop_while_suffix (fun c => eqc c "_"%char) s2) as [a Ha].
  destruct (rstrip_char_prefix "_"%char (drop_while (fun c => eqc c "_"%char) s2))
    as [w Hw].
  fold (strip_char "_"%char s2) in Hw.
  assert (H3 : Forall slug_char (strip_char "_"%char s2)).
  { rewrite Ha, Hw in H2. apply Forall_app in H2. destruct H2 as [_ H2].
    apply Forall_app in H2. apply H2. }
  assert (Hrun3 : max_run is_underscore (strip_char "_"%char s2) <= 1).
  { pose proof (max_run_prefix is_underscore (strip_char "_"%char s2) w 0) as Hp.
    rewrite <- Hw in Hp.
    pose proof (max_run_suffix is_underscore a
                  (drop_while (fun c => eqc c "_"%char) s2)) as Hs.
    rewrite <- Ha in Hs.
    exact (Nat.le_trans _ _ _ Hp (Nat.le_trans _ _ _ Hs Hrun)). }
  destruct (strip_char "_"%char s2) as [|c t] eqn:Es.
  - cbn [truthy]. split; [repeat constructor; left; reflexivity|].
    split; [simpl; lia|]. split; [|vm_compute; lia].
    exists "p"%char, (L "age"). split; reflexivity.
  - cbn [truthy]. split; [apply Forall_take; exact H3|].
    split; [rewrite length_take; cbn [length]; lia|].
    split.
    + exists c, (take 99 t). split; [reflexivity|].
      inversion H3 as [|? ? [Hc|Hc] _]; [exact Hc|].
      exfalso. unfold strip_char in Es.
      destruct (rstrip_char_head _ _ _ _ Es) as [t' Hd].
      apply Citations.drop_while_head in Hd.
      rewrite Hc in Hd. discriminate.
    + pose proof (max_run_prefix is_underscore (take 100 (c :: t))
                    (drop 100 (c :: t)) 0) as Hp.
      rewrite take_drop in Hp. exact (Nat.le_trans _ _ _ Hp Hrun3).
Qed.

End Utils.

(** ** More on the crawler *)

Module CrawlFacts.

Import Fetch Crawl.

Section Facts.

Variable urlparse : str -> ParseResult.
Variable urljoin : str -> str -> str.
Variable hrefs : str -> list str.
Variable fnmatch : str -> str -> bool.
Variable respond : list str -> str -> outcome FetchResult.

(** The pages that the loop keeps of the fetches of [urls], made in this
    order after the fetches of [before]: those that came back with a
    status below 400. *)
Fixpoint kept_pages (before urls : list str) : list FetchResult :=
  match urls with
  | [] => []
  | u :: rest =>
      match respond before u with
      | Returned result => if (status result <? 400)%Z then [result] else []
      | Raised _ => []
      end ++ kept_pages (before ++ [u]) rest
  end.

Lemma kept_pages_app (before a b : list str) :
  kept_pages before (a ++ b) = kept_pages before a ++ kept_pages (before ++ a) b.
Proof using Type.
  revert before. induction a as [|u a IH]; intros before.
  - rewrite app_nil_r. reflexivity.
  - cbn [app kept_pages]. rewrite IH, <- !app_assoc. reflexivity.
Qed.

Lemma kept_pages_status (before urls : list str) :
  Forall (fun r => (status r < 400)%Z) (kept_pages before urls).
Proof using Type.
  revert before. induction urls as [|u urls IH]; intros before; [constructor|].
  cbn [kept_pages]. apply Forall_app. split; [|apply IH].
  destruct (respond before u) as [r|e]; [|constructor].
  destruct (Z.ltb_spec (status r) 400); repeat constructor. assumption.
Qed.

Lemma kept_pages_length (before urls : list str) :
  length (kept_pages before urls) <= length urls.
Proof using Type.
  revert before. induction urls as [|u urls IH]; intros before; [reflexivity|].
  cbn [kept_pages]. rewrite length_app. specialize (IH (before ++ [u])).
  destruct (respond before u) as [r|e]; [destruct (status r <? 400)%Z|];
    cbn [length]; lia.
Qed.

(** What the loop keeps true of a state that it started from [st0]: the
    URLs fetched after those of [st0] are candidates, in their order, and
    the results after those of [st0] are the kept pages of these
    fetches. *)
Definition grown (st0 : crawl_state) (candidates : list str) (st : crawl_state) : Prop :=
  exists new_fetched,
    fetched st = fetched st0 ++ new_fetched
    /\ new_fetched `sublist_of` candidates
    /\ results st = results st0 ++ kept_pages (fetched st0) new_fetched.

Lemma grown_refl (st : crawl_state) (l : list str) : grown st l st.
Proof using Type.
  exists []. cbn [kept_pages]. rewrite !app_nil_r.
  repeat split. apply sublist_nil_l.
Qed.

Lemma crawl_step_grown (max_pages : Z) (url : str) (st : crawl_state) :
  grown st [url] (state_of (crawl_step urlparse respond max_pages url st)).
Proof using Type.
  unfold crawl_step.
  destruct (max_pages <=? _)%Z; [apply grown_refl|].
  destruct (decide (_ ∈ visited st)); [apply grown_refl|].
  exists [url]. cbn [kept_pages].
  destruct (respond (fetched st) url) as [r|[m|m]];
    [destruct (status r <? 400)%Z| |];
    cbn [state_of fetched results app]; rewrite ?app_nil_r;
    (split; [reflexivity|]; split; reflexivity).
Qed.

Lemma grown_trans (st0 st1 st2 : crawl_state) (a b : list str) :
  grown st0 a st1 -> grown st1 b st2 -> grown st0 (a ++ b) st2.
Proof using Type.
  intros (f1 & Hf1 & Hsub1 & Hr1) (f2 & Hf2 & Hsub2 & Hr2).
  exists (f1 ++ f2).
  rewrite Hr2, Hr1, Hf2, Hf1, kept_pages_app, <- !app_assoc.
  repeat split. apply sublist_app; assumption.
Qed.

Lemma crawl_links_grown (max_pages : Z) (l : list str) (st : crawl_state) :
  grown st l (state_of (crawl_links urlparse respond max_pages l st)).
Proof using Type.
  revert st. induction l as [|u l IH]; intros st; [apply grown_refl|].
  simpl. pose proof (crawl_step_grown max_pages u st) as Hstep.
  assert (Hweak : forall s, grown st [u] s -> grown st (u :: l) s).
  { intros s (f1 & Hf1 & Hsub1 & Hr1).
    exists f1. repeat split; try assumption.
    etransitivity; [exact Hsub1|]. apply sublist_skip, sublist_nil_l. }
  destruct (crawl_step urlparse respond max_pages u st) as [st'|st'|e st'];
    [|apply Hweak; exact Hstep..].
  apply (grown_trans st st' _ [u] l Hstep (IH st')).
Qed.

(** X9. What [deep_crawl] returns is fixed by what it fetched: the page
    of the start URL, whatever its status, followed by the pages of the
    later fetches that came back with a status below 400, in the order
    of the fetches. So every returned page but the first has a status
    below 400, and no more pages are returned than fetches are made. *)
Theorem deep_crawl_pages (start_url : str) (max_pages : Z)
    (url_pattern : option str) (rs : list FetchResult) (log : list str) :
  deep_crawl urlparse urljoin hrefs fnmatch respond start_url max_pages url_pattern
  = (Returned rs, log) ->
  (exists seed, respond [] start_url = Returned seed
                /\ rs = seed :: kept_pages [start_url] (tail log))
  /\ Forall (fun r => (status r < 400)%Z) (tail rs)
  /\ length rs <= length log.
Proof.
  rewrite deep_crawl_eq.
  destruct (respond [] start_url) as [seed|e]; [|discriminate].
  destruct (crawl_links_grown max_pages
              (discovered urlparse urljoin hrefs fnmatch start_url url_pattern seed)
              (seed_state urlparse start_url seed))
    as (f1 & Hf & _ & Hr).
  intros H.
  assert (Hrs : rs = seed :: kept_pages [start_url] f1 /\ log = start_url :: f1).
  { destruct (crawl_links _ _ _ _ _) as [st|st|e st];
      cbn [crawl_return state_of] in *; [| |discriminate].
    all: injection H as <- <-; rewrite Hr, Hf; split; reflexivity. }
  destruct Hrs as [-> ->]. cbn [tail length].
  split; [exists seed; split; reflexivity|].
  split; [apply kept_pages_status|].
  pose proof (kept_pages_length [start_url] f1). lia.
Qed.


(** The last fetch is the one that gave the last result. *)
Definition last_fetch_kept (st : crawl_state) : Prop :=
  exists before u rs r,
    fetched st = before ++ [u] /\ results st = rs ++ [r]
    /\ respond before u = Returned r.

(** The budget is not used up, or nothing was fetched since the page
    that used it up. *)
Definition stops_at_budget (max_pages : Z) (st : crawl_state) : Prop :=
  (Z.of_nat (length (results st)) < max_pages)%Z \/ last_fetch_kept st.

Lemma crawl_step_stops (max_pages : Z) (url : str) (st : crawl_state) :
  stops_at_budget max_pages st ->
  stops_at_budget max_pages (state_of (crawl_step urlparse respond max_pages url st)).
Proof using Type.
  intros Hst. unfold crawl_step.
  destruct (Z.leb_spec max_pages (Z.of_nat (length (results st)))) as [Hfull|Hroom];
    [exact Hst|].
  destruct (decide (_ ∈ visited st)); [exact Hst|].
  destruct (respond (fetched st) url) as [r|[m|m]] eqn:Hresp;
    [destruct (status r <? 400)%Z| |]; cbn [state_of].
  - right. exists (fetched st), url, (results st), r. repeat split. exact Hresp.
  - left. exact Hroom.
  - left. exact Hroom.
  - left. exact Hroom.
Qed.

Lemma crawl_links_stops (max_pages : Z) (l : list str) (st : crawl_state) :
  stops_at_budget max_pages st ->
  stops_at_budget max_pages (state_of (crawl_links urlparse respond max_pages l st)).
Proof using Type.
  revert st. induction l as [|u l IH]; intros st Hst; [exact Hst|].
  simpl. pose proof (crawl_step_stops max_pages u st Hst) as Hstep.
  destruct (crawl_step urlparse respond max_pages u st); [apply IH; exact Hstep | exact Hstep..].
Qed.

(** X11. When [deep_crawl] returns as many pages as the budget allows, or
    more, the last page it returned is the page of the last fetch it
    made: once the budget is used up no further URL is fetched. *)
Theorem deep_crawl_stops_at_budget (start_url : str) (max_pages : Z)
    (url_pattern : option str) (rs : list FetchResult) (log : list str) :
  deep_crawl urlparse urljoin hrefs fnmatch respond start_url max_pages url_pattern
  = (Returned rs, log) ->
  (max_pages <= Z.of_nat (length rs))%Z ->
  exists before u rs' r,
    log = before ++ [u] /\ rs = rs' ++ [r] /\ respond before u = Returned r.
Proof.
  rewrite deep_crawl_eq.
  destruct (respond [] start_url) as [seed|e] eqn:Hseed; [|discriminate].
  assert (H0 : stops_at_budget max_pages (seed_state urlparse start_url seed)).
  { right. exists [], start_url, [], seed. repeat split. exact Hseed. }
  pose proof (crawl_links_stops max_pages
                (discovered urlparse urljoin hrefs fnmatch start_url url_pattern seed)
                _ H0) as Hend.
  intros H Hfull.
  assert (Hst : results (state_of (crawl_links urlparse respond max_pages
                   (discovered urlparse urljoin hrefs fnmatch start_url url_pattern seed)
                   (seed_state urlparse start_url seed))) = rs
                /\ fetched (state_of (crawl_links urlparse respond max_pages
                   (discovered urlparse urljoin hrefs fnmatch start_url url_pattern seed)
                   (seed_state urlparse start_url seed))) = log).
  { destruct (crawl_links _ _ _ _ _) as [st|st|e st];
      cbn [crawl_return state_of] in *; [| |discriminate].
    all: injection H as <- <-; split; reflexivity. }
  destruct Hst as [Hrs Hlog].
  destruct Hend as [Hroom|(before & u & rs' & r & Hf & Hr & Hresp)].
  - rewrite Hrs in Hroom. lia.
  - exists before, u, rs', r. rewrite <- Hlog, <- Hrs. repeat split; assumption.
Qed.

(** Every visited URL is the normalised URL of a fetched one. *)
Definition visited_fetched (st : crawl_state) : Prop :=
  forall n, n ∈ visited st ->
            exists v, v ∈ fetched st /\ _normalize_url urlparse v = n.

Lemma crawl_step_visited_fetched (max_pages : Z) (url : str) (st : crawl_state) :
  visited_fetched st ->
  visited_fetched (state_of (crawl_step urlparse respond max_pages url st)).
Proof using Type.
  intros Hst.
  assert (Hnew : forall rs,
            visited_fetched (mkState rs ({[_normalize_url urlparse url]} ∪ visited st)
                               (fetched st ++ [url]))).
  { intros rs n Hn. cbn [visited fetched] in *. apply elem_of_union in Hn.
    destruct Hn as [Hn|Hn].
    - apply elem_of_singleton in Hn. exists url. split; [|symmetry; exact Hn].
      apply elem_of_app. right. apply list_elem_of_singleton. reflexivity.
    - destruct (Hst n Hn) as (v & Hv & Hnv). exists v. split; [|exact Hnv].
      apply elem_of_app. left. exact Hv. }
  unfold crawl_step.
  destruct (max_pages <=? _)%Z; [exact Hst|].
  destruct (decide (_ ∈ visited st)); [exact Hst|].
  destruct (respond (fetched st) url) as [r|[m|m]];
    [destruct (status r <? 400)%Z| |]; cbn [state_of]; apply Hnew.
Qed.

Lemma crawl_links_visited_fetched (max_pages : Z) (l : list str) (st : crawl_state) :
  visited_fetched st ->
  visited_fetched (state_of (crawl_links urlparse respond max_pages l st)).
Proof using Type.
  revert st. induction l as [|u l IH]; intros st Hst; [exact Hst|].
  simpl. pose proof (crawl_step_visited_fetched max_pages u st Hst) as Hstep.
  destruct (crawl_step urlparse respond max_pages u st); [apply IH; exact Hstep | exact Hstep..].
Qed.

Lemma crawl_links_break (max_pages : Z) (l : list str) (st st' : crawl_state) :
  crawl_links urlparse respond max_pages l st = Broke st' ->
  (max_pages <= Z.of_nat (length (results st')))%Z.
Proof using Type.
  revert st. induction l as [|u l IH]; intros st; [discriminate|].
  simpl. destruct (crawl_step urlparse respond max_pages u st) as [st1|st1|e st1] eqn:Es;
    [apply IH| |discriminate].
  intros [= <-]. unfold crawl_step in Es.
  destruct (Z.leb_spec max_pages (Z.of_nat (length (results st)))) as [Hfull|Hroom].
  - injection Es as <-. exact Hfull.
  - destruct (decide (_ ∈ visited st)); [discriminate|].
    destruct (respond (fetched st) u) as [r|[m|m]];
      [destruct (status r <? 400)%Z| |]; discriminate.
Qed.

(** X27. When [deep_crawl] returns fewer pages than the budget allows,
    it has tried every link of the start page that passed the filters:
    each of them was fetched, or has the normalised URL of a URL that was
    fetched. *)
Theorem deep_crawl_tries_every_link (start_url : str) (max_pages : Z)
    (url_pattern : option str) (rs : list FetchResult) (log : list str) :
  deep_crawl urlparse urljoin hrefs fnmatch respond start_url max_pages url_pattern
  = (Returned rs, log) ->
  (Z.of_nat (length rs) < max_pages)%Z ->
  exists seed,
    respond [] start_url = Returned seed
    /\ Forall (fun u => exists v, v ∈ log
                                  /\ _normalize_url urlparse v = _normalize_url urlparse u)
         (discovered urlparse urljoin hrefs fnmatch start_url url_pattern seed).
Proof.
  rewrite deep_crawl_eq.
  destruct (respond [] start_url) as [seed|e]; [|discriminate].
  intros H Hroom. exists seed. split; [reflexivity|].
  assert (H0 : visited_fetched (seed_state urlparse start_url seed)).
  { intros n Hn. cbn [seed_state visited fetched] in *.
    apply elem_of_singleton in Hn. exists start_url.
    split; [apply list_elem_of_singleton; reflexivity | symmetry; exact Hn]. }
  pose proof (crawl_links_visited_fetched max_pages
                (discovered urlparse urljoin hrefs fnmatch start_url url_pattern seed)
                _ H0) as Hvis.
  destruct (crawl_links urlparse respond max_pages
              (discovered urlparse urljoin hrefs fnmatch start_url url_pattern seed)
              (seed_state urlparse start_url seed)) as [st|st|e st] eqn:Ec;
    cbn [crawl_return state_of] in *.
  - injection H as <- <-.
    destruct (crawl_links_marks urlparse respond _ _ _ _ Ec) as [_ Hall].
    apply Forall_forall. intros u Hu. apply Hvis, Hall. exact Hu.
  - injection H as <- <-. apply crawl_links_break in Ec. lia.
  - discriminate.
Qed.

(** X12. [_normalize_url] ignores the slashes at the end of the path:
    two URLs with the same scheme and host whose paths differ only by
    trailing slashes have the same normalised URL, and the path of a
    normalised URL is "/" or does not end with a slash. *)
Theorem normalize_url_trailing_slashes (u v : str) (k : nat) :
  scheme (urlparse u) = scheme (urlparse v) ->
  netloc (urlparse u) = netloc (urlparse v) ->
  path (urlparse v) = path (urlparse u) ++ repeat "/"%char k ->
  _normalize_url urlparse u = _normalize_url urlparse v
  /\ exists p, _normalize_url urlparse u
               = scheme (urlparse u) ++ L "://" ++ netloc (urlparse u) ++ p
               /\ (p = L "/" \/ (p <> [] /\ last p <> Some "/"%char)).
Proof.
  intros Hs Hn Hp.
  assert (Hstrip : forall s j, rstrip_char "/"%char (s ++ repeat "/"%char j)
                               = rstrip_char "/"%char s).
  { clear. intros s j. induction s as [|c s IH]; cbn [app].
    - induction j as [|j IHj]; [reflexivity|].
      cbn [repeat rstrip_char]. rewrite IHj. reflexivity.
    - cbn [rstrip_char]. rewrite IH. reflexivity. }
  assert (Hlast : forall s, rstrip_char "/"%char s = []
                            \/ (rstrip_char "/"%char s <> []
                                /\ last (rstrip_char "/"%char s) <> Some "/"%char)).
  { clear. induction s as [|c s IH]; [left; reflexivity|].
    cbn [rstrip_char]. destruct (rstrip_char "/"%char s) as [|d t] eqn:E.
    - destruct (eqc c "/"%char) eqn:Ec; [left; reflexivity|].
      right. split; [discriminate|]. cbn. intros [= ->].
      vm_compute in Ec. discriminate.
    - right. split; [discriminate|].
      destruct IH as [IH|[_ IH]]; [discriminate|].
      rewrite last_cons. destruct (last (d :: t)) eqn:El; [exact IH|].
      apply last_None in El. discriminate. }
  unfold _normalize_url. cbn zeta. rewrite Hp, Hstrip, Hs, Hn. split; [reflexivity|].
  destruct (Hlast (path (urlparse u))) as [E|[Hne Hl]].
  - rewrite E. exists (L "/"). split; [reflexivity | left; reflexivity].
  - destruct (rstrip_char "/"%char (path (urlparse u))) as [|d t]; [congruence|].
    exists (d :: t). split; [reflexivity | right; split; assumption].
Qed.

End Facts.

End CrawlFacts.

(** ** Fetching one page with the browser *)

Module Page.

Import Fetch.

(** The calls that [BrowserSession.fetch] makes on the context and on the
    page, in the order they are made. *)
Inductive call : Type :=
| NewPage
| Goto (url : str)
| WaitForSelector (selector : str)
| Content
| Screenshot
| Pdf
| Close.

(** What a page answers to these calls: each of them returns or raises.
    [goto] returns the status of the response, or [None] when there is
    no response. *)
Record page : Type := mkPage {
  goto : str -> outcome (option Z);
  wait_for_selector : str -> option exn;
  content : outcome str;
  page_url : str;
  take_screenshot : outcome (list Byte.byte);
  make_pdf : outcome (list Byte.byte);
  close : option exn
}.

(** A computation that makes calls and returns or raises. *)
Definition M (A : Type) : Type := outcome A * list call.

Definition ret {A : Type} (a : A) : M A := (Returned a, []).

Definition bind {A B : Type} (m : M A) (f : A -> M B) : M B :=
  match m with
  | (Returned a, tr) => let '(r, tr') := f a in (r, tr ++ tr')
  | (Raised e, tr) => (Raised e, tr)
  end.

(** [await] of one call. *)
Definition await {A : Type} (c : call) (answer : outcome A) : M A := (answer, [c]).

Definition await_unit (c : call) (answer : option exn) : M unit :=
  match answer with
  | None => (Returned tt, [c])
  | Some e => (Raised e, [c])
  end.

(** [try: body finally: final]: [final] runs however [body] ends, and
    what it raises replaces the outcome of [body]. *)
Definition try_finally {A : Type} (body : M A) (final : M unit) : M A :=
  let '(r, tr) := body in
  match final with
  | (Returned _, tr') => (r, tr ++ tr')
  | (Raised e, tr') => (Raised e, tr ++ tr')
  end.

Notation "x <- m ;; f" := (bind m (fun x => f))
  (at level 100, m at next level, right associativity).

(** The truth value of [wait_for]: [None] and the empty string are
    false. *)
Definition selector_given (wait_for : option str) : option str :=
  match wait_for with
  | Some (c :: s) => Some (c :: s)
  | _ => None
  end.

(** [BrowserSession.fetch] of a session with the given [headless] flag,
    whose context answers [new_page] to [new_page()]. *)
Definition fetch (headless : bool) (new_page : outcome page) (url : str)
    (screenshot pdf : bool) (wait_for : option str) : M FetchResult :=
  page <- await NewPage new_page ;;
  try_finally
    (response <- await (Goto url) (goto page url) ;;
     let status := match response with Some code => code | None => 0%Z end in
     _ <- match selector_given wait_for with
          | Some selector =>
              await_unit (WaitForSelector selector) (wait_for_selector page selector)
          | None => ret tt
          end ;;
     html <- await Content (content page) ;;
     screenshot_bytes <- (if screenshot
                          then b <- await Screenshot (take_screenshot page) ;; ret (Some b)
                          else ret None) ;;
     pdf_bytes <- (if pdf
                   then if headless
                        then b <- await Pdf (make_pdf page) ;; ret (Some b)
                        else ret None
                   else ret None) ;;
     ret (mkFetchResult html (page_url page) status screenshot_bytes pdf_bytes []))
    (await_unit Close (close page)).

Definition sample_page : page :=
  mkPage (fun _ => Returned (Some 200%Z)) (fun _ => None) (Returned (L "<p>hi</p>"))
         (L "https://e.com/final") (Returned []) (Returned []) None.

Example fetch_plain :
  fetch true (Returned sample_page) (L "https://e.com/") false false None
  = (Returned (mkFetchResult (L "<p>hi</p>") (L "https://e.com/final") 200 None None []),
     [NewPage; Goto (L "https://e.com/"); Content; Close]).
Proof. reflexivity. Qed.

(** A page whose content cannot be read is closed all the same. *)
Example fetch_content_fails :
  fetch true
    (Returned (mkPage (fun _ => Returned None) (fun _ => None)
                 (Raised (Exception (L "Target closed"))) [] (Returned [])
                 (Returned []) None))
    (L "https://e.com/") true true None
  = (Raised (Exception (L "Target closed")),
     [NewPage; Goto (L "https://e.com/"); Content; Close]).
Proof. reflexivity. Qed.

(** The calls between the opening of the page and its closing. *)
Definition page_call (c : call) : bool :=
  match c with
  | NewPage | Close => false
  | _ => true
  end.

Definition is_pdf (c : call) : bool := match c with Pdf => true | _ => false end.

Definition is_screenshot (c : call) : bool :=
  match c with Screenshot => true | _ => false end.

(** X13. A page that [BrowserSession.fetch] opened is closed, once and as
    the last call, whether the navigation, the wait, the reading of the
    content, the screenshot or the PDF returns or raises; the navigation
    is the first call on the page. When the page cannot be opened the
    error is raised and nothing else is called. When the closing raises,
    this is what [fetch] raises. *)
Theorem fetch_closes_page (headless : bool) (new_page : outcome page) (url : str)
    (screenshot pdf : bool) (wait_for : option str) :
  let '(r, tr) := fetch headless new_page url screenshot pdf wait_for in
  match new_page with
  | Raised e => r = Raised e /\ tr = [NewPage]
  | Returned page =>
      (exists calls, tr = NewPage :: Goto url :: calls ++ [Close]
                     /\ forallb page_call calls = true)
      /\ (forall e, close page = Some e -> r = Raised e)
  end.
Proof.
  destruct new_page as [page|e]; [|split; reflexivity].
  unfold fetch, try_finally, await, await_unit, bind, ret.
  destruct (goto page url) as [response|e];
    [|destruct (close page); (split; [exists []; split; reflexivity|]);
      [intros e' [= <-]; reflexivity | discriminate]].
  destruct (selector_given wait_for) as [selector|];
    [destruct (wait_for_selector page selector)|];
    destruct (content page); destruct screenshot; try destruct (take_screenshot page);
    destruct pdf; destruct headless; try destruct (make_pdf page);
    destruct (close page); cbn [app];
    (split;
     [match goal with
      | |- exists calls, _ :: _ :: ?rest = _ /\ _ =>
          exists (removelast rest); split; reflexivity
      end|]);
    try discriminate; intros e' [= <-]; reflexivity.
Qed.

(** X14. What [BrowserSession.fetch] returns carries the URL of the page
    after the navigation, not the URL asked for, the status of the
    response, 0 when there was none, and no headers. It carries a
    screenshot exactly when one was asked for, and a PDF exactly when one
    was asked for in a headless session: in a session with a visible
    browser the PDF call is never made. *)
Theorem fetch_result_fields (headless : bool) (page : page) (url : str)
    (screenshot pdf : bool) (wait_for : option str) (result : FetchResult)
    (tr : list call) :
  fetch headless (Returned page) url screenshot pdf wait_for = (Returned result, tr) ->
  Fetch.url result = page_url page
  /\ Fetch.headers result = []
  /\ (goto page url = Returned None /\ Fetch.status result = 0%Z
      \/ goto page url = Returned (Some (Fetch.status result)))
  /\ content page = Returned (Fetch.html result)
  /\ (Fetch.screenshot result <> None <-> screenshot = true)
  /\ (Fetch.pdf result <> None <-> pdf = true /\ headless = true)
  /\ existsb is_screenshot tr = screenshot
  /\ existsb is_pdf tr = pdf && headless.
Proof.
  unfold fetch, try_finally, await, await_unit, bind, ret.
  destruct (goto page url) as [[code|]|e];
    [| |destruct (close page); discriminate].
  all: destruct (selector_given wait_for) as [selector|];
    [destruct (wait_for_selector page selector)|];
    destruct (content page); destruct screenshot; try destruct (take_screenshot page);
    destruct pdf; destruct headless; try destruct (make_pdf page);
    destruct (close page); cbn [app]; try discriminate;
    intros [= <- <-]; cbn;
    repeat split; try reflexivity; try discriminate; try tauto;
    try (intros [? ?]; discriminate); try (left; split; reflexivity);
    try (right; reflexivity); try (intros ?; congruence).
Qed.

Lemma fetch_result_fields_witness :
  fetch true (Returned sample_page) (L "https://e.com/") false true None
  = (Returned (mkFetchResult (L "<p>hi</p>") (L "https://e.com/final") 200 None
                 (Some []) []),
     [NewPage; Goto (L "https://e.com/"); Content; Pdf; Close])
  /\ Fetch.url (mkFetchResult (L "<p>hi</p>") (L "https://e.com/final") 200 None
                  (Some []) [])
     = page_url sample_page.
Proof.
  assert (H : fetch true (Returned sample_page) (L "https://e.com/") false true None
              = (Returned (mkFetchResult (L "<p>hi</p>") (L "https://e.com/final") 200
                             None (Some []) []),
                 [NewPage; Goto (L "https://e.com/"); Content; Pdf; Close]))
    by reflexivity.
  split; [exact H|].
  exact (proj1 (fetch_result_fields true sample_page (L "https://e.com/") false true None
                  (mkFetchResult (L "<p>hi</p>") (L "https://e.com/final") 200 None
                     (Some []) [])
                  [NewPage; Goto (L "https://e.com/"); Content; Pdf; Close] H)).
Defined.

End Page.

(** ** Refining the results of a crawl *)

Module Refiner.

Import Fetch.

(** [l[:n]] *)
Definition slice_to {A : Type} (n : Z) (l : list A) : list A :=
  if (0 <=? n)%Z then take (Z.to_nat n) l
  else take (length l - Z.to_nat (- n)) l.

Section Refine.

(** The fingerprint of a result: the hexadecimal digest of [xxh64] of the
    Markdown that [html_to_markdown] makes of the page. *)
Variable fingerprint : FetchResult -> str.

(** The date that [extract_date_from_html] finds in the page. *)
Variable date_of : FetchResult -> option str.

(** The loop of the deduplication. *)
Fixpoint unique_results (results : list FetchResult) (seen : gset str)
  : list FetchResult :=
  match results with
  | [] => []
  | r :: rest =>
      let fp := fingerprint r in
      if decide (fp ∈ seen) then unique_results rest seen
      else r :: unique_results rest ({[fp]} ∪ seen)
  end.

Definition dedupe_step (dedupe : bool) (results : list FetchResult)
  : list FetchResult :=
  if dedupe && (1 <? length results) then unique_results results ∅ else results.

Definition tag (r : FetchResult) : Extract.item FetchResult :=
  Extract.Item r (date_of r) (Some (url r)).

Definition sort_step (sort_by_date : bool) (results : list FetchResult)
  : list FetchResult :=
  if sort_by_date && (1 <? length results)
  then map Extract.result (Extract.sort_results_by_date (map tag results) true)
  else results.

(** [limit] is [None] when the option is not given; [None] and 0 are
    false. *)
Definition limit_step (limit : option Z) (results : list FetchResult)
  : list FetchResult :=
  match limit with
  | Some n =>
      if negb (n =? 0)%Z && (n <? Z.of_nat (length results))%Z
      then slice_to n results
      else results
  | None => results
  end.

(** The results that [_run_deep_crawl] goes on to process. *)
Definition refine (dedupe sort_by_date : bool) (limit : option Z)
    (results : list FetchResult) : list FetchResult :=
  limit_step limit (sort_step sort_by_date (dedupe_step dedupe results)).

Lemma unique_results_sublist (results : list FetchResult) (seen : gset str) :
  unique_results results seen `sublist_of` results.
Proof using Type.
  revert seen. induction results as [|r rest IH]; intros seen; [constructor|].
  cbn [unique_results]. cbn zeta. destruct (decide (fingerprint r ∈ seen)).
  - apply sublist_cons, IH.
  - apply sublist_skip, IH.
Qed.

Lemma unique_results_fresh (results : list FetchResult) (seen : gset str)
    (r : FetchResult) :
  r ∈ unique_results results seen -> fingerprint r ∉ seen.
Proof using Type.
  revert seen. induction results as [|x rest IH]; intros seen; [intros H; inversion H|].
  cbn [unique_results]. cbn zeta. destruct (decide (fingerprint x ∈ seen)) as [Hin|Hnew].
  - apply IH.
  - intros H. apply elem_of_cons in H. destruct H as [->|H]; [exact Hnew|].
    apply IH in H. intros Hs. apply H. apply elem_of_union_r. exact Hs.
Qed.

Lemma unique_results_NoDup (results : list FetchResult) (seen : gset str) :
  NoDup (map fingerprint (unique_results results seen)).
Proof using Type.
  revert seen. induction results as [|x rest IH]; intros seen; [constructor|].
  cbn [unique_results]. cbn zeta. destruct (decide (fingerprint x ∈ seen)) as [Hin|Hnew];
    [apply IH|].
  cbn [map]. apply NoDup_cons. split; [|apply IH].
  change (map fingerprint (unique_results rest ({[fingerprint x]} ∪ seen)))
    with (fingerprint <$> unique_results rest ({[fingerprint x]} ∪ seen)).
  intros H. apply list_elem_of_fmap in H. destruct H as (y & Hy & Hin).
  apply unique_results_fresh in Hin. apply Hin.
  apply elem_of_union_l, elem_of_singleton. symmetry. exact Hy.
Qed.

Lemma unique_results_first (l1 l2 : list FetchResult) (r : FetchResult)
    (seen : gset str) :
  fingerprint r ∉ seen ->
  fingerprint r ∉ map fingerprint l1 ->
  r ∈ unique_results (l1 ++ r :: l2) seen.
Proof using Type.
  revert seen. induction l1 as [|x l1 IH]; intros seen Hseen Hl1.
  - cbn [app unique_results]. cbn zeta. rewrite decide_False by exact Hseen.
    apply elem_of_cons. left. reflexivity.
  - cbn [map] in Hl1. apply not_elem_of_cons in Hl1. destruct Hl1 as [Hx Hl1].
    cbn [app unique_results]. cbn zeta.
    destruct (decide (fingerprint x ∈ seen)); [apply IH; assumption|].
    apply elem_of_cons. right. apply IH; [|exact Hl1].
    apply not_elem_of_union. split; [|exact Hseen].
    apply not_elem_of_singleton. exact Hx.
Qed.

Lemma unique_results_covers (results : list FetchResult) (seen : gset str)
    (r : FetchResult) :
  r ∈ results ->
  fingerprint r ∈ seen
  \/ fingerprint r ∈ map fingerprint (unique_results results seen).
Proof using Type.
  revert seen. induction results as [|x rest IH]; intros seen H; [inversion H|].
  cbn [unique_results]. cbn zeta. apply elem_of_cons in H.
  destruct (decide (fingerprint x ∈ seen)) as [Hin|Hnew].
  - destruct H as [->|H]; [left; exact Hin | apply IH; exact H].
  - cbn [map]. destruct H as [->|H];
      [right; apply elem_of_cons; left; reflexivity|].
    destruct (IH ({[fingerprint x]} ∪ seen) H) as [Hs|Hs];
      [|right; apply elem_of_cons; right; exact Hs].
    apply elem_of_union in Hs. destruct Hs as [Hs|Hs].
    + apply elem_of_singleton in Hs. right. apply elem_of_cons. left. exact Hs.
    + left. exact Hs.
Qed.

(** X15. The deduplication keeps, of the results with one fingerprint,
    the first one and no other: what is left is a subsequence of the
    results, in their order, with distinct fingerprints, every
    fingerprint of the results is still there, and a result whose
    fingerprint no earlier result has is kept. In particular the first
    result is kept. *)
Theorem dedupe_keeps_first (results : list FetchResult) :
  let out := dedupe_step true results in
  out `sublist_of` results
  /\ NoDup (map fingerprint out)
  /\ (forall r, r ∈ results -> fingerprint r ∈ map fingerprint out)
  /\ (forall l1 r l2, results = l1 ++ r :: l2 ->
                      fingerprint r ∉ map fingerprint l1 -> r ∈ out)
  /\ head out = head results.
Proof.
  cbn zeta. unfold dedupe_step. cbn [andb].
  destruct results as [|a [|b rest]]; cbn [length Nat.ltb Nat.leb].
  - split; [reflexivity|]. split; [constructor|].
    split; [intros r H; inversion H|].
    split; [|reflexivity].
    intros [|x l1] r l2 H; discriminate.
  - split; [reflexivity|]. split; [apply NoDup_singleton|].
    split.
    { intros r H. apply list_elem_of_singleton in H. subst r.
      apply elem_of_cons. left. reflexivity. }
    split; [|reflexivity].
    intros [|x l1] r l2 H _; [|destruct l1; discriminate].
    injection H as <-. apply elem_of_cons. left. reflexivity.
  - split; [apply unique_results_sublist|].
    split; [apply unique_results_NoDup|].
    split.
    { intros r H. destruct (unique_results_covers _ ∅ r H) as [Hs|Hs]; [|exact Hs].
      apply not_elem_of_empty in Hs. contradiction. }
    split.
    { intros l1 r l2 -> Hl1. apply unique_results_first; [|exact Hl1].
      apply not_elem_of_empty. }
    cbn [unique_results]. cbn zeta. rewrite decide_False by apply not_elem_of_empty.
    reflexivity.
Qed.

Lemma slice_to_sublist {A : Type} (n : Z) (l : list A) : slice_to n l `sublist_of` l.
Proof. unfold slice_to. destruct (0 <=? n)%Z; apply sublist_take. Qed.

Lemma limit_step_sublist (limit : option Z) (results : list FetchResult) :
  limit_step limit results `sublist_of` results.
Proof using Type.
  unfold limit_step. destruct limit as [n|]; [|reflexivity].
  destruct (_ && _); [apply slice_to_sublist | reflexivity].
Qed.

Lemma sort_step_perm (sort_by_date : bool) (results : list FetchResult) :
  Permutation (sort_step sort_by_date results) results.
Proof using Type.
  unfold sort_step. destruct (_ && _); [|reflexivity].
  unfold Extract.sort_results_by_date.
  rewrite PySort.sorted_perm, map_map. cbn [tag Extract.result].
  rewrite map_id. reflexivity.
Qed.

Lemma dedupe_step_sublist (dedupe : bool) (results : list FetchResult) :
  dedupe_step dedupe results `sublist_of` results.
Proof using Type.
  unfold dedupe_step. destruct (_ && _); [apply unique_results_sublist | reflexivity].
Qed.

Lemma dedupe_step_NoDup (results : list FetchResult) :
  NoDup (map fingerprint (dedupe_step true results)).
Proof using Type.
  unfold dedupe_step. cbn [andb].
  destruct results as [|a [|b rest]]; cbn [length Nat.ltb Nat.leb].
  - constructor.
  - apply NoDup_singleton.
  - apply unique_results_NoDup.
Qed.

(** X16. The results that [_run_deep_crawl] processes, after the
    deduplication, the sort and the limit, are results of the crawl, none
    taken more often than the crawl returned it. With a limit of at least
    1 there are no more of them than the limit; with deduplication no two
    of them have one fingerprint; without the sort they are a subsequence
    of the results of the crawl. A limit of 0 is no limit, and a negative
    limit [-k] drops the last [k] of the results. *)
Theorem refine_results (dedupe sort_by_date : bool) (limit : option Z)
    (results : list FetchResult) :
  let out := refine dedupe sort_by_date limit results in
  out ⊆+ results
  /\ (forall n, limit = Some n -> (1 <= n)%Z -> (Z.of_nat (length out) <= n)%Z)
  /\ (dedupe = true -> NoDup (map fingerprint out))
  /\ (sort_by_date = false -> out `sublist_of` results)
  /\ (limit = Some 0%Z ->
      out = sort_step sort_by_date (dedupe_step dedupe results))
  /\ (forall k, limit = Some (- Z.of_nat (S k))%Z ->
      let l := sort_step sort_by_date (dedupe_step dedupe results) in
      out = take (length l - S k) l).
Proof.
  cbn zeta. unfold refine.
  set (l1 := dedupe_step dedupe results).
  set (l2 := sort_step sort_by_date l1).
  assert (H1 : l1 `sublist_of` results) by apply dedupe_step_sublist.
  assert (H2 : Permutation l2 l1) by apply sort_step_perm.
  assert (H3 : limit_step limit l2 `sublist_of` l2) by apply limit_step_sublist.
  split.
  { etransitivity; [apply sublist_submseteq; exact H3|].
    etransitivity; [apply Permutation_submseteq; exact H2|].
    apply sublist_submseteq. exact H1. }
  split.
  { intros n -> Hn. unfold limit_step.
    destruct (Z.eqb_spec n 0) as [->|_]; [lia|]. cbn [negb andb].
    destruct (Z.ltb_spec n (Z.of_nat (length l2))) as [Hlt|Hge]; [|lia].
    unfold slice_to. destruct (Z.leb_spec 0 n) as [_|Hneg]; [|lia].
    rewrite length_take. lia. }
  split.
  { intros ->.
    assert (Hnd : NoDup (map fingerprint l2)).
    { rewrite H2. apply dedupe_step_NoDup. }
    eapply sublist_NoDup; [exact Hnd|].
    change (fingerprint <$> limit_step limit l2 `sublist_of` fingerprint <$> l2).
    apply fmap_sublist. exact H3. }
  split.
  { intros Hs. etransitivity; [exact H3|].
    unfold l2, sort_step. rewrite Hs. exact H1. }
  split.
  { intros ->. reflexivity. }
  intros k ->. unfold limit_step.
  assert (Hneg : (- Z.of_nat (S k) < 0)%Z) by lia.
  destruct (Z.eqb_spec (- Z.of_nat (S k)) 0) as [E|_]; [lia|]. cbn [negb andb].
  destruct (Z.ltb_spec (- Z.of_nat (S k)) (Z.of_nat (length l2))) as [_|Hge]; [|lia].
  unfold slice_to. destruct (Z.leb_spec 0 (- Z.of_nat (S k))) as [Hpos|_]; [lia|].
  rewrite Z.opp_involutive, Nat2Z.id. reflexivity.
Qed.

End Refine.

Example refine_negative_limit :
  map status
    (refine (fun r => html r) (fun _ => None) false false (Some (-1)%Z)
       [mkFetchResult (L "a") (L "https://e.com/") 200 None None [];
        mkFetchResult (L "b") (L "https://e.com/b") 201 None None [];
        mkFetchResult (L "c") (L "https://e.com/c") 202 None None []])
  = [200; 201]%Z.
Proof. reflexivity. Qed.

Lemma refine_results_witness :
  (1 <= 2)%Z
  /\ (Z.of_nat
        (length
           (refine (fun r => html r) (fun _ => None) true true (Some 2%Z)
              [mkFetchResult (L "a") (L "https://e.com/") 200 None None [];
               mkFetchResult (L "a") (L "https://e.com/copy") 200 None None [];
               mkFetchResult (L "b") (L "https://e.com/b") 200 None None [];
               mkFetchResult (L "c") (L "https://e.com/c") 200 None None []]))
      <= 2)%Z.
Proof.
  assert (H : (1 <= 2)%Z) by discriminate.
  split; [exact H|].
  exact (proj1 (proj2 (refine_results (fun r => html r) (fun _ => None) true true
                         (Some 2%Z)
                         [mkFetchResult (L "a") (L "https://e.com/") 200 None None [];
                          mkFetchResult (L "a") (L "https://e.com/copy") 200 None None [];
                          mkFetchResult (L "b") (L "https://e.com/b") 200 None None [];
                          mkFetchResult (L "c") (L "https://e.com/c") 200 None None []]))
           2%Z eq_refl H).
Defined.

End Refiner.

(** ** More on the sort by date *)

Module DateOrder.

Import PyOrder Extract.

Section Facts.

Context {R : Type}.

(** The test that [sorted] makes for the given direction. *)
Definition before_in (descending : bool) (y x : item R) : bool :=
  if descending
  then lt key_compare (get_sort_key descending x) (get_sort_key descending y)
  else lt key_compare (get_sort_key descending y) (get_sort_key descending x).

Lemma sort_results_by_date_sorted (results : list (item R)) (descending : bool) :
  sort_results_by_date results descending
  = PySort.sorted (before_in descending) results.
Proof. reflexivity. Qed.

Lemma before_in_asym (descending : bool) (a b : item R) :
  before_in descending a b = true -> before_in descending b a = false.
Proof. unfold before_in. destruct descending; apply (lt_asym key_compare). Qed.

Lemma before_in_not_trans (descending : bool) (a b c : item R) :
  before_in descending a b = false -> before_in descending b c = false ->
  before_in descending a c = false.
Proof.
  unfold before_in. destruct descending; intros Hab Hbc.
  - apply (not_lt_trans key_compare _ _ _ Hbc Hab).
  - apply (not_lt_trans key_compare _ _ _ Hab Hbc).
Qed.

Lemma StronglySorted_later (Q : item R -> item R -> Prop) (l1 l2 : list (item R))
    (a b : item R) :
  StronglySorted Q (l1 ++ b :: l2) -> a ∈ l2 -> Q b a.
Proof.
  induction l1 as [|x l1 IH]; cbn [app]; intros H Ha.
  - apply StronglySorted_inv in H. destruct H as [_ H].
    rewrite Forall_forall in H. apply H. exact Ha.
  - apply StronglySorted_inv in H. destruct H as [H _]. apply IH; assumption.
Qed.

(** X17. Sorting by date, earliest first, permutes the results and puts
    them in the order of their keys, the date and then the URL, an
    undated result having the date 0000-00-00; results with one key stay
    in the order of the input. *)
Theorem sort_results_by_date_ascending (results : list (item R)) :
  let out := sort_results_by_date results false in
  Permutation out results
  /\ StronglySorted
       (fun a b => lt key_compare (get_sort_key false b) (get_sort_key false a) = false)
       out
  /\ (forall k,
        filter (fun it => get_sort_key false it = k) out
        = filter (fun it => get_sort_key false it = k) results).
Proof.
  cbn zeta. rewrite sort_results_by_date_sorted.
  split; [apply PySort.sorted_perm|]. split.
  - exact (PySort.sorted_in_order (before_in false) (before_in_asym false)
             (before_in_not_trans false) results).
  - intros k. apply PySort.sorted_stable.
    intros a b Ha Hb. unfold before_in, lt. rewrite Ha, Hb.
    rewrite (cmp_refl key_compare). reflexivity.
Qed.

(** X18. In both directions the undated results come out before the
    dated ones: no undated result follows a result whose date lies
    between 0000-00-00 and 9999-99-99, as every date of the calendar
    does. The docstring of [sort_results_by_date] sends them to the
    end. *)
Theorem sort_results_by_date_undated_first (results : list (item R))
    (descending : bool) (l1 l2 : list (item R)) (a b : item R) (d : str) :
  sort_results_by_date results descending = l1 ++ b :: l2 ->
  published_date b = Some d ->
  lt str_compare (L "0000-00-00") d = true ->
  lt str_compare d (L "9999-99-99") = true ->
  published_date a = None ->
  a ∉ l2.
Proof.
  intros Hout Hb Hlo Hhi Ha Hin.
  pose proof (PySort.sorted_in_order (before_in descending) (before_in_asym descending)
                (before_in_not_trans descending) results) as Hs.
  rewrite <- sort_results_by_date_sorted, Hout in Hs.
  pose proof (StronglySorted_later _ l1 l2 a b Hs Hin) as Hab.
  unfold PySort.in_order, before_in, get_sort_key in Hab.
  rewrite Ha, Hb in Hab. unfold lt, key_compare, lex_pair in Hab. cbn [fst snd] in Hab.
  unfold lt in Hlo, Hhi.
  destruct descending.
  - destruct (str_compare d (L "9999-99-99")); discriminate.
  - destruct (str_compare (L "0000-00-00") d); discriminate.
Qed.

End Facts.

Lemma sort_results_by_date_undated_first_witness :
  sort_results_by_date
    [Item 0 (Some (L "2024-02-11")) (Some (L "https://e.com/a"));
     Item 1 None (Some (L "https://e.com/b"));
     Item 2 (Some (L "2023-05-01")) (Some (L "https://e.com/c"))] false
  = [Item 1 None (Some (L "https://e.com/b"))]
    ++ Item 2 (Some (L "2023-05-01")) (Some (L "https://e.com/c"))
    :: [Item 0 (Some (L "2024-02-11")) (Some (L "https://e.com/a"))]
  /\ Item 1 None (Some (L "https://e.com/b"))
     ∉ [Item 0 (Some (L "2024-02-11")) (Some (L "https://e.com/a"))].
Proof.
  assert (H : sort_results_by_date
                [Item 0 (Some (L "2024-02-11")) (Some (L "https://e.com/a"));
                 Item 1 None (Some (L "https://e.com/b"));
                 Item 2 (Some (L "2023-05-01")) (Some (L "https://e.com/c"))] false
              = [Item 1 None (Some (L "https://e.com/b"))]
                ++ Item 2 (Some (L "2023-05-01")) (Some (L "https://e.com/c"))
                :: [Item 0 (Some (L "2024-02-11")) (Some (L "https://e.com/a"))])
    by reflexivity.
  split; [exact H|].
  exact (sort_results_by_date_undated_first
           [Item 0 (Some (L "2024-02-11")) (Some (L "https://e.com/a"));
            Item 1 None (Some (L "https://e.com/b"));
            Item 2 (Some (L "2023-05-01")) (Some (L "https://e.com/c"))] false
           [Item 1 None (Some (L "https://e.com/b"))]
           [Item 0 (Some (L "2024-02-11")) (Some (L "https://e.com/a"))]
           (Item 1 None (Some (L "https://e.com/b")))
           (Item 2 (Some (L "2023-05-01")) (Some (L "https://e.com/c")))
           (L "2023-05-01") H eq_refl eq_refl eq_refl eq_refl).
Defined.

End DateOrder.

(** ** Scanning a text for the matches of a pattern *)

Module ReScan.

(** What a scan of the text sees, from left to right: a character
    outside every match, or a match with what was read off it. *)
Inductive part (A : Type) : Type :=
| Char (c : ascii)
| Found (a : A).

Arguments Char {A} c.
Arguments Found {A} a.

(** The scan that [re.findall] and [re.sub] make for a pattern that
    matches no empty text: [m s] is the match of the pattern at the start
    of [s], if there is one, with its length. At a match the scan goes on
    after it, otherwise one character further. *)
Equations? scan_text {A : Type} (m : str -> option (A * nat)) (s : str)
  : list (part A) by wf (length s) lt :=
  scan_text m [] := [];
  scan_text m (c :: r) with m (c :: r) := {
    | Some (a, n) := Found a :: scan_text m (skipn (Nat.pred n) r)
    | None := Char c :: scan_text m r }.
Proof.
  all: simpl; try lia.
  rewrite length_skipn. lia.
Qed.

Lemma scan_text_cons {A : Type} (m : str -> option (A * nat)) (c : ascii) (r : str) :
  scan_text m (c :: r) =
  match m (c :: r) with
  | Some (a, n) => Found a :: scan_text m (skipn (Nat.pred n) r)
  | None => Char c :: scan_text m r
  end.
Proof. simp scan_text. destruct (m (c :: r)) as [[a n]|]; reflexivity. Qed.

(** [re.findall(pattern, s)] *)
Definition findall {A : Type} (m : str -> option (A * nat)) (s : str) : list A :=
  omap (fun p => match p with Found a => Some a | Char _ => None end) (scan_text m s).

(** [re.sub(pattern, repl, s)], [repl a] being the replacement of a
    match. *)
Definition sub {A : Type} (m : str -> option (A * nat)) (repl : A -> str) (s : str)
  : str :=
  concat (map (fun p => match p with Found a => repl a | Char c => [c] end) (scan_text m s)).

Lemma findall_cons {A : Type} (m : str -> option (A * nat)) (c : ascii) (r : str) :
  findall m (c :: r) =
  match m (c :: r) with
  | Some (a, n) => a :: findall m (skipn (Nat.pred n) r)
  | None => findall m r
  end.
Proof.
  unfold findall. rewrite scan_text_cons.
  destruct (m (c :: r)) as [[a n]|]; reflexivity.
Qed.

Lemma sub_cons {A : Type} (m : str -> option (A * nat)) (repl : A -> str)
    (c : ascii) (r : str) :
  sub m repl (c :: r) =
  match m (c :: r) with
  | Some (a, n) => repl a ++ sub m repl (skipn (Nat.pred n) r)
  | None => c :: sub m repl r
  end.
Proof.
  unfold sub. rewrite scan_text_cons.
  destruct (m (c :: r)) as [[a n]|]; reflexivity.
Qed.

(** Every match that [findall] returns was found at some place of the
    text. *)
Lemma findall_found {A : Type} (m : str -> option (A * nat)) (s : str) (a : A) :
  a ∈ findall m s -> exists before rest n, s = before ++ rest /\ m rest = Some (a, n).
Proof.
  remember (length s) as k eqn:Hk.
  revert s Hk. induction k as [k IH] using lt_wf_ind. intros s -> Hin.
  destruct s as [|c r]; [inversion Hin|].
  rewrite findall_cons in Hin.
  destruct (m (c :: r)) as [[b n]|] eqn:Em.
  - apply elem_of_cons in Hin. destruct Hin as [->|Hin].
    + exists [], (c :: r), n. split; [reflexivity | exact Em].
    + eapply IH in Hin; [| |reflexivity]; [|rewrite length_skipn; simpl; lia].
      destruct Hin as (before & rest & n' & Hs & Hm).
      exists (c :: take (Nat.pred n) r ++ before), rest, n'.
      split; [|exact Hm].
      cbn [app]. rewrite <- app_assoc, <- Hs.
      change (skipn (Nat.pred n) r) with (drop (Nat.pred n) r).
      rewrite take_drop. reflexivity.
  - eapply IH in Hin; [| |reflexivity]; [|simpl; lia].
    destruct Hin as (before & rest & n' & Hs & Hm).
    exists (c :: before), rest, n'. split; [|exact Hm]. rewrite Hs. reflexivity.
Qed.

(** Where the pattern matches nowhere, [sub] changes nothing and
    [findall] finds nothing. *)
Lemma scan_text_no_match {A : Type} (m : str -> option (A * nat)) (s : str) :
  (forall a b, s = a ++ b -> m b = None) -> scan_text m s = map Char s.
Proof.
  induction s as [|c r IH]; intros Hno; [simp scan_text; reflexivity|].
  rewrite scan_text_cons, (Hno [] (c :: r) eq_refl). cbn [map]. f_equal.
  apply IH. intros a b ->. apply (Hno (c :: a) b). reflexivity.
Qed.

Lemma sub_no_match {A : Type} (m : str -> option (A * nat)) (repl : A -> str)
    (s : str) :
  (forall a b, s = a ++ b -> m b = None) -> sub m repl s = s.
Proof.
  intros Hno. unfold sub. rewrite (scan_text_no_match m s Hno), map_map.
  clear. induction s as [|c r IH]; [reflexivity|]. cbn [map concat app]. rewrite IH.
  reflexivity.
Qed.

(** When the replacement of a match is a subsequence of the text
    matched, [sub] only deletes. *)
Lemma sub_deletes {A : Type} (m : str -> option (A * nat)) (repl : A -> str)
    (s : str) :
  (forall t a n, m t = Some (a, n) -> repl a `sublist_of` take n t) ->
  sub m repl s `sublist_of` s.
Proof.
  intros Hrepl. remember (length s) as k eqn:Hk.
  revert s Hk. induction k as [k IH] using lt_wf_ind. intros s ->.
  destruct s as [|c r]; [unfold sub; simp scan_text; constructor|].
  rewrite sub_cons.
  destruct (m (c :: r)) as [[a n]|] eqn:Em.
  - specialize (Hrepl _ _ _ Em).
    assert (IHr : sub m repl (skipn (Nat.pred n) r) `sublist_of` skipn (Nat.pred n) r).
    { eapply IH; [|reflexivity]. rewrite length_skipn. simpl. lia. }
    destruct n as [|n].
    + cbn [take] in Hrepl. apply sublist_nil_r in Hrepl. rewrite Hrepl.
      cbn [app Nat.pred skipn] in *. apply sublist_cons. exact IHr.
    + cbn [Nat.pred] in *. cbn [take] in Hrepl.
      rewrite <- (take_drop n r) at 2.
      change (c :: take n r ++ drop n r) with ((c :: take n r) ++ drop n r).
      apply sublist_app; [exact Hrepl | exact IHr].
  - apply sublist_skip. eapply IH; [|reflexivity]. simpl. lia.
Qed.

(** When the replacement of a match keeps the characters of a class
    that the text matched has, [sub] keeps them all. *)
Lemma sub_keeps {A : Type} (P : ascii -> Prop) `{!forall c, Decision (P c)}
    (m : str -> option (A * nat)) (repl : A -> str) (s : str) :
  (forall t a n, m t = Some (a, n) ->
                 1 <= n /\ filter P (repl a) = filter P (take n t)) ->
  filter P (sub m repl s) = filter P s.
Proof.
  intros Hrepl. remember (length s) as k eqn:Hk.
  revert s Hk. induction k as [k IH] using lt_wf_ind. intros s ->.
  destruct s as [|c r]; [unfold sub; simp scan_text; reflexivity|].
  rewrite sub_cons.
  destruct (m (c :: r)) as [[a n]|] eqn:Em.
  - destruct (Hrepl _ _ _ Em) as [Hn Hf].
    destruct n as [|n]; [lia|]. cbn [Nat.pred].
    unfold str in *. rewrite filter_app, Hf.
    rewrite (IH (length (skipn n r))); [|rewrite length_skipn; simpl; lia|reflexivity].
    rewrite <- filter_app. cbn [take]. change (skipn n r) with (drop n r).
    change ((c :: take n r) ++ drop n r) with (c :: take n r ++ drop n r).
    rewrite take_drop. reflexivity.
  - unfold str in *. rewrite !filter_cons.
    rewrite (IH (length r)); [reflexivity|simpl; lia|reflexivity].
Qed.

End ReScan.

(** ** The images of a Markdown text *)

Module Media.

Import ReScan.
Import Citations (not_char).

(** The image pattern of [find_image_urls] tried at the start of [s]: an
    exclamation mark, an opening bracket, any characters but the closing
    bracket, a closing bracket, an opening parenthesis, group 1 (one or
    more characters but the closing parenthesis), a closing parenthesis.
    The text in brackets can only end at the first closing bracket and
    group 1 at the first closing parenthesis, so the match is unique when
    there is one. The result is group 1 and the length of the match. *)
Definition match_image (s : str) : option (str * nat) :=
  match s with
  | c0 :: c1 :: s1 =>
      if eqc c0 "!"%char && eqc c1 "["%char then
        let alt := take_while (not_char "]"%char) s1 in
        match drop_while (not_char "]"%char) s1 with
        | c2 :: c3 :: s2 =>
            if eqc c2 "]"%char && eqc c3 "("%char then
              let target := take_while (not_char ")"%char) s2 in
              match target, drop_while (not_char ")"%char) s2 with
              | _ :: _, _ :: _ => Some (target, length alt + length target + 5)
              | _, _ => None
              end
            else None
        | _ => None
        end
      else None
  | _ => None
  end.

Definition find_image_urls (markdown : str) : list str :=
  List.filter (fun u => startswith u (L "http")) (findall match_image markdown).

Example two_images :
  find_image_urls (L "![a](https://e.com/a.png) ![b](/local.png) [c](http://e.com) ![](http://e.com/d)")
  = [L "https://e.com/a.png"; L "http://e.com/d"].
Proof. reflexivity. Qed.

Lemma eqc_true (a b : ascii) : eqc a b = true -> a = b.
Proof. apply Ascii.eqb_eq. Qed.

(** What a match of the image pattern is. *)
Lemma match_image_shape (s : str) (target : str) (n : nat) :
  match_image s = Some (target, n) ->
  exists alt rest,
    s = L "![" ++ alt ++ L "](" ++ target ++ L ")" ++ rest
    /\ target <> []
    /\ Forall (fun c => c <> ")"%char) target
    /\ Forall (fun c => c <> "]"%char) alt.
Proof.
  unfold match_image.
  destruct s as [|c0 [|c1 s1]]; try discriminate.
  destruct (eqc c0 "!"%char) eqn:E0; [|discriminate].
  destruct (eqc c1 "["%char) eqn:E1; [|discriminate]. cbn [andb].
  apply eqc_true in E0, E1. subst c0 c1.
  pose proof (Re.take_while_app_drop (not_char "]"%char) s1) as Hs1.
  pose proof (Re.take_while_class (not_char "]"%char) s1) as Halt.
  destruct (drop_while (not_char "]"%char) s1) as [|c2 [|c3 s2]]; try discriminate.
  destruct (eqc c2 "]"%char) eqn:E2; [|discriminate].
  destruct (eqc c3 "("%char) eqn:E3; [|discriminate]. cbn [andb].
  apply eqc_true in E2, E3. subst c2 c3.
  pose proof (Re.take_while_app_drop (not_char ")"%char) s2) as Hs2.
  pose proof (Re.take_while_class (not_char ")"%char) s2) as Htarget.
  destruct (take_while (not_char ")"%char) s2) as [|t0 t] eqn:Et; [discriminate|].
  destruct (drop_while (not_char ")"%char) s2) as [|c4 rest] eqn:Ed; [discriminate|].
  intros [= <- <-].
  assert (E4 : c4 = ")"%char).
  { assert (Hd : not_char ")"%char c4 = false).
    { clear -Ed. induction s2 as [|x s2 IH]; simpl in Ed; [discriminate|].
      destruct (not_char ")"%char x) eqn:Ex; [apply IH; exact Ed|].
      injection Ed as -> _. exact Ex. }
    unfold not_char in Hd. apply negb_false_iff in Hd. apply eqc_true in Hd. exact Hd. }
  subst c4.
  exists (take_while (not_char "]"%char) s1), rest.
  split.
  { rewrite <- Hs1 at 1. rewrite <- Hs2. reflexivity. }
  split; [discriminate|].
  split.
  - eapply Forall_impl; [exact Htarget|]. intros c Hc ->. discriminate.
  - eapply Forall_impl; [exact Halt|]. intros c Hc ->. discriminate.
Qed.

(** X19. Every URL that [find_image_urls] returns starts with "http" and
    is the target of an image of the text: the text holds, in one part,
    an exclamation mark, a text in brackets without a closing bracket,
    and the URL in parentheses, and the URL has no closing parenthesis.
    A text without the two characters "![" has no image URL. *)
Theorem find_image_urls_sound (markdown : str) :
  Forall (fun u =>
            startswith u (L "http") = true
            /\ Forall (fun c => c <> ")"%char) u
            /\ exists before alt rest,
                 markdown = before ++ L "![" ++ alt ++ L "](" ++ u ++ L ")" ++ rest
                 /\ Forall (fun c => c <> "]"%char) alt)
         (find_image_urls markdown)
  /\ (Normalizer.contains markdown (L "![") = false -> find_image_urls markdown = []).
Proof.
  split.
  - apply Forall_forall. intros u Hu. unfold find_image_urls in Hu.
    apply list_elem_of_In in Hu. apply List.filter_In in Hu. destruct Hu as [Hu Hhttp].
    apply list_elem_of_In in Hu.
    apply findall_found in Hu. destruct Hu as (before & rest & n & Hs & Hm).
    apply match_image_shape in Hm.
    destruct Hm as (alt & rest' & Hrest & _ & Hclean & Halt).
    split; [exact Hhttp|]. split; [exact Hclean|].
    exists before, alt, rest'. split; [|exact Halt]. rewrite Hs, Hrest. reflexivity.
  - intros Hno. unfold find_image_urls, findall.
    rewrite scan_text_no_match.
    + clear. induction markdown as [|c r IH]; [reflexivity|]. exact IH.
    + intros a b Hs. destruct (match_image b) as [[target n]|] eqn:Em; [|reflexivity].
      exfalso. apply match_image_shape in Em.
      destruct Em as (alt & rest & Hb & _).
      apply (Normalizer.contains_false _ _ Hno a (alt ++ L "](" ++ target ++ L ")" ++ rest)).
      rewrite Hs, Hb. reflexivity.
Qed.

Lemma take_while_stop (p : ascii -> bool) (a : str) (c : ascii) (r : str) :
  Forall (fun x => p x = true) a -> p c = false ->
  take_while p (a ++ c :: r) = a /\ drop_while p (a ++ c :: r) = c :: r.
Proof.
  intros Ha Hc. induction Ha as [|x a Hx Ha IH]; cbn [app take_while drop_while].
  - rewrite Hc. split; reflexivity.
  - rewrite Hx. destruct IH as [-> ->]. split; reflexivity.
Qed.

Lemma not_char_all (x : ascii) (s : str) :
  Forall (fun c => c <> x) s -> Forall (fun c => not_char x c = true) s.
Proof.
  intros H. eapply Forall_impl; [exact H|]. intros c Hc. unfold not_char.
  apply negb_true_iff. apply Ascii.eqb_neq. exact Hc.
Qed.

Lemma match_image_exact (alt u rest : str) :
  Forall (fun c => c <> "]"%char) alt -> u <> [] ->
  Forall (fun c => c <> ")"%char) u ->
  match_image (L "![" ++ alt ++ L "](" ++ u ++ L ")" ++ rest)
  = Some (u, length alt + length u + 5).
Proof.
  intros Halt Hu Hclean. unfold L. cbn [list_ascii_of_string app match_image].
  change (eqc "!"%char "!"%char) with true. change (eqc "["%char "["%char) with true.
  cbn [andb].
  destruct (take_while_stop (not_char "]"%char) alt "]"%char
              ("("%char :: u ++ ")"%char :: rest) (not_char_all _ _ Halt) eq_refl)
    as [-> ->].
  change (eqc "]"%char "]"%char) with true. change (eqc "("%char "("%char) with true.
  cbn [andb].
  destruct (take_while_stop (not_char ")"%char) u ")"%char rest
              (not_char_all _ _ Hclean) eq_refl) as [-> ->].
  destruct u; [congruence | reflexivity].
Qed.

(** X28. An image is found: when the text before it has no exclamation
    mark, the text in brackets no closing bracket and the target, not
    empty, no closing parenthesis, [find_image_urls] returns the target,
    if it starts with "http", followed by the image URLs of the text
    after the image. *)
Theorem find_image_urls_finds (before alt u rest : str) :
  Forall (fun c => c <> "!"%char) before ->
  Forall (fun c => c <> "]"%char) alt ->
  u <> [] ->
  Forall (fun c => c <> ")"%char) u ->
  find_image_urls (before ++ L "![" ++ alt ++ L "](" ++ u ++ L ")" ++ rest)
  = (if startswith u (L "http") then [u] else []) ++ find_image_urls rest.
Proof.
  intros Hb Halt Hu Hclean. unfold find_image_urls.
  induction Hb as [|c before Hc Hb IH].
  - pose proof (match_image_exact alt u rest Halt Hu Hclean) as Hm.
    cbn [app]. unfold L in *. cbn [list_ascii_of_string app] in *.
    rewrite findall_cons, Hm.
    assert (Hdrop : skipn (Nat.pred (length alt + length u + 5))
                      ("["%char :: alt ++ "]"%char :: "("%char :: u ++ ")"%char :: rest)
                    = rest).
    { replace (Nat.pred (length alt + length u + 5))
        with (length ((("["%char :: alt) ++ ("]"%char :: "("%char :: u)) ++ [")"%char]))
        by (rewrite !length_app; cbn [length]; lia).
      change ("["%char :: alt ++ "]"%char :: "("%char :: u ++ ")"%char :: rest)
        with (("["%char :: alt) ++ ("]"%char :: "("%char :: u) ++ [")"%char] ++ rest).
      rewrite !app_assoc. apply drop_app_length. }
    rewrite Hdrop. cbn [List.filter]. destruct (startswith u _); reflexivity.
  - cbn [app]. rewrite findall_cons.
    assert (Hnone : match_image
                      (c :: before ++ L "![" ++ alt ++ L "](" ++ u ++ L ")" ++ rest)
                    = None).
    { unfold match_image.
      destruct (before ++ L "![" ++ alt ++ L "](" ++ u ++ L ")" ++ rest);
        [reflexivity|].
      replace (eqc c "!"%char) with false; [reflexivity|].
      symmetry. apply Ascii.eqb_neq. exact Hc. }
    rewrite Hnone. exact IH.
Qed.

Lemma find_image_urls_finds_witness :
  find_image_urls (L "Figure: ![a chart](https://e.com/chart.png) and text")
  = [L "https://e.com/chart.png"].
Proof.
  assert (H1 : Forall (fun c => c <> "!"%char) (L "Figure: "))
    by (repeat constructor; discriminate).
  assert (H2 : Forall (fun c => c <> "]"%char) (L "a chart"))
    by (repeat constructor; discriminate).
  assert (H3 : L "https://e.com/chart.png" <> []) by discriminate.
  assert (H4 : Forall (fun c => c <> ")"%char) (L "https://e.com/chart.png"))
    by (repeat constructor; discriminate).
  exact (find_image_urls_finds (L "Figure: ") (L "a chart") (L "https://e.com/chart.png")
           (L " and text") H1 H2 H3 H4).
Defined.

Lemma find_image_urls_sound_witness :
  Normalizer.contains (L "A [link](https://e.com/) and no picture!") (L "![") = false
  /\ find_image_urls (L "A [link](https://e.com/) and no picture!") = [].
Proof.
  split; [reflexivity|].
  exact (proj2 (find_image_urls_sound (L "A [link](https://e.com/) and no picture!"))
           eq_refl).
Defined.

End Media.

(** ** The citation repair and the whole cleaning pass *)

Module Cleaner.

Import ReScan Re Normalizer.

(** The class [\w] on the code points below 256: the ASCII letters and
    digits, the underscore, and the letters and numbers of Latin-1. *)
Definition is_word (c : ascii) : bool :=
  let n := nat_of_ascii c in
  ((48 <=? n) && (n <=? 57)) || ((65 <=? n) && (n <=? 90)) || (n =? 95)
  || ((97 <=? n) && (n <=? 122))
  || (n =? 170) || (n =? 178) || (n =? 179) || (n =? 181) || (n =? 185)
  || (n =? 186) || ((188 <=? n) && (n <=? 190))
  || ((192 <=? n) && (n <=? 214)) || ((216 <=? n) && (n <=? 246))
  || (248 <=? n).

(** The class [\d] on the code points below 256. *)
Definition is_digit (c : ascii) : bool :=
  let n := nat_of_ascii c in (48 <=? n) && (n <=? 57).

Definition is_bracket (c : ascii) : bool := eqc c "["%char || eqc c "]"%char.

(** What follows group 1 in the pattern of [fix_citation_duplication],
    tried at the start of [rest]: whitespace, a number in brackets,
    whitespace, and the text of group 1 again. The whitespace and the
    number are read greedily, and what follows each of them starts with a
    character outside the class, so the match is unique when there is
    one. The result is the number and the length of what was read. *)
Definition match_marker (group : str) (rest : str) : option (str * nat) :=
  let ws1 := take_while isspace rest in
  match drop_while isspace rest with
  | c1 :: r2 =>
      if eqc c1 "["%char then
        let digits := take_while is_digit r2 in
        match digits, drop_while is_digit r2 with
        | _ :: _, c2 :: r4 =>
            if eqc c2 "]"%char then
              let ws2 := take_while isspace r4 in
              if startswith (drop_while isspace r4) group
              then Some (digits,
                         length ws1 + 1 + length digits + 1 + length ws2 + length group)
              else None
            else None
        | _, _ => None
        end
      else None
  | [] => None
  end.

(** Group 1 is read lazily: [group] is tried first, then [group] with one
    more character that is no bracket, up to [more] further characters. *)
Fixpoint match_group (more : nat) (group rest : str) : option (str * str * nat) :=
  match match_marker group rest with
  | Some (digits, n) => Some (group, digits, length group + n)
  | None =>
      match more, rest with
      | S more', c :: rest' =>
          if is_bracket c then None else match_group more' (group ++ [c]) rest'
      | _, _ => None
      end
  end.

(** The pattern of [fix_citation_duplication] tried at the start of [s]:
    groups 1 and 2 and the length of the match. Group 1 starts with a
    character of the class [\w] and goes on with at most 60 characters. *)
Definition match_duplication (s : str) : option (str * str * nat) :=
  match s with
  | c :: rest => if is_word c then match_group 60 [c] rest else None
  | [] => None
  end.

(** The replacement: group 1, and group 2 in brackets. *)
Definition marker (groups : str * str) : str :=
  fst groups ++ L "[" ++ snd groups ++ L "]".

Definition fix_citation_duplication (markdown : str) : str :=
  sub match_duplication marker markdown.

Example duplicated_link_text :
  fix_citation_duplication (L "see Report [12] Report for details")
  = L "see Report[12] for details".
Proof. reflexivity. Qed.

(** [clean_markdown] *)
Definition clean_markdown (markdown : str) : str :=
  if negb (truthy markdown) then markdown
  else
    strip (collapse_blank_lines
             (strip_empty_image_links
                (fix_citation_duplication
                   (Postprocess.fix_heading_linebreaks markdown)))).

(** The text of a match: group 1, whitespace, the number in brackets,
    whitespace, and group 1 again. *)
Definition matched (group ws1 digits ws2 : str) : str :=
  group ++ ws1 ++ L "[" ++ digits ++ L "]" ++ ws2 ++ group.

Lemma match_marker_shape (group rest digits : str) (n : nat) :
  match_marker group rest = Some (digits, n) ->
  exists ws1 ws2 tail,
    rest = ws1 ++ L "[" ++ digits ++ L "]" ++ ws2 ++ group ++ tail
    /\ n = length (ws1 ++ L "[" ++ digits ++ L "]" ++ ws2 ++ group)
    /\ Forall (fun c => isspace c = true) ws1
    /\ Forall (fun c => isspace c = true) ws2
    /\ Forall (fun c => is_digit c = true) digits.
Proof.
  unfold match_marker. cbn zeta.
  pose proof (take_while_app_drop isspace rest) as H1.
  pose proof (take_while_class isspace rest) as Hw1.
  destruct (drop_while isspace rest) as [|c1 r2]; [discriminate|].
  destruct (eqc c1 "["%char) eqn:E1; [|discriminate].
  apply Ascii.eqb_eq in E1. subst c1.
  pose proof (take_while_app_drop is_digit r2) as H2.
  pose proof (take_while_class is_digit r2) as Hd.
  destruct (take_while is_digit r2) as [|d0 ds]; [discriminate|].
  destruct (drop_while is_digit r2) as [|c2 r4]; [discriminate|].
  destruct (eqc c2 "]"%char) eqn:E2; [|discriminate].
  apply Ascii.eqb_eq in E2. subst c2.
  pose proof (take_while_app_drop isspace r4) as H3.
  pose proof (take_while_class isspace r4) as Hw2.
  destruct (startswith (drop_while isspace r4) group) eqn:E3; [|discriminate].
  apply Crawl.startswith_prefix in E3. destruct E3 as [tail Htail].
  intros [= <- <-].
  exists (take_while isspace rest), (take_while isspace r4), tail.
  split.
  { set (ws1 := take_while isspace rest) in *.
    set (ws2 := take_while isspace r4) in *.
    rewrite <- H1, <- H2, <- H3, Htail. cbn. rewrite <- ?app_assoc.
    reflexivity. }
  split; [|repeat split; assumption].
  unfold L. cbn [list_ascii_of_string]. rewrite !length_app. cbn [length]. lia.
Qed.

Lemma match_group_shape (more : nat) (group rest g digits : str) (n : nat) :
  match_group more group rest = Some (g, digits, n) ->
  exists ext ws1 ws2 tail,
    g = group ++ ext
    /\ rest = ext ++ ws1 ++ L "[" ++ digits ++ L "]" ++ ws2 ++ g ++ tail
    /\ n = length (matched g ws1 digits ws2)
    /\ Forall (fun c => is_bracket c = false) ext
    /\ Forall (fun c => isspace c = true) ws1
    /\ Forall (fun c => isspace c = true) ws2
    /\ Forall (fun c => is_digit c = true) digits.
Proof.
  revert group rest. induction more as [|more IH]; intros group rest; cbn [match_group].
  all: destruct (match_marker group rest) as [[ds k]|] eqn:Em.
  1,3: intros [= <- <- <-];
    apply match_marker_shape in Em;
    destruct Em as (ws1 & ws2 & tail & Hrest & Hk & Hw1 & Hw2 & Hd);
    exists [], ws1, ws2, tail; rewrite app_nil_r;
    (split; [reflexivity|]); (split; [exact Hrest|]);
    (split; [unfold matched; rewrite length_app, Hk; reflexivity|]);
    repeat split; try assumption; constructor.
  - discriminate.
  - destruct rest as [|c rest']; [discriminate|].
    destruct (is_bracket c) eqn:Ec; [discriminate|].
    intros H. apply IH in H.
    destruct H as (ext & ws1 & ws2 & tail & Hg & Hrest & Hn & Hext & Hw1 & Hw2 & Hd).
    exists (c :: ext), ws1, ws2, tail.
    split; [rewrite Hg, <- app_assoc; reflexivity|].
    split; [rewrite Hrest; reflexivity|].
    split; [exact Hn|].
    repeat split; try assumption. constructor; assumption.
Qed.

Lemma is_word_not_bracket (c : ascii) : is_word c = true -> is_bracket c = false.
Proof.
  unfold is_bracket. destruct (eqc c "["%char) eqn:E1.
  - apply Ascii.eqb_eq in E1. subst c. vm_compute. discriminate.
  - destruct (eqc c "]"%char) eqn:E2; [|reflexivity].
    apply Ascii.eqb_eq in E2. subst c. vm_compute. discriminate.
Qed.

(** What a match of the pattern is. *)
Lemma match_duplication_shape (s g digits : str) (n : nat) :
  match_duplication s = Some (g, digits, n) ->
  exists ws1 ws2 tail,
    s = matched g ws1 digits ws2 ++ tail
    /\ n = length (matched g ws1 digits ws2)
    /\ g <> []
    /\ Forall (fun c => is_bracket c = false) g
    /\ Forall (fun c => isspace c = true) ws1
    /\ Forall (fun c => isspace c = true) ws2
    /\ Forall (fun c => is_digit c = true) digits.
Proof.
  unfold match_duplication. destruct s as [|c rest]; [discriminate|].
  destruct (is_word c) eqn:Ec; [|discriminate].
  intros H. apply match_group_shape in H.
  destruct H as (ext & ws1 & ws2 & tail & Hg & Hrest & Hn & Hext & Hw1 & Hw2 & Hd).
  exists ws1, ws2, tail.
  split.
  { subst g. rewrite Hrest. unfold matched, L. cbn [list_ascii_of_string].
    rewrite <- !app_assoc. reflexivity. }
  split; [exact Hn|].
  split; [rewrite Hg; discriminate|].
  split; [|repeat split; assumption].
  rewrite Hg. constructor; [apply is_word_not_bracket; exact Ec | exact Hext].
Qed.

Lemma take_matched (g ws1 digits ws2 tail : str) :
  take (length (matched g ws1 digits ws2)) (matched g ws1 digits ws2 ++ tail)
  = matched g ws1 digits ws2.
Proof. apply take_app_length. Qed.

Lemma filter_none (P : ascii -> Prop) `{!forall c, Decision (P c)} (s : str) :
  Forall (fun c => ~ P c) s -> filter P s = [].
Proof.
  induction 1 as [|c r Hc Hr IH]; [reflexivity|].
  unfold str in *. rewrite filter_cons_False by exact Hc. exact IH.
Qed.

(** X20. [fix_citation_duplication] only deletes characters, and it
    deletes no bracket: the opening and closing brackets of the text come
    back, all of them and in their order. A text without an opening
    bracket comes back as it is. *)
Theorem fix_citation_duplication_deletes (markdown : str) :
  fix_citation_duplication markdown `sublist_of` markdown
  /\ filter (fun c => is_bracket c = true) (fix_citation_duplication markdown)
     = filter (fun c => is_bracket c = true) markdown
  /\ (existsb (fun c => eqc c "["%char) markdown = false ->
      fix_citation_duplication markdown = markdown).
Proof.
  unfold fix_citation_duplication. split; [|split].
  - apply sub_deletes. intros t [g ds] n Hm.
    apply match_duplication_shape in Hm.
    destruct Hm as (ws1 & ws2 & tail & -> & -> & _).
    rewrite take_matched. unfold marker, matched. cbn [fst snd].
    apply sublist_app; [reflexivity|].
    apply sublist_inserts_l.
    apply sublist_app; [reflexivity|].
    apply sublist_app; [reflexivity|].
    rewrite <- (app_nil_r (L "]")) at 1.
    apply sublist_app; [reflexivity|]. apply sublist_nil_l.
  - apply sub_keeps. intros t [g ds] n Hm.
    apply match_duplication_shape in Hm.
    destruct Hm as (ws1 & ws2 & tail & -> & -> & Hg & Hgb & Hw1 & Hw2 & Hd).
    split.
    { unfold matched. rewrite length_app. destruct g; [congruence|]. simpl. lia. }
    rewrite take_matched. unfold marker, matched. cbn [fst snd].
    assert (Fg : filter (fun c => is_bracket c = true) g = []).
    { apply filter_none. eapply Forall_impl; [exact Hgb|].
      intros c Hc. congruence. }
    assert (Fw : forall ws, Forall (fun c => isspace c = true) ws ->
                            filter (fun c => is_bracket c = true) ws = []).
    { intros ws Hws. apply filter_none. eapply Forall_impl; [exact Hws|].
      intros c Hc Hb. unfold is_bracket in Hb. apply orb_true_iff in Hb.
      destruct Hb as [Hb|Hb]; apply Ascii.eqb_eq in Hb; subst c;
        vm_compute in Hc; discriminate. }
    unfold str in *.
    rewrite !filter_app, Fg, (Fw ws1 Hw1), (Fw ws2 Hw2), !app_nil_r.
    reflexivity.
  - intros Hno. apply sub_no_match. intros a b ->.
    destruct (match_duplication b) as [[[g ds] n]|] eqn:Em; [|reflexivity].
    exfalso. apply match_duplication_shape in Em.
    destruct Em as (ws1 & ws2 & tail & -> & _).
    unfold matched in Hno. rewrite !existsb_app in Hno.
    apply orb_false_iff in Hno. destruct Hno as [_ Hno].
    apply orb_false_iff in Hno. destruct Hno as [Hno _].
    apply orb_false_iff in Hno. destruct Hno as [_ Hno].
    apply orb_false_iff in Hno. destruct Hno as [_ Hno].
    cbn in Hno. discriminate.
Qed.

Lemma fix_citation_duplication_deletes_witness :
  existsb (fun c => eqc c "["%char) (L "No marker in this text.") = false
  /\ fix_citation_duplication (L "No marker in this text.")
     = L "No marker in this text.".
Proof.
  split; [reflexivity|].
  exact (proj2 (proj2 (fix_citation_duplication_deletes (L "No marker in this text.")))
           eq_refl).
Defined.

Lemma match_marker_exact (c : ascii) (g ws1 digits ws2 tail : str) :
  isspace c = false ->
  Forall (fun x => isspace x = true) ws1 ->
  Forall (fun x => isspace x = true) ws2 ->
  Forall (fun x => is_digit x = true) digits ->
  digits <> [] ->
  match_marker (c :: g) (ws1 ++ L "[" ++ digits ++ L "]" ++ ws2 ++ (c :: g) ++ tail)
  = Some (digits, length (ws1 ++ L "[" ++ digits ++ L "]" ++ ws2 ++ c :: g)).
Proof.
  intros Hc Hw1 Hw2 Hd Hne. unfold match_marker, L.
  cbn [list_ascii_of_string app]. cbn zeta.
  destruct (Media.take_while_stop isspace ws1 "["%char
              (digits ++ "]"%char :: ws2 ++ c :: g ++ tail) Hw1 eq_refl) as [-> ->].
  change (eqc "["%char "["%char) with true. cbn iota.
  destruct (Media.take_while_stop is_digit digits "]"%char
              (ws2 ++ c :: g ++ tail) Hd eq_refl) as [-> ->].
  destruct digits as [|d0 ds]; [congruence|].
  change (eqc "]"%char "]"%char) with true. cbn iota.
  destruct (Media.take_while_stop isspace ws2 c (g ++ tail) Hw2 Hc) as [-> ->].
  assert (Hp : startswith (c :: g ++ tail) (c :: g) = true).
  { apply Crawl.startswith_prefix. exists tail. reflexivity. }
  rewrite Hp. f_equal. f_equal.
  repeat (rewrite ?length_app; cbn [length]). lia.
Qed.

Lemma match_marker_inside (group rem rest : str) (d : ascii) :
  Forall (fun x => is_bracket x = false) rem ->
  last rem = Some d -> isspace d = false ->
  match_marker group (rem ++ rest) = None.
Proof.
  intros Hrem Hlast Hd. unfold match_marker. cbn zeta.
  assert (Hdrop : exists y r, drop_while isspace (rem ++ rest) = y :: r
                              /\ is_bracket y = false).
  { clear group. induction Hrem as [|x rem Hx Hrem IH]; [discriminate|].
    cbn [app drop_while]. destruct (isspace x) eqn:Ex.
    - destruct rem as [|x' rem']; [cbn in Hlast; congruence|].
      apply IH. rewrite last_cons_cons in Hlast. exact Hlast.
    - exists x, (rem ++ rest). split; [reflexivity | exact Hx]. }
  destruct Hdrop as (y & r & -> & Hy).
  unfold is_bracket in Hy. apply orb_false_iff in Hy. destruct Hy as [-> _].
  reflexivity.
Qed.

Lemma match_group_exact (more : nat) (c : ascii) (p rem ws1 digits ws2 tail : str) :
  isspace c = false ->
  length rem <= more ->
  Forall (fun x => is_bracket x = false) rem ->
  (rem = [] \/ exists d, last rem = Some d /\ isspace d = false) ->
  Forall (fun x => isspace x = true) ws1 ->
  Forall (fun x => isspace x = true) ws2 ->
  Forall (fun x => is_digit x = true) digits ->
  digits <> [] ->
  match_group more (c :: p)
    (rem ++ ws1 ++ L "[" ++ digits ++ L "]" ++ ws2 ++ (c :: p ++ rem) ++ tail)
  = Some (c :: p ++ rem, digits, length (matched (c :: p ++ rem) ws1 digits ws2)).
Proof.
  intros Hc Hlen Hrem Hend Hw1 Hw2 Hd Hne.
  revert more p Hlen Hend. induction Hrem as [|x rem Hx Hrem IH]; intros more p Hlen Hend.
  - rewrite app_nil_l, !app_nil_r.
    assert (Hm : match_group more (c :: p)
                   (ws1 ++ L "[" ++ digits ++ L "]" ++ ws2 ++ (c :: p) ++ tail)
                 = match match_marker (c :: p)
                           (ws1 ++ L "[" ++ digits ++ L "]" ++ ws2 ++ (c :: p) ++ tail) with
                   | Some (ds, n) => Some (c :: p, ds, length (c :: p) + n)
                   | None => None
                   end).
    { rewrite (match_marker_exact c p ws1 digits ws2 tail Hc Hw1 Hw2 Hd Hne).
      destruct more; cbn [match_group];
        rewrite (match_marker_exact c p ws1 digits ws2 tail Hc Hw1 Hw2 Hd Hne);
        reflexivity. }
    rewrite Hm, (match_marker_exact c p ws1 digits ws2 tail Hc Hw1 Hw2 Hd Hne).
    unfold matched. rewrite (length_app (c :: p)). reflexivity.
  - destruct Hend as [Hnil|(d & Hlast & Hd')]; [discriminate|].
    destruct more as [|more]; [cbn in Hlen; lia|].
    cbn [match_group].
    rewrite (match_marker_inside (c :: p) (x :: rem) _ d
               ltac:(constructor; assumption) Hlast Hd').
    cbn [app]. rewrite Hx.
    assert (Hend' : rem = [] \/ exists d, last rem = Some d /\ isspace d = false).
    { destruct rem as [|x' rem']; [left; reflexivity|]. right. exists d.
      rewrite last_cons_cons in Hlast. split; assumption. }
    specialize (IH more (p ++ [x]) ltac:(cbn in Hlen; lia) Hend').
    change ((c :: p) ++ [x]) with (c :: p ++ [x]).
    rewrite <- (app_assoc p [x] rem) in IH. exact IH.
Qed.

(** X29. The duplication is repaired: a text made of a piece of text, a
    number in brackets and the same piece of text again, with any
    whitespace around the number, comes back as the piece of text
    followed by the number in brackets. The piece starts with a letter,
    a digit or an underscore, goes on with at most 60 characters that are
    no brackets, and does not end with whitespace. *)
Theorem fix_citation_duplication_repairs (c : ascii) (g ws1 digits ws2 : str) :
  is_word c = true ->
  length g <= 60 ->
  Forall (fun x => is_bracket x = false) g ->
  (g = [] \/ exists d, last g = Some d /\ isspace d = false) ->
  Forall (fun x => isspace x = true) ws1 ->
  Forall (fun x => isspace x = true) ws2 ->
  Forall (fun x => is_digit x = true) digits ->
  digits <> [] ->
  fix_citation_duplication (matched (c :: g) ws1 digits ws2)
  = (c :: g) ++ L "[" ++ digits ++ L "]".
Proof.
  intros Hc Hlen Hg Hend Hw1 Hw2 Hd Hne.
  assert (Hsp : isspace c = false).
  { destruct (isspace c) eqn:E; [|reflexivity]. exfalso.
    unfold isspace, is_word in *. cbn zeta in *.
    repeat match goal with
           | H : _ || _ = true |- _ => apply orb_true_iff in H; destruct H as [H|H]
           | H : _ && _ = true |- _ => apply andb_true_iff in H; destruct H as [H ?]
           | H : (_ <=? _) = true |- _ => apply Nat.leb_le in H
           | H : (_ =? _) = true |- _ => apply Nat.eqb_eq in H
           end; lia. }
  pose proof (match_group_exact 60 c [] g ws1 digits ws2 [] Hsp Hlen Hg Hend
                Hw1 Hw2 Hd Hne) as Hm.
  cbn [app] in Hm. rewrite app_nil_r in Hm.
  unfold fix_citation_duplication, matched. cbn [app].
  rewrite sub_cons. unfold match_duplication. rewrite Hc.
  change (g ++ ws1 ++ L "[" ++ digits ++ L "]" ++ ws2 ++ c :: g)
    with (g ++ ws1 ++ L "[" ++ digits ++ L "]" ++ ws2 ++ (c :: g)) .
  rewrite Hm. unfold marker. cbn [fst snd].
  rewrite drop_ge.
  - unfold sub. simp scan_text. cbn [map concat]. rewrite app_nil_r. reflexivity.
  - unfold matched. cbn [app length Nat.pred]. lia.
Qed.

Lemma fix_citation_duplication_repairs_witness :
  fix_citation_duplication (L "Annual Report [12] Annual Report")
  = L "Annual Report[12]".
Proof.
  assert (H1 : is_word "A"%char = true) by reflexivity.
  assert (H2 : length (L "nnual Report") <= 60) by (cbn; lia).
  assert (H3 : Forall (fun x => is_bracket x = false) (L "nnual Report"))
    by (repeat constructor).
  assert (H4 : L "nnual Report" = []
               \/ exists d, last (L "nnual Report") = Some d /\ isspace d = false)
    by (right; exists "t"%char; split; reflexivity).
  assert (H5 : Forall (fun x => isspace x = true) (L " ")) by (repeat constructor).
  assert (H6 : Forall (fun x => is_digit x = true) (L "12")) by (repeat constructor).
  assert (H7 : L "12" <> []) by discriminate.
  exact (fix_citation_duplication_repairs "A"%char (L "nnual Report") (L " ") (L "12")
           (L " ") H1 H2 H3 H4 H5 H5 H6 H7).
Defined.

Lemma lstrip_suffix (s : str) : exists a, s = a ++ lstrip s.
Proof.
  induction s as [|c r [a IH]]; [exists []; reflexivity|].
  simpl. destruct (isspace c); [|exists []; reflexivity].
  exists (c :: a). simpl. rewrite <- IH. reflexivity.
Qed.

Lemma rstrip_prefix (s : str) : exists w, s = rstrip s ++ w.
Proof.
  induction s as [|c r [w IH]]; [exists []; reflexivity|].
  simpl. destruct (rstrip r) as [|d t] eqn:E.
  - destruct (isspace c); [exists (c :: r) | exists r]; [reflexivity|].
    simpl in IH. rewrite IH. reflexivity.
  - exists w. simpl. rewrite IH at 1. reflexivity.
Qed.

Lemma max_run_strip (p : ascii -> bool) (s : str) : max_run p (strip s) <= max_run p s.
Proof.
  unfold strip.
  destruct (lstrip_suffix s) as [a Ha].
  destruct (rstrip_prefix (lstrip s)) as [w Hw].
  etransitivity; [|rewrite Ha at 1; apply Utils.max_run_suffix].
  rewrite Hw at 2. apply Utils.max_run_prefix.
Qed.

(** X21. What [clean_markdown] returns has no whitespace at either end
    and no run of more than three line feeds. The empty text comes back
    empty, and on a text without a hash and without an opening bracket
    the pass only collapses the blank lines and strips the ends. *)
Theorem clean_markdown_tidy (markdown : str) :
  strip (clean_markdown markdown) = clean_markdown markdown
  /\ max_run is_nl (clean_markdown markdown) <= 3
  /\ (existsb (fun c => Postprocess.is_hash c || eqc c "["%char) markdown = false ->
      clean_markdown markdown = strip (collapse_blank_lines markdown)).
Proof.
  unfold clean_markdown.
  destruct markdown as [|c0 r0].
  { split; [reflexivity|]. split; [cbn; lia|].
    intros _. unfold collapse_blank_lines. simp sub_const. reflexivity. }
  cbn [truthy negb]. set (markdown := c0 :: r0).
  split; [apply Convert.strip_idem|]. split.
  - etransitivity; [apply max_run_strip|].
    unfold collapse_blank_lines.
    apply (sub_run_max_run is_nl 4 [nl; nl; nl]); [lia | repeat constructor | simpl; lia].
  - intros Hno.
    assert (Hall : Forall (fun c => Postprocess.is_hash c = false
                                    /\ eqc c "["%char = false) markdown).
    { clearbody markdown. induction markdown as [|c r IH]; [constructor|].
      simpl in Hno. apply orb_false_iff in Hno. destruct Hno as [Hc Hr].
      apply orb_false_iff in Hc. constructor; [exact Hc | apply IH; exact Hr]. }
    rewrite HeadingFacts.fix_heading_linebreaks_plain
      by (eapply Forall_impl; [exact Hall|]; intros c [Hc _]; exact Hc).
    assert (Hb : existsb (fun c => eqc c "["%char) markdown = false).
    { clearbody markdown. clear Hno. induction Hall as [|c r [_ Hc] Hr IH]; [reflexivity|].
      simpl. rewrite Hc, IH. reflexivity. }
    assert (Hdup : fix_citation_duplication markdown = markdown).
    { unfold fix_citation_duplication. apply sub_no_match. intros a b Hs.
      destruct (match_duplication b) as [[[g ds] n]|] eqn:Em; [|reflexivity].
      exfalso. apply match_duplication_shape in Em.
      destruct Em as (ws1 & ws2 & tail & -> & _).
      rewrite Hs in Hb. unfold matched in Hb. rewrite !existsb_app in Hb.
      apply orb_false_iff in Hb. destruct Hb as [_ Hb].
      apply orb_false_iff in Hb. destruct Hb as [Hb _].
      apply orb_false_iff in Hb. destruct Hb as [_ Hb].
      apply orb_false_iff in Hb. destruct Hb as [_ Hb].
      cbn in Hb. discriminate. }
    rewrite Hdup.
    rewrite strip_empty_image_links_no_opening; [reflexivity|].
    intros a b Hs. rewrite Hs in Hb. rewrite !existsb_app in Hb.
    apply orb_false_iff in Hb. destruct Hb as [_ Hb]. cbn in Hb. discriminate.
Qed.

Lemma clean_markdown_tidy_witness :
  existsb (fun c => Postprocess.is_hash c || eqc c "["%char)
    (L "  One paragraph.




Another one.
") = false
  /\ clean_markdown (L "  One paragraph.




Another one.
") = L "One paragraph.


Another one.".
Proof.
  split; [reflexivity|].
  exact (proj2 (proj2 (clean_markdown_tidy (L "  One paragraph.




Another one.
"))) eq_refl).
Defined.

End Cleaner.

(** ** The command line: fetching one page *)

Module Cli.

Import Fetch.

(** The choices of [--mode]. *)
Inductive mode : Type := Markdown | ScreenshotMode | PdfMode | Metadata | Archive.

(** What [fetch_static] and [BrowserSession.fetch] raise: an
    [httpx.ConnectError], which [_fetch_single] looks at, or anything
    else. *)
Inductive error : Type :=
| ConnectError (msg : str)
| OtherError (e : exn).

Inductive result (A : Type) : Type :=
| Ok (a : A)
| Err (e : error).

Arguments Ok {A} a.
Arguments Err {A} e.

(** What the HTTP client answers: the text, the final URL, the status
    and the headers of the response. *)
Record response : Type := mkResponse {
  text : str;
  response_url : str;
  status_code : Z;
  response_headers : list (str * str)
}.

(** The requests made by the HTTP client, each with its [verify] flag. *)
Inductive request : Type := Get (verify_ssl : bool).

Section Fetching.

(** [client.get(url)] of a client made with the given [verify] flag. *)
Variable client_get : bool -> result response.

(** The rendering engine, and the page that the context opens. *)
Variable eng : engine.
Variable new_page : outcome Page.page.

(** [fetch_static(url, timeout=timeout, verify_ssl=verify_ssl)] *)
Definition fetch_static (verify_ssl : bool) : result FetchResult * list request :=
  (match client_get verify_ssl with
   | Ok r => Ok (mkFetchResult (text r) (response_url r) (status_code r) None None
                   (response_headers r))
   | Err e => Err e
   end, [Get verify_ssl]).

(** [mode in ("screenshot", "archive")] and [mode in ("pdf", "archive")] *)
Definition wants_screenshot (m : mode) : bool :=
  match m with ScreenshotMode | Archive => true | _ => false end.

Definition wants_pdf (m : mode) : bool :=
  match m with PdfMode | Archive => true | _ => false end.

(** [needs_browser], as [main] sets it. *)
Definition needs_browser (browser : bool) (m : mode) (deep : bool) : bool :=
  browser || match m with ScreenshotMode | PdfMode | Archive => true | _ => false end
  || deep.

(** [_fetch_single]: the result, the requests of the HTTP client and the
    calls on the engine. *)
Definition _fetch_single (url : str) (needs_browser no_headless : bool) (m : mode)
  : result FetchResult * list request * list event :=
  if needs_browser then
    let '(r, tr) :=
      async_with eng
        (fun session tr =>
           (fst (Page.fetch (negb no_headless) new_page url
                   (wants_screenshot m) (wants_pdf m) None), tr)) in
    (match r with Returned a => Ok a | Raised e => Err (OtherError e) end, [], tr)
  else
    match fetch_static true with
    | (Err (ConnectError msg), reqs) =>
        if Normalizer.contains msg (L "CERTIFICATE_VERIFY_FAILED")
        then let '(r, reqs') := fetch_static false in (r, reqs ++ reqs', [])
        else (Err (ConnectError msg), reqs, [])
    | (r, reqs) => (r, reqs, [])
    end.

(** The [ClickException] that [_process_result] raises for the modes
    screenshot, pdf and archive before it writes anything. [None] and
    the empty string are false for [output_path], [None] and the empty
    bytes for the screenshot and the PDF. *)
Definition refusal (m : mode) (r : FetchResult) (output_path : option str)
  : option str :=
  let given {A : Type} (x : option (list A)) : bool :=
    match x with Some (_ :: _) => true | _ => false end in
  match m with
  | ScreenshotMode =>
      if negb (given (screenshot r))
      then Some (L "No screenshot data (use --browser for JS sites)")
      else if given output_path then None
      else Some (L "Screenshot mode requires -o/--output")
  | PdfMode =>
      if negb (given (pdf r))
      then Some (L "No PDF data (use --browser for JS sites)")
      else if given output_path then None
      else Some (L "PDF mode requires -o/--output")
  | Archive =>
      if given output_path then None
      else Some (L "Archive mode requires -o/--output")
  | Markdown | Metadata => None
  end.

(** X22. Without the browser, [_fetch_single] asks for the page with the
    certificates verified, and asks a second time, without the
    verification, exactly when the first request raised a connection
    error that names CERTIFICATE_VERIFY_FAILED; what the second request
    returns or raises is then the outcome, and there is no third request.
    Every other error of the first request is raised as it is. The engine
    is not touched, and the results carry no screenshot and no PDF. *)
Theorem fetch_single_static (url : str) (no_headless : bool) (m : mode) :
  let '(r, reqs, tr) := _fetch_single url false no_headless m in
  tr = []
  /\ (reqs = [Get true] \/ reqs = [Get true; Get false])
  /\ (reqs = [Get true; Get false]
      <-> exists msg, client_get true = Err (ConnectError msg)
                      /\ Normalizer.contains msg (L "CERTIFICATE_VERIFY_FAILED") = true)
  /\ (reqs = [Get true] -> r = fst (fetch_static true))
  /\ (reqs = [Get true; Get false] -> r = fst (fetch_static false))
  /\ (forall a, r = Ok a -> screenshot a = None /\ pdf a = None).
Proof using Type.
  unfold _fetch_single, fetch_static.
  destruct (client_get true) as [a|[msg|e]] eqn:E1.
  - cbn. split; [reflexivity|]. split; [left; reflexivity|].
    split; [split; [discriminate | intros (msg & Hm & _); discriminate]|].
    split; [reflexivity|]. split; [discriminate|].
    intros b [= <-]. split; reflexivity.
  - destruct (Normalizer.contains msg (L "CERTIFICATE_VERIFY_FAILED")) eqn:Ec.
    + assert (Hshape : forall b, (match client_get false with
                                  | Ok r => Ok (mkFetchResult (text r) (response_url r)
                                                  (status_code r) None None
                                                  (response_headers r))
                                  | Err e => Err e
                                  end) = Ok b -> screenshot b = None /\ pdf b = None).
      { destruct (client_get false); [|discriminate].
        intros b [= <-]. split; reflexivity. }
      cbn. split; [reflexivity|]. split; [right; reflexivity|].
      split; [split; [intros _; exists msg; split; [reflexivity | exact Ec]
                     | reflexivity]|].
      split; [discriminate|]. split; [reflexivity|]. exact Hshape.
    + cbn. split; [reflexivity|]. split; [left; reflexivity|].
      split; [split; [discriminate|]|].
      { intros (msg' & Hm & Hc). injection Hm as <-.
        change (Normalizer.contains msg (L "CERTIFICATE_VERIFY_FAILED") = true) in Hc.
        congruence. }
      split; [reflexivity|]. split; [discriminate|].
      intros b Hb. discriminate.
  - cbn. split; [reflexivity|]. split; [left; reflexivity|].
    split; [split; [discriminate | intros (msg & Hm & _); discriminate]|].
    split; [reflexivity|]. split; [discriminate|].
    intros b Hb. discriminate.
Qed.

(** X23. With the browser shown ([--no-headless]) no PDF is made: in the
    mode pdf every page that [_fetch_single] returns is refused by
    [_process_result] with the message "No PDF data", whatever the
    output path, and the PDF call is never made on the page. *)
Theorem pdf_mode_needs_headless (url : str) (r : FetchResult) (reqs : list request)
    (tr : list event) (output_path : option str) :
  _fetch_single url true true PdfMode = (Ok r, reqs, tr) ->
  pdf r = None
  /\ refusal PdfMode r output_path
     = Some (L "No PDF data (use --browser for JS sites)")
  /\ existsb Page.is_pdf
       (snd (Page.fetch false new_page url false true None)) = false.
Proof using Type.
  unfold _fetch_single, async_with.
  destruct (__aenter__ eng new_session []) as [[s tr0] [e|]]; [discriminate|].
  cbn [negb wants_screenshot wants_pdf].
  destruct new_page as [page|e]; [|discriminate].
  unfold Page.fetch, Page.try_finally, Page.await, Page.await_unit, Page.bind, Page.ret.
  cbn [Page.selector_given].
  destruct (Page.goto page url) as [resp|e];
    [|destruct (Page.close page); discriminate].
  destruct (Page.content page); destruct (Page.close page); cbn; try discriminate.
  intros [= <- _ _]. repeat split.
Qed.

End Fetching.

Definition sample_response : response :=
  mkResponse (L "<p>hi</p>") (L "https://e.com/") 200 [].

(** A site whose certificate cannot be verified. *)
Definition self_signed (verify_ssl : bool) : result response :=
  if verify_ssl
  then Err (ConnectError (L "[SSL: CERTIFICATE_VERIFY_FAILED] self-signed certificate"))
  else Ok sample_response.

Example retry_without_verification :
  _fetch_single self_signed (mkEngine None None None) (Returned Page.sample_page)
    (L "https://e.com/") false false Markdown
  = (Ok (mkFetchResult (L "<p>hi</p>") (L "https://e.com/") 200 None None []),
     [Get true; Get false], []).
Proof. reflexivity. Qed.

Lemma pdf_mode_needs_headless_witness :
  _fetch_single self_signed (mkEngine None None None) (Returned Page.sample_page)
    (L "https://e.com/") true true PdfMode
  = (Ok (mkFetchResult (L "<p>hi</p>") (L "https://e.com/final") 200 None None []),
     [],
     [Acquire Playwright; Acquire Browser; Acquire Context;
      Release Context; Release Browser; Release Playwright])
  /\ refusal PdfMode
       (mkFetchResult (L "<p>hi</p>") (L "https://e.com/final") 200 None None [])
       (Some (L "out/"))
     = Some (L "No PDF data (use --browser for JS sites)").
Proof.
  assert (H : _fetch_single self_signed (mkEngine None None None)
                (Returned Page.sample_page) (L "https://e.com/") true true PdfMode
              = (Ok (mkFetchResult (L "<p>hi</p>") (L "https://e.com/final") 200
                       None None []),
                 [],
                 [Acquire Playwright; Acquire Browser; Acquire Context;
                  Release Context; Release Browser; Release Playwright]))
    by reflexivity.
  split; [exact H|].
  exact (proj1 (proj2 (pdf_mode_needs_headless self_signed (mkEngine None None None)
                         (Returned Page.sample_page) (L "https://e.com/")
                         (mkFetchResult (L "<p>hi</p>") (L "https://e.com/final") 200
                            None None [])
                         []
                         [Acquire Playwright; Acquire Browser; Acquire Context;
                          Release Context; Release Browser; Release Playwright]
                         (Some (L "out/")) H))).
Defined.

End Cli.

(** ** Dates *)

Module Dates.

Import PyOrder.

(** A text as the sequence of its code points: the pattern of the dates
    reads the decimal digits of every script, so the characters are not
    cut at U+00FF here. *)
Definition ustr : Type := list Z.

Definition U (s : string) : ustr := map (fun c => Z.of_nat (nat_of_ascii c)) (L s).

(** The order of [str]: by code points. *)
Definition ustr_compare : ustr -> ustr -> comparison := lex_list Z.compare.

(** [s.replace(old, new)] for a single character [old]. *)
Definition replace_char (old : Z) (new : ustr) (s : ustr) : ustr :=
  concat (map (fun c => if (c =? old)%Z then new else [c]) s).

(** The digits 0 to 9. *)
Definition ascii_digit (c : Z) : bool := ((48 <=? c) && (c <=? 57))%Z.

Definition is_ascii (c : Z) : Prop := (0 <= c < 128)%Z.

Section Parse.

(** The class of the digits in a pattern on [str]: the code points of the
    Unicode category Nd. *)
Variable decimal : Z -> bool.

(** [datetime.fromisoformat(s).strftime("%Y-%m-%d")], [None] when
    [fromisoformat] raises a [ValueError]. *)
Variable iso_date : ustr -> option ustr.

(** The pattern of [_parse_date_string] tried at the start of [s]: four
    digits, a hyphen, two digits, a hyphen, two digits. *)
Definition match_date (s : ustr) : bool :=
  match s with
  | y1 :: y2 :: y3 :: y4 :: h1 :: m1 :: m2 :: h2 :: d1 :: d2 :: _ =>
      decimal y1 && decimal y2 && decimal y3 && decimal y4
      && (h1 =? 45)%Z && decimal m1 && decimal m2
      && (h2 =? 45)%Z && decimal d1 && decimal d2
  | _ => false
  end.

Definition _parse_date_string (date_str : ustr) : option ustr :=
  match date_str with
  | [] => None
  | _ =>
      if existsb (fun c => (c =? 84)%Z) date_str
      then iso_date (replace_char 90 (U "+00:00") date_str)
      else if match_date date_str then Some (take 10 date_str)
      else None
  end.

End Parse.

(** A part of the category Nd: the digits 0 to 9, the only ones below
    U+0080, and the fullwidth digits U+FF10 to U+FF19. *)
Definition sample_decimal (c : Z) : bool :=
  (ascii_digit c || ((65296 <=? c) && (c <=? 65305)))%Z.

Definition digit (c : Z) : Z := (c - 48)%Z.

(** The year, the month and the day of a date written YYYY-MM-DD, as one
    number. *)
Definition date_number (d : ustr) : Z :=
  match d with
  | [y1; y2; y3; y4; _; m1; m2; _; d1; d2] =>
      (1000 * digit y1 + 100 * digit y2 + 10 * digit y3 + digit y4) * 10000
      + (10 * digit m1 + digit m2) * 100
      + (10 * digit d1 + digit d2)
  | _ => 0
  end%Z.

Example date_number_example : date_number (U "2024-02-11") = 20240211%Z.
Proof. reflexivity. Qed.

Example parse_date_examples :
  _parse_date_string sample_decimal (fun _ => None) (U "2024-02-30 10:00")
  = Some (U "2024-02-30")
  /\ _parse_date_string sample_decimal (fun _ => None) (U "11 Feb 2024") = None
  /\ _parse_date_string sample_decimal (fun _ => None) (U "") = None.
Proof. repeat split; reflexivity. Qed.

(** A date in fullwidth digits is returned as it is, and comes after the
    key of the pages without a date. *)
Example fullwidth_date :
  _parse_date_string sample_decimal (fun _ => None)
    [65298; 65296; 65298; 65300; 45; 65296; 65298; 45; 65297; 65297]%Z
  = Some [65298; 65296; 65298; 65300; 45; 65296; 65298; 45; 65297; 65297]%Z
  /\ lt ustr_compare (U "9999-99-99")
        [65298; 65296; 65298; 65300; 45; 65296; 65298; 45; 65297; 65297]%Z = true.
Proof. split; reflexivity. Qed.

Lemma sample_decimal_ascii (c : Z) :
  is_ascii c -> sample_decimal c = ascii_digit c.
Proof.
  unfold is_ascii, sample_decimal. intros H.
  destruct (Z.leb_spec 65296 c); [lia|]. cbn [andb]. apply orb_false_r.
Qed.

Lemma all_ascii (s : ustr) :
  forallb (fun c => (0 <=? c) && (c <? 128))%Z s = true -> Forall is_ascii s.
Proof.
  induction s as [|c s IH]; [constructor|]. cbn [forallb]. intros H.
  apply andb_true_iff in H. destruct H as [Hc Hs].
  apply andb_true_iff in Hc. destruct Hc as [H0 H1].
  apply Z.leb_le in H0. apply Z.ltb_lt in H1.
  constructor; [split; assumption | apply IH; exact Hs].
Qed.

Lemma ascii_digit_bounds (c : Z) : ascii_digit c = true -> (48 <= c <= 57)%Z.
Proof.
  unfold ascii_digit. intros H. apply andb_true_iff in H.
  destruct H as [H1 H2]. apply Z.leb_le in H1, H2. lia.
Qed.

(** Dates written as YYYY-MM-DD with the digits 0 to 9 are ordered as
    strings the way they are ordered in time. *)
Lemma iso_date_order (a b : ustr) :
  match_date ascii_digit a = true -> length a = 10 ->
  match_date ascii_digit b = true -> length b = 10 ->
  ustr_compare a b = Z.compare (date_number a) (date_number b).
Proof.
  intros Ha La Hb Lb.
  destruct a as [|y1 [|y2 [|y3 [|y4 [|h1 [|m1 [|m2 [|h2 [|d1 [|d2 [|? ?]]]]]]]]]]];
    try discriminate.
  destruct b as [|z1 [|z2 [|z3 [|z4 [|k1 [|n1 [|n2 [|k2 [|e1 [|e2 [|? ?]]]]]]]]]]];
    try discriminate.
  clear La Lb. cbn [match_date] in Ha, Hb.
  repeat (apply andb_true_iff in Ha; destruct Ha as [Ha ?]).
  repeat (apply andb_true_iff in Hb; destruct Hb as [Hb ?]).
  repeat match goal with
         | H : (_ =? _)%Z = true |- _ => apply Z.eqb_eq in H; subst
         | H : ascii_digit _ = true |- _ => apply ascii_digit_bounds in H
         end.
  unfold date_number, digit, ustr_compare. cbn [lex_list].
  rewrite !Z.compare_refl.
  repeat match goal with
         | |- match (?x ?= ?y)%Z with _ => _ end = _ =>
             destruct (Z.compare_spec x y);
             [subst | symmetry; apply Z.compare_lt_iff; lia
                    | symmetry; apply Z.compare_gt_iff; lia]
         end.
  symmetry. apply Z.compare_eq_iff. reflexivity.
Qed.

(** On a text of ASCII characters the pattern reads the digits 0 to 9. *)
Lemma match_date_ascii (decimal : Z -> bool) (s : ustr) :
  (forall c, is_ascii c -> decimal c = ascii_digit c) ->
  Forall is_ascii (take 10 s) ->
  match_date decimal s = match_date ascii_digit (take 10 s).
Proof.
  intros Hd Hs.
  destruct s as [|y1 [|y2 [|y3 [|y4 [|h1 [|m1 [|m2 [|h2 [|d1 [|d2 r]]]]]]]]]];
    try reflexivity.
  cbn [take] in Hs. cbn [take match_date].
  repeat match goal with
         | H : Forall _ (_ :: _) |- _ =>
             let Hc := fresh "Hc" in
             apply Forall_cons_1 in H; destruct H as [Hc H]; apply Hd in Hc
         end.
  congruence.
Qed.

Lemma match_date_length (decimal : Z -> bool) (s : ustr) :
  match_date decimal s = true -> length (take 10 s) = 10.
Proof.
  destruct s as [|y1 [|y2 [|y3 [|y4 [|h1 [|m1 [|m2 [|h2 [|d1 [|d2 r]]]]]]]]]];
    try discriminate.
  reflexivity.
Qed.

(** Without a T in the text, only the pattern decides. *)
Lemma parse_date_plain (decimal : Z -> bool) (iso_date : ustr -> option ustr)
    (a da : ustr) :
  existsb (fun c => (c =? 84)%Z) a = false ->
  _parse_date_string decimal iso_date a = Some da ->
  match_date decimal a = true /\ da = take 10 a.
Proof.
  unfold _parse_date_string. intros Ta.
  destruct a as [|a0 a']; [discriminate|]. rewrite Ta.
  destruct (match_date decimal (a0 :: a')); [|discriminate].
  intros [= <-]. split; reflexivity.
Qed.

(** X24. For a text without the letter T, what [_parse_date_string]
    returns is the first ten characters of the text, and it returns them
    only when the text starts with four digits, a hyphen, two digits, a
    hyphen and two digits: the month and the day are not checked, and the
    digits are those of every script. Two dates it returns that are made
    of ASCII characters are ordered as strings, as the sort by date
    compares them, the way their years, months and days are ordered as
    numbers. A date it returns that starts with a digit of another script
    comes after the key 9999-99-99 of the pages without a date. *)
Theorem parse_date_string_order (decimal : Z -> bool) (iso_date : ustr -> option ustr)
    (a b da db : ustr) :
  (forall c, is_ascii c -> decimal c = ascii_digit c) ->
  existsb (fun c => (c =? 84)%Z) a = false ->
  existsb (fun c => (c =? 84)%Z) b = false ->
  _parse_date_string decimal iso_date a = Some da ->
  _parse_date_string decimal iso_date b = Some db ->
  da = take 10 a /\ db = take 10 b
  /\ match_date decimal a = true /\ match_date decimal b = true
  /\ (Forall is_ascii da -> Forall is_ascii db ->
      ustr_compare da db = Z.compare (date_number da) (date_number db)
      /\ (lt ustr_compare da db = true <-> (date_number da < date_number db)%Z))
  /\ (forall c r, da = c :: r -> ~ is_ascii c ->
        decimal c = true /\ (0 <= c -> lt ustr_compare (U "9999-99-99") da = true)%Z).
Proof.
  intros Hd Ta Tb Pa Pb.
  destruct (parse_date_plain decimal iso_date a da Ta Pa) as [Ma ->].
  destruct (parse_date_plain decimal iso_date b db Tb Pb) as [Mb ->].
  split; [reflexivity|]. split; [reflexivity|].
  split; [exact Ma|]. split; [exact Mb|]. split.
  - intros Aa Ab.
    assert (Ho : ustr_compare (take 10 a) (take 10 b)
                 = Z.compare (date_number (take 10 a)) (date_number (take 10 b))).
    { apply iso_date_order.
      - rewrite <- (match_date_ascii decimal a Hd Aa). exact Ma.
      - exact (match_date_length decimal _ Ma).
      - rewrite <- (match_date_ascii decimal b Hd Ab). exact Mb.
      - exact (match_date_length decimal _ Mb). }
    split; [exact Ho|]. unfold lt. rewrite Ho.
    destruct (Z.compare_spec (date_number (take 10 a)) (date_number (take 10 b)));
      split; intros; try discriminate; try lia; reflexivity.
  - intros c r Hc Hn.
    destruct a as [|y1 [|y2 [|y3 [|y4 [|h1 [|m1 [|m2 [|h2 [|d1 [|d2 r']]]]]]]]]];
      try discriminate.
    cbn [take] in Hc. injection Hc as <- _.
    split.
    + cbn [match_date] in Ma.
      repeat (apply andb_true_iff in Ma; destruct Ma as [Ma ?]). exact Ma.
    + intros H0. unfold is_ascii in Hn.
      unfold lt, ustr_compare. cbn [take U L list_ascii_of_string map lex_list].
      change (Z.of_nat (nat_of_ascii "9")) with 57%Z.
      destruct (Z.compare_spec 57 y1); [lia | reflexivity | lia].
Qed.

Lemma parse_date_string_order_witness :
  (forall c, is_ascii c -> sample_decimal c = ascii_digit c)
  /\ _parse_date_string sample_decimal (fun _ => None) (U "2023-12-31 23:59")
     = Some (U "2023-12-31")
  /\ _parse_date_string sample_decimal (fun _ => None) (U "2024-02-30")
     = Some (U "2024-02-30")
  /\ lt ustr_compare (U "2023-12-31") (U "2024-02-30") = true.
Proof.
  split; [exact sample_decimal_ascii|].
  split; [reflexivity|]. split; [reflexivity|].
  apply (proj2 (proj1 (proj2 (proj2 (proj2 (proj2
           (parse_date_string_order sample_decimal (fun _ => None)
              (U "2023-12-31 23:59") (U "2024-02-30")
              (U "2023-12-31") (U "2024-02-30")
              sample_decimal_ascii eq_refl eq_refl eq_refl eq_refl)))))
           (all_ascii (U "2023-12-31") eq_refl)
           (all_ascii (U "2024-02-30") eq_refl))).
  vm_compute. reflexivity.
Defined.

End Dates.

(** ** The metadata of a page: links and reading time *)

Module Metadata.

Import Crawl.

(** [round(w / k)]: to the nearest integer, a tie to the even one. The
    quotient of two integers below 2^52 is a float close enough to the
    fraction for [round] to see the side of the half it lies on. *)
Definition round_div (w k : nat) : nat :=
  let q := w / k in
  let r := w mod k in
  if 2 * r <? k then q
  else if k <? 2 * r then q + 1
  else if Nat.even q then q else q + 1.

(** [max(1, round(word_count / 238))] *)
Definition reading_time_minutes (word_count : nat) : nat :=
  Nat.max 1 (round_div word_count 238).

(** [Counter]: the keys in the order of their first occurrence, each with
    the number of its occurrences. *)
Fixpoint counter_add (d : str) (c : list (str * nat)) : list (str * nat) :=
  match c with
  | [] => [(d, 1)]
  | (k, v) :: r => if decide (k = d) then (k, S v) :: r else (k, v) :: counter_add d r
  end.

Definition Counter (l : list str) : list (str * nat) :=
  fold_left (fun c d => counter_add d c) l [].

(** [c.most_common(n)]: the entries by count, greatest first, those of
    one count in the order of the counter, and of these the first [n]. *)
Definition most_common (n : nat) (c : list (str * nat)) : list (str * nat) :=
  take n (PySort.sorted (fun y x => snd x <? snd y) c).

Section Links.

Variable urlparse : str -> ParseResult.

(** The [href] values of the anchors that have one, in document order. *)
Variable hrefs : str -> list str.

Definition skipped_href (href : str) : bool :=
  startswith href (L "#") || startswith href (L "javascript:")
  || startswith href (L "mailto:") || startswith href (L "tel:").

Definition is_external (base_domain href : str) : bool :=
  truthy (netloc (urlparse href))
  && negb (bool_decide (netloc (urlparse href) = base_domain)).

(** The loop of the link analysis: the internal and the external links. *)
Fixpoint classify (base_domain : str) (links : list str) : list str * list str :=
  match links with
  | [] => ([], [])
  | href :: rest =>
      let '(internal, external) := classify base_domain rest in
      if skipped_href href then (internal, external)
      else if is_external base_domain href then (internal, href :: external)
      else (href :: internal, external)
  end.

(** The loop over the external links: their hosts, when not empty. *)
Definition external_domains (external_links : list str) : list str :=
  omap (fun href =>
          let domain := netloc (urlparse href) in
          if truthy domain then Some domain else None)
       external_links.

Record link_analysis : Type := mkLinks {
  internal_link_count : nat;
  external_link_count : nat;
  top_external_domains : list str
}.

(** The link analysis of [extract_metadata]. *)
Definition analyse_links (html url : str) : link_analysis :=
  let base_domain := netloc (urlparse url) in
  let '(internal_links, external_links) := classify base_domain (hrefs html) in
  let ext_domains := external_domains external_links in
  mkLinks (length internal_links) (length external_links)
          (map fst (most_common 10 (Counter ext_domains))).

End Links.

(** The number of occurrences of [d] in [l]. *)
Definition times (d : str) (l : list str) : nat :=
  length (filter (fun x => x = d) l).

(** The count that a counter gives for [d], 0 when it has none. *)
Fixpoint count_of (d : str) (c : list (str * nat)) : nat :=
  match c with
  | [] => 0
  | (k, v) :: r => if decide (k = d) then v else count_of d r
  end.

Lemma counter_add_count (d d' : str) (c : list (str * nat)) :
  count_of d (counter_add d' c) = count_of d c + (if decide (d' = d) then 1 else 0).
Proof.
  induction c as [|[k v] r IH]; cbn [counter_add count_of].
  - destruct (decide (d' = d)); reflexivity.
  - destruct (decide (k = d')) as [->|Hk]; cbn [count_of].
    + destruct (decide (d' = d)); lia.
    + rewrite IH. destruct (decide (k = d)) as [->|Hd]; [|reflexivity].
      rewrite decide_False by (intros E; apply Hk; symmetry; exact E). lia.
Qed.

Lemma counter_add_keys (d : str) (c : list (str * nat)) :
  map fst (counter_add d c)
  = map fst c ++ (if decide (d ∈ map fst c) then [] else [d]).
Proof.
  induction c as [|[k v] r IH]; cbn [counter_add map fst app].
  - rewrite decide_False by (intros H; inversion H). reflexivity.
  - destruct (decide (k = d)) as [->|Hk]; cbn [map fst].
    + rewrite decide_True by (apply elem_of_cons; left; reflexivity).
      rewrite app_nil_r. reflexivity.
    + rewrite IH. f_equal.
      destruct (decide (d ∈ map fst r)) as [Hin|Hin].
      * rewrite decide_True by (apply elem_of_cons; right; exact Hin). reflexivity.
      * rewrite decide_False; [reflexivity|].
        intros H. apply elem_of_cons in H. destruct H as [H|H]; [|contradiction].
        apply Hk. symmetry. exact H.
Qed.

(** What holds of a counter: no key twice, no count 0, and the keys are
    the ones with a count. *)
Definition counter_ok (c : list (str * nat)) : Prop :=
  NoDup (map fst c) /\ Forall (fun e => count_of (fst e) c = snd e /\ 1 <= snd e) c.

Lemma count_of_absent (d : str) (c : list (str * nat)) :
  d ∉ map fst c -> count_of d c = 0.
Proof.
  induction c as [|[k v] r IH]; [reflexivity|]. cbn [map fst count_of].
  intros H. apply not_elem_of_cons in H. destruct H as [H1 H2].
  rewrite decide_False by (intros E; apply H1; symmetry; exact E). apply IH. exact H2.
Qed.

Lemma counter_entries (c : list (str * nat)) :
  NoDup (map fst c) -> Forall (fun e => 1 <= snd e) c ->
  Forall (fun e => count_of (fst e) c = snd e /\ 1 <= snd e) c.
Proof.
  induction c as [|[k v] r IH]; [constructor|].
  cbn [map fst]. intros Hnd Hpos. apply NoDup_cons in Hnd. destruct Hnd as [Hk Hnd].
  inversion Hpos as [|? ? Hv Hr]; subst. constructor.
  - cbn [count_of fst snd]. rewrite decide_True by reflexivity. split; [reflexivity | exact Hv].
  - specialize (IH Hnd Hr). rewrite Forall_forall in IH |- *.
    intros [k' v'] Hin. cbn [count_of fst snd].
    destruct (decide (k = k')) as [->|Hne]; [|apply (IH _ Hin)].
    exfalso. apply Hk. change (map fst r) with (fst <$> r).
    apply list_elem_of_fmap. exists (k', v'). split; [reflexivity | exact Hin].
Qed.

Lemma counter_add_positive (d : str) (c : list (str * nat)) :
  Forall (fun e => 1 <= snd e) c -> Forall (fun e => 1 <= snd e) (counter_add d c).
Proof.
  induction 1 as [|[k v] r Hv Hr IH]; cbn [counter_add]; [repeat constructor|].
  destruct (decide (k = d)); constructor; try assumption. cbn [snd]. lia.
Qed.

Lemma Counter_spec (l : list str) (c : list (str * nat)) :
  NoDup (map fst c) -> Forall (fun e => 1 <= snd e) c ->
  let c' := fold_left (fun c d => counter_add d c) l c in
  NoDup (map fst c')
  /\ Forall (fun e => 1 <= snd e) c'
  /\ (forall d, count_of d c' = count_of d c + times d l).
Proof.
  revert c. induction l as [|x l IH]; intros c Hnd Hpos; cbn [fold_left]; cbn zeta.
  - split; [exact Hnd|]. split; [exact Hpos|]. intros d. unfold times. cbn. lia.
  - assert (Hnd' : NoDup (map fst (counter_add x c))).
    { rewrite counter_add_keys. destruct (decide (x ∈ map fst c)) as [Hin|Hin].
      - rewrite app_nil_r. exact Hnd.
      - apply NoDup_app. split; [exact Hnd|]. split; [|apply NoDup_singleton].
        intros y Hy Hy'. apply list_elem_of_singleton in Hy'. subst y. contradiction. }
    destruct (IH _ Hnd' (counter_add_positive x c Hpos)) as (H1 & H2 & H3).
    split; [exact H1|]. split; [exact H2|].
    intros d. rewrite H3, counter_add_count. unfold times. unfold str in *.
    rewrite filter_cons. destruct (decide (x = d)); cbn [length]; lia.
Qed.

Lemma Counter_ok (l : list str) :
  NoDup (map fst (Counter l))
  /\ Forall (fun e => snd e = times (fst e) l /\ 1 <= snd e) (Counter l)
  /\ (forall d, d ∈ l -> d ∈ map fst (Counter l)).
Proof.
  destruct (Counter_spec l [] ltac:(constructor) ltac:(constructor)) as (H1 & H2 & H3).
  fold (Counter l) in H1, H2, H3. cbn [count_of] in H3.
  pose proof (counter_entries _ H1 H2) as He.
  split; [exact H1|]. split.
  - eapply Forall_impl; [exact He|]. intros e [Hc Hp].
    split; [rewrite <- Hc; apply H3 | exact Hp].
  - intros d Hd. destruct (decide (d ∈ map fst (Counter l))) as [Hin|Hout]; [exact Hin|].
    exfalso. pose proof (count_of_absent d _ Hout) as H0. rewrite H3 in H0.
    unfold times in H0. cbn in H0.
    assert (Hf : d ∈ filter (fun x => x = d) l)
      by (apply list_elem_of_filter; split; [reflexivity | exact Hd]).
    destruct (filter (fun x => x = d) l); [inversion Hf | discriminate].
Qed.

Lemma StronglySorted_take {A : Type} (R : A -> A -> Prop) (l : list A) (n : nat) :
  StronglySorted R l -> StronglySorted R (take n l).
Proof.
  intros H. revert n. induction H as [|a l Hl IH Ha]; intros [|n]; cbn [take];
    try constructor.
  - apply IH.
  - apply Forall_take. exact Ha.
Qed.

Lemma StronglySorted_take_drop {A : Type} (R : A -> A -> Prop) (l : list A) (n : nat)
    (x y : A) :
  StronglySorted R l -> x ∈ take n l -> y ∈ drop n l -> R x y.
Proof.
  intros H. revert n. induction H as [|a l Hl IH Ha]; intros [|n]; cbn [take drop];
    intros Hx Hy; try (inversion Hx; fail).
  apply elem_of_cons in Hx. destruct Hx as [->|Hx]; [|apply (IH n); assumption].
  rewrite Forall_forall in Ha. apply Ha.
  eapply elem_of_sublist; [exact Hy | apply sublist_drop].
Qed.

Lemma StronglySorted_keys (R : str * nat -> str * nat -> Prop) (R' : str -> str -> Prop)
    (l : list (str * nat)) :
  (forall a b, a ∈ l -> b ∈ l -> R a b -> R' (fst a) (fst b)) ->
  StronglySorted R l -> StronglySorted R' (map fst l).
Proof.
  intros HR H. induction H as [|a l Hl IH Ha]; [constructor|].
  cbn [map]. constructor.
  - apply IH. intros x y Hx Hy. apply HR; apply elem_of_cons; right; assumption.
  - rewrite Forall_forall in Ha. apply Forall_forall. intros d Hd.
    change (map fst l) with (fst <$> l) in Hd.
    apply list_elem_of_fmap in Hd. destruct Hd as (e & -> & He).
    apply HR; [apply elem_of_cons; left; reflexivity
              | apply elem_of_cons; right; exact He
              | apply Ha; exact He].
Qed.

Section LinkFacts.

Variable urlparse : str -> ParseResult.
Variable hrefs : str -> list str.

Lemma classify_spec (base_domain : str) (links : list str) :
  let '(internal, external) := classify urlparse base_domain links in
  length internal + length external
  = length (List.filter (fun h => negb (skipped_href h)) links)
  /\ Forall (fun h => h ∈ links /\ is_external urlparse base_domain h = true) external.
Proof using Type.
  induction links as [|h rest IH]; [split; [reflexivity | constructor]|].
  cbn [classify List.filter].
  destruct (classify urlparse base_domain rest) as [internal external].
  destruct IH as [IH1 IH2].
  assert (IH2' : Forall (fun x => x ∈ h :: rest
                                  /\ is_external urlparse base_domain x = true) external).
  { eapply Forall_impl; [exact IH2|]. intros x [Hx Hx'].
    split; [apply elem_of_cons; right; exact Hx | exact Hx']. }
  destruct (skipped_href h); cbn [negb]; [split; assumption|].
  destruct (is_external urlparse base_domain h) eqn:E; cbn [length].
  - split; [lia|]. constructor; [|exact IH2'].
    split; [apply elem_of_cons; left; reflexivity | exact E].
  - split; [lia | exact IH2'].
Qed.

(** X25. The link analysis of [extract_metadata]: every link that is not
    a fragment, javascript, mailto or tel link is counted once, as
    internal or as external. The top external domains are at most ten
    distinct hosts of links of the page, none of them empty or the host
    of the page itself, in the order of the number of their links,
    greatest first; a host of an external link that is left out has no
    more links than any of the ten. *)
Theorem analyse_links_top_domains (html url : str) :
  let base_domain := netloc (urlparse url) in
  let external := snd (classify urlparse base_domain (hrefs html)) in
  let domains := external_domains urlparse external in
  let a := analyse_links urlparse hrefs html url in
  internal_link_count a + external_link_count a
  = length (List.filter (fun h => negb (skipped_href h)) (hrefs html))
  /\ length domains = external_link_count a
  /\ NoDup (top_external_domains a)
  /\ length (top_external_domains a) <= 10
  /\ Forall (fun d => d <> [] /\ d <> base_domain
                      /\ exists h, h ∈ hrefs html /\ netloc (urlparse h) = d)
       (top_external_domains a)
  /\ StronglySorted (fun d1 d2 => times d2 domains <= times d1 domains)
       (top_external_domains a)
  /\ (forall d, d ∈ domains -> d ∉ top_external_domains a ->
      length (top_external_domains a) = 10
      /\ Forall (fun t => times d domains <= times t domains) (top_external_domains a)).
Proof using Type.
  cbn zeta. unfold analyse_links.
  pose proof (classify_spec (netloc (urlparse url)) (hrefs html)) as Hc.
  destruct (classify urlparse (netloc (urlparse url)) (hrefs html))
    as [internal external] eqn:Ec.
  destruct Hc as [Hcount Hext].
  cbn [internal_link_count external_link_count top_external_domains snd].
  set (domains := external_domains urlparse external).
  (* every external link has a host, which is its domain *)
  assert (Hdom : domains = map (fun h => netloc (urlparse h)) external).
  { unfold domains, external_domains. clear -Hext.
    induction Hext as [|h r [_ Hh] Hr IH]; [reflexivity|].
    cbn [omap list_omap map]. unfold is_external in Hh.
    apply andb_true_iff in Hh. destruct Hh as [Hh _]. rewrite Hh.
    cbn zeta. f_equal. exact IH. }
  assert (Hmem : forall d, d ∈ domains ->
                 d <> [] /\ d <> netloc (urlparse url)
                 /\ exists h, h ∈ hrefs html /\ netloc (urlparse h) = d).
  { intros d Hd. rewrite Hdom in Hd.
    change (map ?f external) with (f <$> external) in Hd.
    apply list_elem_of_fmap in Hd. destruct Hd as (h & -> & Hh).
    rewrite Forall_forall in Hext. destruct (Hext h Hh) as [Hin Hx].
    unfold is_external in Hx. apply andb_true_iff in Hx. destruct Hx as [Hx1 Hx2].
    split; [intros E; rewrite E in Hx1; discriminate|].
    split; [|exists h; split; [exact Hin | reflexivity]].
    intros E. rewrite E in Hx2. rewrite bool_decide_eq_true_2 in Hx2 by reflexivity.
    discriminate. }
  destruct (Counter_ok domains) as (Hnd & Hentries & Hkeys).
  set (before := fun y x : str * nat => snd x <? snd y).
  assert (Hasym : forall a b, before a b = true -> before b a = false).
  { unfold before. intros a b H. apply Nat.ltb_lt in H. apply Nat.ltb_ge. lia. }
  assert (Htrans : forall a b c, before a b = false -> before b c = false ->
                                 before a c = false).
  { unfold before. intros a b c H1 H2. apply Nat.ltb_ge in H1, H2. apply Nat.ltb_ge. lia. }
  pose proof (PySort.sorted_perm before (Counter domains)) as Hperm.
  pose proof (PySort.sorted_in_order before Hasym Htrans (Counter domains)) as Hsorted.
  unfold most_common. fold before.
  set (sorted := PySort.sorted before (Counter domains)) in *.
  assert (Hsplit : sorted = take 10 sorted ++ drop 10 sorted)
    by (symmetry; apply take_drop).
  assert (Hnd_s : NoDup (map fst sorted)) by (rewrite Hperm; exact Hnd).
  assert (Hent_s : Forall (fun e => snd e = times (fst e) domains /\ 1 <= snd e) sorted)
    by (rewrite Hperm; exact Hentries).
  assert (Hin_top : forall e, e ∈ take 10 sorted -> e ∈ sorted).
  { intros e He. rewrite Hsplit. apply elem_of_app. left. exact He. }
  assert (Hcnt : forall e, e ∈ sorted -> snd e = times (fst e) domains).
  { intros e He. rewrite Forall_forall in Hent_s. apply (Hent_s e He). }
  split; [exact Hcount|].
  split; [rewrite Hdom; apply length_map|].
  split.
  { eapply sublist_NoDup; [exact Hnd_s|].
    change (fst <$> take 10 sorted `sublist_of` fst <$> sorted).
    apply fmap_sublist, sublist_take. }
  split; [rewrite length_map, length_take; lia|].
  split.
  { apply Forall_forall. intros d Hd.
    change (map fst ?l) with (fst <$> l) in Hd.
    apply list_elem_of_fmap in Hd. destruct Hd as (e & -> & He).
    apply Hmem. apply Hin_top in He. rewrite Hperm in He.
    rewrite Forall_forall in Hentries. destruct (Hentries e He) as [Hn Hp].
    unfold times in Hn.
    destruct (filter (fun x => x = fst e) domains) as [|x f] eqn:Ef;
      [cbn in Hn; lia|].
    assert (Hx : x ∈ filter (fun x => x = fst e) domains)
      by (rewrite Ef; apply elem_of_cons; left; reflexivity).
    apply list_elem_of_filter in Hx. destruct Hx as [-> Hx]. exact Hx. }
  split.
  { apply (StronglySorted_keys (PySort.in_order before)).
    - intros a b Ha Hb Hab. unfold PySort.in_order, before in Hab.
      apply Nat.ltb_ge in Hab.
      rewrite <- (Hcnt a (Hin_top a Ha)), <- (Hcnt b (Hin_top b Hb)). exact Hab.
    - apply StronglySorted_take. exact Hsorted. }
  intros d Hd Hout.
  apply Hkeys in Hd. rewrite <- Hperm in Hd.
  change (map fst sorted) with (fst <$> sorted) in Hd.
  apply list_elem_of_fmap in Hd. destruct Hd as (e & -> & He).
  assert (Hdrop : e ∈ drop 10 sorted).
  { rewrite Hsplit in He. apply elem_of_app in He. destruct He as [He|He]; [|exact He].
    exfalso. apply Hout. change (map fst ?l) with (fst <$> l).
    apply list_elem_of_fmap. exists e. split; [reflexivity | exact He]. }
  split.
  { rewrite length_map, length_take.
    destruct (Nat.le_gt_cases 10 (length sorted)) as [Hlen|Hlen]; [lia|].
    rewrite drop_ge in Hdrop by lia. inversion Hdrop. }
  apply Forall_forall. intros t Ht.
  change (map fst ?l) with (fst <$> l) in Ht.
  apply list_elem_of_fmap in Ht. destruct Ht as (et & -> & Het).
  pose proof (StronglySorted_take_drop _ _ 10 et e Hsorted Het Hdrop) as Hord.
  unfold PySort.in_order, before in Hord. apply Nat.ltb_ge in Hord.
  rewrite <- (Hcnt e He), <- (Hcnt et (Hin_top et Het)). exact Hord.
Qed.

End LinkFacts.

Lemma round_div_bounds (w : nat) :
  238 * round_div w 238 <= w + 119 /\ w <= 238 * round_div w 238 + 119.
Proof.
  unfold round_div. cbn zeta.
  pose proof (Nat.div_mod_eq w 238) as Hdm.
  pose proof (Nat.mod_upper_bound w 238 ltac:(lia)) as Hr.
  destruct (Nat.ltb_spec (2 * (w mod 238)) 238);
    [|destruct (Nat.ltb_spec 238 (2 * (w mod 238))); [|destruct (Nat.even (w / 238))]];
    lia.
Qed.

Lemma round_div_mono (v w : nat) : v <= w -> round_div v 238 <= round_div w 238.
Proof.
  intros Hvw. unfold round_div. cbn zeta.
  pose proof (Nat.div_mod_eq v 238) as Hv.
  pose proof (Nat.div_mod_eq w 238) as Hw.
  pose proof (Nat.mod_upper_bound v 238 ltac:(lia)) as Hrv.
  pose proof (Nat.mod_upper_bound w 238 ltac:(lia)) as Hrw.
  assert (Hq : v / 238 <= w / 238) by (apply Nat.Div0.div_le_mono; exact Hvw).
  destruct (Nat.eq_dec (v / 238) (w / 238)) as [E|E].
  - rewrite E in *.
    destruct (Nat.ltb_spec (2 * (v mod 238)) 238);
      destruct (Nat.ltb_spec (2 * (w mod 238)) 238);
      try destruct (Nat.ltb_spec 238 (2 * (v mod 238)));
      try destruct (Nat.ltb_spec 238 (2 * (w mod 238)));
      destruct (Nat.even (w / 238)); lia.
  - destruct (Nat.ltb_spec (2 * (v mod 238)) 238);
      destruct (Nat.ltb_spec (2 * (w mod 238)) 238);
      try destruct (Nat.ltb_spec 238 (2 * (v mod 238)));
      try destruct (Nat.ltb_spec 238 (2 * (w mod 238)));
      destruct (Nat.even (v / 238)); destruct (Nat.even (w / 238)); lia.
Qed.

(** X26. The reading time is at least one minute, never falls when the
    number of words grows, is one minute for up to 356 words, and from
    119 words on lies within half a minute of the number of words
    divided by 238. *)
Theorem reading_time_bounds (v w : nat) :
  1 <= reading_time_minutes w
  /\ (v <= w -> reading_time_minutes v <= reading_time_minutes w)
  /\ (w <= 356 -> reading_time_minutes w = 1)
  /\ (119 <= w -> 238 * reading_time_minutes w <= w + 119
                  /\ w <= 238 * reading_time_minutes w + 119).
Proof.
  unfold reading_time_minutes.
  pose proof (round_div_bounds w) as [Hlo Hhi].
  split; [lia|]. split; [intros H; pose proof (round_div_mono v w H); lia|].
  split; [intros H; lia|]. intros H. lia.
Qed.

Lemma reading_time_bounds_witness :
  300 <= 1000 /\ reading_time_minutes 300 <= reading_time_minutes 1000.
Proof.
  assert (H : 300 <= 1000) by lia.
  split; [exact H|].
  exact (proj1 (proj2 (reading_time_bounds 300 1000)) H).
Defined.

End Metadata.

(** ** The crawl facts on the sample site *)

Module SampleFacts.

Import Fetch Crawl Sample.

Lemma deep_crawl_pages_witness :
  deep_crawl urlparse urljoin hrefs fnmatch respond start_url 10 None
  = (Returned [seed_page; page "" "https://e.com/a?x=1" 200;
               page "" "https://e.com/b" 200],
     [start_url; L "https://e.com/a?x=1"; L "https://e.com/gone";
      L "https://e.com/boom"; L "https://e.com/b#top"])
  /\ Forall (fun r => (status r < 400)%Z)
       [page "" "https://e.com/a?x=1" 200; page "" "https://e.com/b" 200].
Proof.
  assert (H : deep_crawl urlparse urljoin hrefs fnmatch respond start_url 10 None
              = (Returned [seed_page; page "" "https://e.com/a?x=1" 200;
                           page "" "https://e.com/b" 200],
                 [start_url; L "https://e.com/a?x=1"; L "https://e.com/gone";
                  L "https://e.com/boom"; L "https://e.com/b#top"]))
    by (vm_compute; reflexivity).
  split; [exact H|].
  exact (proj1 (proj2 (CrawlFacts.deep_crawl_pages urlparse urljoin hrefs fnmatch
                         respond start_url 10 None
                         [seed_page; page "" "https://e.com/a?x=1" 200;
                          page "" "https://e.com/b" 200]
                         [start_url; L "https://e.com/a?x=1"; L "https://e.com/gone";
                          L "https://e.com/boom"; L "https://e.com/b#top"] H))).
Defined.

Lemma deep_crawl_stops_at_budget_witness :
  deep_crawl urlparse urljoin hrefs fnmatch respond start_url 2 None
  = (Returned [seed_page; page "" "https://e.com/a?x=1" 200],
     [start_url; L "https://e.com/a?x=1"])
  /\ (2 <= Z.of_nat (length [seed_page; page "" "https://e.com/a?x=1" 200]))%Z
  /\ exists before u rs' r,
       [start_url; L "https://e.com/a?x=1"] = before ++ [u]
       /\ [seed_page; page "" "https://e.com/a?x=1" 200] = rs' ++ [r]
       /\ respond before u = Returned r.
Proof.
  assert (H : deep_crawl urlparse urljoin hrefs fnmatch respond start_url 2 None
              = (Returned [seed_page; page "" "https://e.com/a?x=1" 200],
                 [start_url; L "https://e.com/a?x=1"]))
    by (vm_compute; reflexivity).
  assert (H2 : (2 <= Z.of_nat (length [seed_page; page "" "https://e.com/a?x=1" 200]))%Z)
    by (cbn [length Z.of_nat]; discriminate).
  split; [exact H|]. split; [exact H2|].
  exact (CrawlFacts.deep_crawl_stops_at_budget urlparse urljoin hrefs fnmatch
           respond start_url 2 None
           [seed_page; page "" "https://e.com/a?x=1" 200]
           [start_url; L "https://e.com/a?x=1"] H H2).
Defined.

Lemma deep_crawl_tries_every_link_witness :
  deep_crawl urlparse urljoin hrefs fnmatch respond start_url 10 None
  = (Returned [seed_page; page "" "https://e.com/a?x=1" 200;
               page "" "https://e.com/b" 200],
     [start_url; L "https://e.com/a?x=1"; L "https://e.com/gone";
      L "https://e.com/boom"; L "https://e.com/b#top"])
  /\ (Z.of_nat (length [seed_page; page "" "https://e.com/a?x=1" 200;
                        page "" "https://e.com/b" 200]) < 10)%Z
  /\ exists seed,
       respond [] start_url = Returned seed
       /\ Forall (fun u => exists v,
                     v ∈ [start_url; L "https://e.com/a?x=1"; L "https://e.com/gone";
                          L "https://e.com/boom"; L "https://e.com/b#top"]
                     /\ _normalize_url urlparse v = _normalize_url urlparse u)
            (discovered urlparse urljoin hrefs fnmatch start_url None seed).
Proof.
  assert (H : deep_crawl urlparse urljoin hrefs fnmatch respond start_url 10 None
              = (Returned [seed_page; page "" "https://e.com/a?x=1" 200;
                           page "" "https://e.com/b" 200],
                 [start_url; L "https://e.com/a?x=1"; L "https://e.com/gone";
                  L "https://e.com/boom"; L "https://e.com/b#top"]))
    by (vm_compute; reflexivity).
  assert (H2 : (Z.of_nat (length [seed_page; page "" "https://e.com/a?x=1" 200;
                                  page "" "https://e.com/b" 200]) < 10)%Z)
    by (cbn [length Z.of_nat]; reflexivity).
  split; [exact H|]. split; [exact H2|].
  exact (CrawlFacts.deep_crawl_tries_every_link urlparse urljoin hrefs fnmatch
           respond start_url 10 None
           [seed_page; page "" "https://e.com/a?x=1" 200; page "" "https://e.com/b" 200]
           [start_url; L "https://e.com/a?x=1"; L "https://e.com/gone";
            L "https://e.com/boom"; L "https://e.com/b#top"] H H2).
Defined.

Lemma normalize_url_trailing_slashes_witness :
  scheme (urlparse (L "https://e.com/docs")) = scheme (urlparse (L "https://e.com/docs//"))
  /\ netloc (urlparse (L "https://e.com/docs")) = netloc (urlparse (L "https://e.com/docs//"))
  /\ path (urlparse (L "https://e.com/docs//"))
     = path (urlparse (L "https://e.com/docs")) ++ repeat "/"%char 2
  /\ _normalize_url urlparse (L "https://e.com/docs")
     = _normalize_url urlparse (L "https://e.com/docs//").
Proof.
  assert (Hs : scheme (urlparse (L "https://e.com/docs"))
               = scheme (urlparse (L "https://e.com/docs//")))
    by (vm_compute; reflexivity).
  assert (Hn : netloc (urlparse (L "https://e.com/docs"))
               = netloc (urlparse (L "https://e.com/docs//")))
    by (vm_compute; reflexivity).
  assert (Hp : path (urlparse (L "https://e.com/docs//"))
               = path (urlparse (L "https://e.com/docs")) ++ repeat "/"%char 2)
    by (vm_compute; reflexivity).
  split; [exact Hs|]. split; [exact Hn|]. split; [exact Hp|].
  exact (proj1 (CrawlFacts.normalize_url_trailing_slashes urlparse
                  (L "https://e.com/docs") (L "https://e.com/docs//") 2 Hs Hn Hp)).
Defined.

End SampleFacts.
